(** * emoji-search-emoji: the search server (src/server.js)

    A shallow embedding of the two request handlers of [src/server.js],
    [app.post('/documents')] and [app.get('/search/:query')], together
    with the parts of lodash, ajv, natural and geolib that they call.

    - JavaScript strings are sequences of UTF-16 code units ([list N]).
    - JavaScript numbers are rationals extended with NaN and the two
      infinities ([jsnum]); the arithmetic is exact.
    - JSON payloads are values of the inductive type [json].
    - The server's module-level state ([tfidf], [meta], [emojis]) and the
      snapshot file [database.json] are threaded explicitly. *)

From Stdlib Require Import String.
From Stdlib Require Import List NArith ZArith QArith Qround Bool Arith Lia Lqa.
From Stdlib Require Import Sorted Permutation.
Import ListNotations.

Close Scope Q_scope.
Local Open Scope nat_scope.
Local Open Scope list_scope.

(* ================================================================= *)
(** ** JavaScript strings *)

Definition jsstring := list N.

Definition jsstring_eqb (a b : jsstring) : bool :=
  if list_eq_dec N.eq_dec a b then true else false.

(** [String.prototype.indexOf(value) > -1]: [value] occurs in [s] as a
    contiguous run of code units. *)
Fixpoint starts_with (p s : jsstring) : bool :=
  match p, s with
  | [], _ => true
  | _ :: _, [] => false
  | a :: p', b :: s' => N.eqb a b && starts_with p' s'
  end.

Fixpoint index_of_found (p s : jsstring) : bool :=
  starts_with p s ||
  match s with
  | [] => false
  | _ :: s' => index_of_found p s'
  end.

(* ================================================================= *)
(** ** lodash: Unicode-aware string helpers

    [_.split(s, '')] and [_.size(s)] go through lodash's [hasUnicode],
    [unicodeToArray] and [unicodeSize], which are driven by the regular
    expressions [reHasUnicode] and [reUnicode].  The matchers below follow
    those expressions piece by piece; each returns the number of code
    units it consumes at the head of its argument. *)

Module Lodash.

Local Open Scope N_scope.

(** [rsAstralRange = \ud800-\udfff] *)
Definition isAstral (c : N) : bool := (0xD800 <=? c) && (c <=? 0xDFFF).
Definition isHighSurrogate (c : N) : bool := (0xD800 <=? c) && (c <=? 0xDBFF).
Definition isLowSurrogate (c : N) : bool := (0xDC00 <=? c) && (c <=? 0xDFFF).

(** [rsComboRange]: combining marks, half marks and symbols. *)
Definition isCombo (c : N) : bool :=
  ((0x0300 <=? c) && (c <=? 0x036F))
  || ((0xFE20 <=? c) && (c <=? 0xFE2F))
  || ((0x20D0 <=? c) && (c <=? 0x20FF)).

(** [rsVarRange = \ufe0e\ufe0f] *)
Definition isVar (c : N) : bool := (c =? 0xFE0E) || (c =? 0xFE0F).

(** [rsZWJ = \u200d] *)
Definition isZWJ (c : N) : bool := c =? 0x200D.

(** [reHasUnicode = [\u200d \ud800-\udfff combo var]] *)
Definition hasUnicodeUnit (c : N) : bool :=
  isZWJ c || isAstral c || isCombo c || isVar c.

Definition hasUnicode (s : jsstring) : bool := existsb hasUnicodeUnit s.

(** [rsFitz = \ud83c[\udffb-\udfff]] *)
Definition rsFitz (s : jsstring) : bool :=
  match s with
  | h :: l :: _ => (h =? 0xD83C) && (0xDFFB <=? l) && (l <=? 0xDFFF)
  | _ => false
  end.

(** One regional indicator, [\ud83c[\udde6-\uddff]]. *)
Definition rsRegionalUnit (s : jsstring) : bool :=
  match s with
  | h :: l :: _ => (h =? 0xD83C) && (0xDDE6 <=? l) && (l <=? 0xDDFF)
  | _ => false
  end.

(** [rsRegional = (?:\ud83c[\udde6-\uddff]){2}] *)
Definition rsRegional (s : jsstring) : bool :=
  rsRegionalUnit s && rsRegionalUnit (skipn 2 s).

(** [rsSurrPair = [\ud800-\udbff][\udc00-\udfff]] *)
Definition rsSurrPair (s : jsstring) : bool :=
  match s with
  | h :: l :: _ => isHighSurrogate h && isLowSurrogate l
  | _ => false
  end.

Local Close Scope N_scope.

(** [rsSymbol = (?: rsNonAstral rsCombo? | rsCombo | rsRegional
                  | rsSurrPair | rsAstral)].
    The alternative [rsCombo] is shadowed by [rsNonAstral]: every
    combining mark is a non-astral unit. *)
Definition rsSymbol_len (s : jsstring) : nat :=
  match s with
  | [] => 0
  | c :: r =>
      if negb (isAstral c) then
        match r with
        | d :: _ => if isCombo d then 2 else 1
        | [] => 1
        end
      else if rsRegional s then 4
      else if rsSurrPair s then 2
      else 1
  end.

(** [rsOptVar = [\ufe0e\ufe0f]?] *)
Definition rsOptVar_len (s : jsstring) : nat :=
  match s with
  | c :: _ => if isVar c then 1 else 0
  | [] => 0
  end.

(** [reOptMod = (?: rsCombo | rsFitz)?] *)
Definition reOptMod_len (s : jsstring) : nat :=
  match s with
  | c :: _ => if isCombo c then 1 else if rsFitz s then 2 else 0
  | [] => 0
  end.

(** The group that follows a zero-width joiner,
    [(?: rsNonAstral | rsRegional | rsSurrPair)]. *)
Definition rsJoined_len (s : jsstring) : option nat :=
  match s with
  | c :: _ =>
      if negb (isAstral c) then Some 1
      else if rsRegional s then Some 4
      else if rsSurrPair s then Some 2
      else None
  | [] => None
  end.

(** [rsOptJoin = (?: rsZWJ (?:...) rsOptVar reOptMod)*], greedy.  Every
    iteration consumes at least two units, so [fuel = length s] is
    enough. *)
Fixpoint rsOptJoin_len (fuel : nat) (s : jsstring) : nat :=
  match fuel with
  | O => 0
  | S fuel' =>
      match s with
      | z :: r =>
          if isZWJ z then
            match rsJoined_len r with
            | Some k =>
                let r1 := skipn k r in
                let v := rsOptVar_len r1 in
                let r2 := skipn v r1 in
                let m := reOptMod_len r2 in
                1 + k + v + m + rsOptJoin_len fuel' (skipn m r2)
            | None => 0
            end
          else 0
      | [] => 0
      end
  end.

(** [rsSeq = rsOptVar reOptMod rsOptJoin] *)
Definition rsSeq_len (s : jsstring) : nat :=
  let v := rsOptVar_len s in
  let r1 := skipn v s in
  let m := reOptMod_len r1 in
  let r2 := skipn m r1 in
  v + m + rsOptJoin_len (length r2) r2.

(** [reUnicode = rsFitz(?=rsFitz) | rsSymbol rsSeq]: the length of the
    match at the head of [s]. *)
Definition reUnicode_len (s : jsstring) : nat :=
  if rsFitz s && rsFitz (skipn 2 s) then 2
  else
    let k := rsSymbol_len s in
    k + rsSeq_len (skipn k s).

(** [unicodeToArray(s) = s.match(reUnicode) || []] *)
Fixpoint unicodeToArray_from (fuel : nat) (s : jsstring) : list jsstring :=
  match fuel with
  | O => []
  | S fuel' =>
      match s with
      | [] => []
      | _ :: _ =>
          let k := reUnicode_len s in
          firstn k s :: unicodeToArray_from fuel' (skipn k s)
      end
  end.

Definition unicodeToArray (s : jsstring) : list jsstring :=
  unicodeToArray_from (length s) s.

(** [asciiToArray(s) = s.split('')] *)
Definition asciiToArray (s : jsstring) : list jsstring :=
  map (fun c => [c]) s.

(** [_.split(s, '')]: [stringToArray] when [hasUnicode(s)], the native
    [s.split('')] otherwise. *)
Definition split (s : jsstring) : list jsstring :=
  if hasUnicode s then unicodeToArray s else asciiToArray s.

(** [_.size] on a string ([stringSize]). *)
Definition size (s : jsstring) : nat :=
  if hasUnicode s then length (unicodeToArray s) else length s.

(** [_.includes(string, value)] *)
Definition includes (s value : jsstring) : bool := index_of_found value s.

(** [baseUniq]: keeps the first occurrence of every element. *)
Fixpoint uniq (l : list jsstring) : list jsstring :=
  match l with
  | [] => []
  | x :: l' => x :: filter (fun y => negb (jsstring_eqb x y)) (uniq l')
  end.

(** [_.union(a, b)] on arrays of strings. *)
Definition union (a b : list jsstring) : list jsstring := uniq (a ++ b).

(** [fp.join('')] *)
Definition join (l : list jsstring) : jsstring := concat l.

End Lodash.

(* ================================================================= *)
(** ** JavaScript numbers

    The measures are JavaScript numbers.  They are modelled as exact
    rationals extended with the three special values that a division can
    produce.  Signed zeros are not distinguished: every divisor in
    [src/server.js] is a sum of non-negative terms. *)

Inductive jsnum : Type :=
| Num (q : Q)
| NaN
| PosInf
| NegInf.

Definition Q_of_nat (n : nat) : Q := inject_Z (Z.of_nat n).

(** [a / b] on finite operands. *)
Definition num_div (a b : Q) : jsnum :=
  if Qeq_bool b 0 then
    match Qcompare a 0 with
    | Eq => NaN
    | Gt => PosInf
    | Lt => NegInf
    end
  else Num (a / b).

Definition js_add (a b : jsnum) : jsnum :=
  match a, b with
  | NaN, _ | _, NaN => NaN
  | PosInf, NegInf | NegInf, PosInf => NaN
  | PosInf, _ | _, PosInf => PosInf
  | NegInf, _ | _, NegInf => NegInf
  | Num x, Num y => Num (x + y)
  end.

Definition js_neg (a : jsnum) : jsnum :=
  match a with
  | Num x => Num (- x)
  | NaN => NaN
  | PosInf => NegInf
  | NegInf => PosInf
  end.

Definition js_sub (a b : jsnum) : jsnum := js_add a (js_neg b).

(** [!!a] *)
Definition js_truthy (a : jsnum) : bool :=
  match a with
  | Num x => negb (Qeq_bool x 0)
  | NaN => false
  | PosInf | NegInf => true
  end.

(** [a || 0] *)
Definition js_or0 (a : jsnum) : jsnum := if js_truthy a then a else Num 0.

(** [a === b] *)
Definition js_strict_eq (a b : jsnum) : bool :=
  match a, b with
  | Num x, Num y => Qeq_bool x y
  | PosInf, PosInf | NegInf, NegInf => true
  | _, _ => false
  end.

(** [a > b] *)
Definition js_gt (a b : jsnum) : bool :=
  match a, b with
  | NaN, _ | _, NaN => false
  | Num x, Num y => negb (Qle_bool x y)
  | PosInf, PosInf => false
  | PosInf, _ => true
  | _, PosInf => false
  | NegInf, _ => false
  | Num _, NegInf => true
  end.

(** [a >= b], the order in which a descending output is read. *)
Definition js_ge (a b : jsnum) : bool := js_gt a b || js_strict_eq a b.

(** [toInteger] followed by the clamp [n < 0 ? 0 : n] of [_.take]. *)
Definition take_count (limit : Q) : nat :=
  Z.to_nat (if Qle_bool 0 limit then Qfloor limit else Qceiling limit).

(* ================================================================= *)
(** ** lodash: collections *)

Module Collection.

(** lodash's [compareAscending] returns 1 on two numbers when the first
    is NaN, or when neither is NaN and [a > b]. *)
Definition compareAscending_gt (a b : jsnum) : bool :=
  match a, b with
  | NaN, _ => true
  | _, NaN => false
  | _, _ => js_gt a b
  end.

Section SortBy.
Context {A K : Type}.
Variable gt : K -> K -> bool.
Variable key : A -> K.

(** [_.sortBy(l, key)] is stable: [baseSortBy] breaks ties on the
    original index.  An element is inserted in front of the first
    element that is not smaller than it. *)
Fixpoint insert (x : A) (l : list A) : list A :=
  match l with
  | [] => [x]
  | y :: l' => if gt (key x) (key y) then y :: insert x l' else x :: l
  end.

Definition sortBy (l : list A) : list A := fold_right insert [] l.
End SortBy.

(** [_.max] on an array of lengths ([undefined] for the empty array). *)
Definition max_nat (l : list nat) : option nat :=
  match l with
  | [] => None
  | x :: l' => Some (fold_left Nat.max l' x)
  end.

(** [_.max] on an array of numbers ([baseExtremum] with [baseGt]): the
    first non-NaN value starts the scan, a later value replaces the
    current one when it is greater. *)
Definition max_step (acc : option jsnum) (x : jsnum) : option jsnum :=
  match acc with
  | None => match x with NaN => None | _ => Some x end
  | Some m => if js_gt x m then Some x else Some m
  end.

Definition max_num (l : list jsnum) : option jsnum :=
  fold_left max_step l None.

(** [array.slice(start, end)] *)
Definition slice {A : Type} (start stop : nat) (l : list A) : list A :=
  firstn (stop - start) (skipn start l).

End Collection.

(* ================================================================= *)
(** ** JSON values and plain objects *)

#[local] Set Warnings "-register-all".

Inductive json : Type :=
| JNull
| JBool (b : bool)
| JNum (q : Q)
| JStr (s : jsstring)
| JArr (l : list json)
| JObj (fields : list (string * json)).

(** A plain object is a list of bindings in insertion order; a key is
    bound at most once. *)
Definition obj (A : Type) := list (string * A).

Fixpoint obj_get {A : Type} (k : string) (o : obj A) : option A :=
  match o with
  | [] => None
  | (k', v) :: o' => if String.eqb k k' then Some v else obj_get k o'
  end.

Definition obj_has {A : Type} (k : string) (o : obj A) : bool :=
  match obj_get k o with Some _ => true | None => false end.

(** [o[k] = v]: an existing binding keeps its place, a new one goes to
    the end. *)
Fixpoint obj_set {A : Type} (k : string) (v : A) (o : obj A) : obj A :=
  match o with
  | [] => [(k, v)]
  | (k', v') :: o' =>
      if String.eqb k k' then (k, v) :: o' else (k', v') :: obj_set k v o'
  end.

(** Truthiness of a JSON value. *)
Definition truthy (j : json) : bool :=
  match j with
  | JNull => false
  | JBool b => b
  | JNum q => negb (Qeq_bool q 0)
  | JStr s => match s with [] => false | _ => true end
  | JArr _ | JObj _ => true
  end.

(* ================================================================= *)
(** ** ajv: the two compiled schemas *)

Module Ajv.

Local Open Scope string_scope.

Definition type_number (j : json) : bool :=
  match j with JNum _ => true | _ => false end.
Definition type_string (j : json) : bool :=
  match j with JStr _ => true | _ => false end.
Definition type_null (j : json) : bool :=
  match j with JNull => true | _ => false end.

(** [properties: { k: schema }]: checked only when [k] is present. *)
Definition property (k : string) (schema : json -> bool) (o : obj json) : bool :=
  match obj_get k o with
  | Some v => schema v
  | None => true
  end.

(** [required: [...]] *)
Definition required (ks : list string) (o : obj json) : bool :=
  forallb (fun k => obj_has k o) ks.

(** [additionalProperties: false] next to [properties] naming [ks]. *)
Definition noAdditional (ks : list string) (o : obj json) : bool :=
  forallb (fun kv => existsb (String.eqb (fst kv)) ks) o.

(** [oneOf]: exactly one of the schemas accepts the value. *)
Definition oneOf (schemas : list (json -> bool)) (j : json) : bool :=
  Nat.eqb (List.length (filter (fun schema => schema j) schemas)) 1.

(** Lines 65-72: the object form of [geolocation]. *)
Definition geolocationSchema (j : json) : bool :=
  match j with
  | JObj o =>
      property "latitude" type_number o
      && property "longitude" type_number o
      && required ["latitude"; "longitude"] o
      && noAdditional ["latitude"; "longitude"] o
  | _ => false
  end.

(** Lines 61-76: the object form of [meta]. *)
Definition metaSchema (j : json) : bool :=
  match j with
  | JObj o => property "geolocation" (oneOf [geolocationSchema; type_null]) o
  | _ => false
  end.

(** [documentPostValidate], lines 55-82, on an object body. *)
Definition documentPostValidate (body : obj json) : bool :=
  property "emoji" type_string body
  && property "meta" (oneOf [metaSchema; type_null]) body
  && required ["emoji"] body.

(** Lines 114-120: the circular geofence. *)
Definition circleSchema (o : obj json) : bool :=
  property "latitude" type_number o
  && property "longitude" type_number o
  && property "radius" type_number o
  && required ["latitude"; "longitude"; "radius"] o
  && noAdditional ["latitude"; "longitude"; "radius"] o.

(** Lines 122-129: the bounding-box geofence. *)
Definition boxSchema (o : obj json) : bool :=
  property "latitude" type_number o
  && property "longitude" type_number o
  && property "latitudeDelta" type_number o
  && property "longitudeDelta" type_number o
  && required ["latitude"; "longitude"; "latitudeDelta"; "longitudeDelta"] o
  && noAdditional ["latitude"; "longitude"; "latitudeDelta"; "longitudeDelta"] o.

Definition geofenceSchema (j : json) : bool :=
  match j with
  | JObj o =>
      oneOf [fun _ => circleSchema o; fun _ => boxSchema o] j
  | _ => false
  end.

(** [searchValidate], lines 106-134, on the query-parameter object. *)
Definition searchValidate (params : obj json) : bool :=
  property "limit" type_number params
  && property "geofence" geofenceSchema params.

End Ajv.

(* ================================================================= *)
(** ** The helpers imported from [./utils] and [./emoji] *)

(** Modelled from the spec: [isAscii] of [./utils] is not part of the
    sources at hand.  A query is "plain" when it is ASCII and "emoji" when
    it contains a non-ASCII code point. *)
Definition isAscii (s : jsstring) : bool :=
  forallb (fun c => N.leb c 0x7F) s.

(** Modelled from the spec: [stripVariationSelectors] of [./emoji] is not
    part of the sources at hand.  It removes the variation-selector code
    points (U+FE00 to U+FE0F) from an emoji sequence. *)
Definition isVariationSelector (c : N) : bool :=
  N.leb 0xFE00 c && N.leb c 0xFE0F.

Definition stripVariationSelectors (s : jsstring) : jsstring :=
  filter (fun c => negb (isVariationSelector c)) s.

(** [Array.prototype.join(' ')] *)
Fixpoint join_space (l : list jsstring) : jsstring :=
  match l with
  | [] => []
  | [x] => x
  | x :: l' => x ++ 0x20%N :: join_space l'
  end.

(* ================================================================= *)
(** ** Server state *)

(** One document of the [natural] index: the text handed to
    [addDocument] and its key. *)
Record tfdoc : Type := { doc_text : jsstring; doc_key : string }.

(** The module-level variables [tfidf], [meta] and [emojis].  A key whose
    document came without [meta] is bound to [undefined] ([None]). *)
Record index : Type := {
  tfidf : list tfdoc;
  meta : obj (option json);
  emojis : obj jsstring
}.

(** The process: the index in memory and the last snapshot written to
    [database.json], if any. *)
Record server : Type := { memory : index; database : option index }.

Definition empty_index : index := {| tfidf := []; meta := []; emojis := [] |}.

Inductive status : Type := Created | BadRequest.

(** What a search request ends with: the JSON array of status 200, the
    validation errors of status 400, or an exception that leaves the
    handler. *)
Inductive response (A : Type) : Type :=
| Ok (a : A)
| Invalid
| Uncaught.
Arguments Ok {A} a.
Arguments Invalid {A}.
Arguments Uncaught {A}.

(** The options of a search after [_.defaults] (lines 145-156). *)
Record options : Type := {
  limit : Q;
  geofence : option (obj json);
  enableFuzzySearch : bool;
  persistOrder : bool;
  truncateSmallMatches : bool;
  truncateSmallScore : bool;
  onlyKeepPerfectMatch : bool
}.

Definition default_options : options := {|
  limit := 50%Q;
  geofence := None;
  enableFuzzySearch := false;
  persistOrder := false;
  truncateSmallMatches := true;
  truncateSmallScore := false;
  onlyKeepPerfectMatch := true
|}.

(** The value stored in [result[key]] by the [tfidfs] callback. *)
Record raw_term : Type := {
  r_meta : option json;
  r_measure1 : Q;
  r_emoji : option jsstring
}.

(** An element of [result] from line 164 on; [measure2] and [matches] are
    [undefined] until the n-gram block sets them. *)
Record term : Type := {
  t_meta : option json;
  t_measure1 : jsnum;
  t_emoji : option jsstring;
  t_measure2 : option jsnum;
  t_matches : option (list jsstring)
}.

(** An element of [result] from line 216 on: the term and its combined
    measure. *)
Record entry : Type := { e_term : term; e_measure : jsnum }.

Definition set_measure1 (m : jsnum) (t : term) : term :=
  {| t_meta := t_meta t; t_measure1 := m; t_emoji := t_emoji t;
     t_measure2 := t_measure2 t; t_matches := t_matches t |}.

Definition set_ngram (m2 : jsnum) (ms : list jsstring) (t : term) : term :=
  {| t_meta := t_meta t; t_measure1 := t_measure1 t; t_emoji := t_emoji t;
     t_measure2 := Some m2; t_matches := Some ms |}.

Section Server.

Local Open Scope string_scope.

(** [natural]: [TfIdf.prototype.tfidf(terms, d)], the raw measure of the
    document at position [d] of the index for the query text. *)
Variable tfidf_measure : list tfdoc -> jsstring -> nat -> Q.

(** [./emoji]: [convertEmojiToKeywords(emojiLib, _)].  The module is not
    part of the sources at hand; the keyword table is a parameter. *)
Variable convertEmojiToKeywords : jsstring -> list jsstring.

(** [geolib]: [isPointInside(point, polygon)] and
    [isPointInCircle(point, center, radius)]. *)
Variable isPointInside : json -> list (jsnum * jsnum) -> bool.
Variable isPointInCircle : json -> obj json -> jsnum -> bool.

(** [JSON.parse] applied to a query parameter; [None] is a
    [SyntaxError]. *)
Variable JSON_parse : json -> option json.

(* --------------------------------------------------------------- *)
(** *** [app.post('/documents')], lines 89-104

    [key] is the identifier drawn by [uuidv4()], and [body] the object
    that body-parser made of the payload. *)

Definition post_documents (key : string) (body : obj json) (s : server)
  : status * server :=
  if negb (Ajv.documentPostValidate body) then (BadRequest, s)
  else
    match obj_get "emoji" body with
    | Some (JStr emoji) =>
        let st := memory s in
        let st' := {|
          tfidf := tfidf st ++
            [{| doc_text := join_space (convertEmojiToKeywords emoji);
                doc_key := key |}];
          meta := obj_set key (obj_get "meta" body) (meta st);
          emojis := obj_set key emoji (emojis st)
        |} in
        (Created, {| memory := st'; database := Some st' |})
    | _ => (BadRequest, s)
    end.

(* --------------------------------------------------------------- *)
(** *** Scoring, lines 157-164 *)

Definition keywords_of_query (query : jsstring) : jsstring :=
  if isAscii query then query
  else join_space (convertEmojiToKeywords query).

Definition meta_of (st : index) (key : string) : option json :=
  match obj_get key (meta st) with
  | Some v => v
  | None => None
  end.

(** The callback of [tfidf.tfidfs], called for every document of the
    index in order.  The keys are identifiers of [uuidv4()], never the
    text of an array index, so the object [result] enumerates them in
    the order in which they were set. *)
Definition tfidfs_callback (st : index) (kws : jsstring)
    (acc : obj raw_term * Q) (d : nat * tfdoc) : obj raw_term * Q :=
  let measure := tfidf_measure (tfidf st) kws (fst d) in
  let key := doc_key (snd d) in
  (obj_set key
     {| r_meta := meta_of st key; r_measure1 := measure;
        r_emoji := obj_get key (emojis st) |}
     (fst acc),
   (snd acc + measure)%Q).

Definition tfidfs (st : index) (kws : jsstring) : obj raw_term * Q :=
  fold_left (tfidfs_callback st kws)
    (combine (seq 0 (List.length (tfidf st))) (tfidf st)) ([], 0%Q).

(** Line 164. *)
Definition normalise (measure1Sum : Q) (r : raw_term) : term :=
  {| t_meta := r_meta r;
     t_measure1 := num_div (r_measure1 r) measure1Sum;
     t_emoji := r_emoji r;
     t_measure2 := None;
     t_matches := None |}.

Definition scored (st : index) (query : jsstring) : list term :=
  let r := tfidfs st (keywords_of_query query) in
  map (fun kv => normalise (snd r) (snd kv)) (fst r).

(* --------------------------------------------------------------- *)
(** *** The n-gram block, lines 167-194 *)

(** Lines 170-176: every [{start, length}] window of the split query,
    joined, sorted by its [length] property (code units). *)
Definition windows (n : nat) : list (nat * nat) :=
  flat_map (fun start => map (fun offset => (start, offset + 1)) (seq 0 (n - start)))
           (seq 0 n).

Definition subsets (persistOrder : bool) (query : jsstring) : list jsstring :=
  let querySplitted := Lodash.split query in
  if persistOrder then
    Collection.sortBy (fun a b => Nat.ltb b a) (@List.length N)
      (map (fun w => Lodash.join
                       (Collection.slice (fst w) (fst w + snd w) querySplitted))
           (windows (List.length querySplitted)))
  else querySplitted.

Definition subsetLengthSum (subs : list jsstring) : nat :=
  list_sum (map Lodash.size subs).

(** One call of the [map] callback of lines 182-188: the state is the
    array [matches] and the running sum. *)
Definition match_subset (emoji : jsstring)
    (acc : list jsstring * nat) (subset : jsstring) : list jsstring * nat :=
  if Lodash.includes (stripVariationSelectors emoji)
                     (stripVariationSelectors subset)
  then (Lodash.union [subset] (fst acc), snd acc + Lodash.size subset)
  else acc.

Definition match_subsets (subs : list jsstring) (emoji : jsstring)
  : list jsstring * nat :=
  fold_left (match_subset emoji) subs ([], 0).

(** [_.divide(sum, subsetLengthSum)] *)
Definition measure2_of (subs : list jsstring) (emoji : jsstring) : jsnum :=
  num_div (Q_of_nat (snd (match_subsets subs emoji)))
          (Q_of_nat (subsetLengthSum subs)).

(** The body of [_.each(result, term => ...)].  A term whose key has no
    stored emoji hands [undefined] to [stripVariationSelectors]; the
    model stops there with an exception. *)
Definition ngram_term (subs : list jsstring) (t : term) : option term :=
  match t_emoji t with
  | Some emoji =>
      Some (set_ngram (measure2_of subs emoji)
                      (fst (match_subsets subs emoji)) t)
  | None => None
  end.

Fixpoint each_ngram (subs : list jsstring) (l : list term)
  : option (list term) :=
  match l with
  | [] => Some []
  | t :: l' =>
      match ngram_term subs t, each_ngram subs l' with
      | Some t', Some r => Some (t' :: r)
      | _, _ => None
      end
  end.

Definition ngram_block (persistOrder : bool) (query : jsstring)
    (l : list term) : option (list term) :=
  if negb (isAscii query) then each_ngram (subsets persistOrder query) l
  else Some l.

(* --------------------------------------------------------------- *)
(** *** The geo filters, lines 196-211 *)

(** [_.has(item, 'meta.geolocation')] and [item.meta.geolocation]. *)
Definition geolocation_of (t : term) : option json :=
  match t_meta t with
  | Some (JObj o) => obj_get "geolocation" o
  | _ => None
  end.

Definition has_geolocation (t : term) : bool :=
  match geolocation_of t with Some _ => true | None => false end.

(** A numeric field of the validated geofence. *)
Definition field (g : obj json) (k : string) : jsnum :=
  match obj_get k g with
  | Some (JNum q) => Num q
  | _ => NaN
  end.

Definition box_corners (g : obj json) : list (jsnum * jsnum) :=
  [ (js_sub (field g "latitude") (field g "latitudeDelta"),
     js_sub (field g "longitude") (field g "longitudeDelta"));
    (js_add (field g "latitude") (field g "latitudeDelta"),
     js_sub (field g "longitude") (field g "longitudeDelta"));
    (js_add (field g "latitude") (field g "latitudeDelta"),
     js_add (field g "longitude") (field g "longitudeDelta"));
    (js_sub (field g "latitude") (field g "latitudeDelta"),
     js_add (field g "longitude") (field g "longitudeDelta")) ].

Definition filterIsPointInside (geofence : option (obj json)) (item : term) : bool :=
  match geofence with
  | Some g =>
      if negb (obj_has "radius" g) then
        match geolocation_of item with
        | None => true
        | Some p => isPointInside p (box_corners g)
        end
      else true
  | None => true
  end.

Definition filterIsPointInCircle (geofence : option (obj json)) (item : term) : bool :=
  match geofence with
  | Some g =>
      if obj_has "radius" g then
        match geolocation_of item with
        | None => true
        | Some p => isPointInCircle p g (field g "radius")
        end
      else true
  | None => true
  end.

Definition geo_filter (geofence : option (obj json)) (l : list term) : list term :=
  filter (filterIsPointInCircle geofence)
         (filter (filterIsPointInside geofence) l).

(* --------------------------------------------------------------- *)
(** *** Combination and result policy, lines 213-235 *)

(** Line 213. *)
Definition zero_measure1 (enableFuzzySearch : bool) (l : list term) : list term :=
  if negb enableFuzzySearch then map (set_measure1 (Num 0)) l else l.

Definition measure2_or0 (t : term) : jsnum :=
  match t_measure2 t with
  | Some m => js_or0 m
  | None => Num 0
  end.

(** Lines 215-218. *)
Definition combine_measure (t : term) : entry :=
  {| e_term := t;
     e_measure := js_add (js_or0 (t_measure1 t)) (measure2_or0 t) |}.

Definition combined (l : list term) : list entry :=
  filter (fun o => js_truthy (e_measure o)) (map combine_measure l).

(** [_.size(o.matches)] *)
Definition matches_size (o : entry) : nat :=
  match t_matches (e_term o) with
  | Some ms => List.length ms
  | None => 0
  end.

Definition filterSmallMatch (truncateSmallMatches : bool)
    (maxMatchesLength : option nat) (o : entry) : bool :=
  if truncateSmallMatches then
    match maxMatchesLength with
    | Some m => Nat.eqb (matches_size o) m
    | None => false
    end
  else true.

Definition filterSmallScore (truncateSmallScore : bool)
    (maxMeasure : option jsnum) (o : entry) : bool :=
  if truncateSmallScore then
    match maxMeasure with
    | Some m => js_strict_eq (e_measure o) m
    | None => false
    end
  else true.

Definition filterPerfectMatch (onlyKeepPerfectMatch : bool) (o : entry) : bool :=
  if onlyKeepPerfectMatch then
    match t_measure2 (e_term o) with
    | Some m => js_strict_eq m (Num 1)
    | None => false
    end
  else true.

(** Lines 220-231: the three filters, one after the other. *)
Definition filtered (opts : options) (result : list entry) : list entry :=
  let maxMatchesLength := Collection.max_nat (map matches_size result) in
  let maxMeasure := Collection.max_num (map e_measure result) in
  filter (filterSmallScore (truncateSmallScore opts) maxMeasure)
    (filter (filterSmallMatch (truncateSmallMatches opts) maxMatchesLength)
       (filter (filterPerfectMatch (onlyKeepPerfectMatch opts)) result)).

(** Lines 232-233. *)
Definition ranked (l : list entry) : list entry :=
  rev (Collection.sortBy Collection.compareAscending_gt e_measure l).

(** Lines 228-235. *)
Definition policy (opts : options) (result : list entry) : list entry :=
  firstn (take_count (limit opts)) (ranked (filtered opts result)).

(** Lines 157-218: the elements of [result] when the policy filters
    start, in the order of the array. *)
Definition candidates (st : index) (query : jsstring) (opts : options)
  : option (list entry) :=
  match ngram_block (persistOrder opts) query (scored st query) with
  | Some result =>
      Some (combined
              (zero_measure1 (enableFuzzySearch opts)
                 (geo_filter (geofence opts) result)))
  | None => None
  end.

(** Lines 157-235 for options that passed validation. *)
Definition run_search (st : index) (query : jsstring) (opts : options)
  : option (list entry) :=
  match candidates st query opts with
  | Some result => Some (policy opts result)
  | None => None
  end.

(* --------------------------------------------------------------- *)
(** *** [app.get('/search/:query')], lines 136-238 *)

(** Line 138. *)
Definition parse_geofence (params : obj json) : option (obj json) :=
  match obj_get "geofence" params with
  | Some v =>
      match JSON_parse v with
      | Some g => Some (obj_set "geofence" g params)
      | None => None
      end
  | None => Some params
  end.

Definition flag (params : obj json) (k : string) (default : bool) : bool :=
  match obj_get k params with
  | Some v => truthy v
  | None => default
  end.

(** Lines 145-156, on parameters accepted by [searchValidate]: [limit]
    is then a number and [geofence] an object. *)
Definition defaults (params : obj json) : options :=
  {| limit := match obj_get "limit" params with
              | Some (JNum q) => q
              | _ => limit default_options
              end;
     geofence := match obj_get "geofence" params with
                 | Some (JObj g) => Some g
                 | _ => None
                 end;
     enableFuzzySearch := flag params "enableFuzzySearch" false;
     persistOrder := flag params "persistOrder" false;
     truncateSmallMatches := flag params "truncateSmallMatches" true;
     truncateSmallScore := flag params "truncateSmallScore" false;
     onlyKeepPerfectMatch := flag params "onlyKeepPerfectMatch" true |}.

Definition search (st : index) (query : jsstring) (params : obj json)
  : response (list entry) :=
  match parse_geofence params with
  | None => Uncaught
  | Some params' =>
      if negb (Ajv.searchValidate params') then Invalid
      else
        match run_search st query (defaults params') with
        | Some result => Ok result
        | None => Uncaught
        end
  end.

End Server.

(* ================================================================= *)
(** ** Start of the process, lines 41-51 *)

(** What [JSON.parse] reads back of a [meta] that [JSON.stringify] wrote
    (line 101): a key bound to [undefined] is not written. *)
Fixpoint stringified (o : obj (option json)) : obj (option json) :=
  match o with
  | [] => []
  | (k, Some v) :: o' => (k, Some v) :: stringified o'
  | (_, None) :: o' => stringified o'
  end.

(** [file] is what [database.json] holds when it exists: the three
    structures that the last accepted post wrote. *)
Definition startup (file : option index) : server :=
  match file with
  | Some o =>
      {| memory := {| tfidf := tfidf o;
                      meta := stringified (meta o);
                      emojis := emojis o |};
         database := Some o |}
  | None => {| memory := empty_index; database := None |}
  end.

(* ================================================================= *)
(** ** A small instance for closed examples

    The libraries are instantiated with small stand-ins: every symbol of
    an emoji sequence is its own keyword, the raw measure of a document
    counts the occurrences of the query's words in its text (a tf-idf
    with every idf equal to 1), [geolib] places every point outside, and
    [JSON.parse] reads the text of the empty object only. *)

Module Samples.

Local Open Scope N_scope.

Definition grinning : jsstring := [0xD83D; 0xDE00].
Definition sunglasses : jsstring := [0xD83D; 0xDE0E].
Definition vs16 : N := 0xFE0F.

Local Close Scope N_scope.
Local Open Scope string_scope.

Definition keywords (emoji : jsstring) : list jsstring := Lodash.split emoji.

(** Words of a text separated by single spaces. *)
Fixpoint words_from (cur : jsstring) (s : jsstring) : list jsstring :=
  match s with
  | [] => match cur with [] => [] | _ => [rev cur] end
  | c :: s' =>
      if N.eqb c 0x20 then
        match cur with
        | [] => words_from [] s'
        | _ => rev cur :: words_from [] s'
        end
      else words_from (c :: cur) s'
  end.

Definition words (s : jsstring) : list jsstring := words_from [] s.

Definition occurrences (w : jsstring) (l : list jsstring) : nat :=
  List.length (filter (jsstring_eqb w) l).

Definition measure (docs : list tfdoc) (kws : jsstring) (d : nat) : Q :=
  match nth_error docs d with
  | Some doc =>
      Q_of_nat (list_sum (map (fun w => occurrences w (words (doc_text doc)))
                              (words kws)))
  | None => 0%Q
  end.

Definition outside (_ : json) (_ : list (jsnum * jsnum)) : bool := false.
Definition outside_circle (_ : json) (_ : obj json) (_ : jsnum) : bool := false.

Definition parse (v : json) : option json :=
  match v with
  | JStr [0x7B%N; 0x7D%N] => Some (JObj [])
  | _ => None
  end.

Definition post := post_documents keywords.
Definition run := run_search measure keywords outside outside_circle.
Definition get := search measure keywords outside outside_circle parse.

Definition candidates_of := candidates measure keywords outside outside_circle.

Definition start : server := {| memory := empty_index; database := None |}.

Definition tagged (tag : N) : json := JObj [("tag", JNum (inject_Z (Z.of_N tag)))].

Definition document (emoji : jsstring) (m : json) : obj json :=
  [("emoji", JStr emoji); ("meta", m)].

(** Keys in the shape of the identifiers of [uuidv4()]: never the text
    of an array index. *)
Definition key_of (n : nat) : string :=
  "doc-" ++ String (Ascii.ascii_of_nat (65 + n)) "".

(** [n] documents with the emoji sequence [emoji], tagged 0 to [n-1] in
    the order of their insertion. *)
Fixpoint insert_many (emoji : jsstring) (n : nat) (s : server) : server :=
  match n with
  | O => s
  | S n' =>
      snd (post (key_of n') (document emoji (tagged (N.of_nat n')))
                (insert_many emoji n' s))
  end.

(** The scenario of two documents: a single face, then two faces. *)
Definition two_documents : server :=
  snd (post "doc-b" (document (grinning ++ sunglasses)%list (tagged 2))
         (snd (post "doc-a" (document grinning (tagged 1)) start))).

(** Two documents with one face each. *)
Definition two_faces : server :=
  snd (post "doc-b" (document sunglasses (tagged 2))
         (snd (post "doc-a" (document grinning (tagged 1)) start))).

(** A document whose emoji sequence is the face twice, after a document
    with the face once. *)
Definition face_twice : server :=
  snd (post "doc-b" (document (grinning ++ grinning)%list (tagged 2))
         (snd (post "doc-a" (document grinning (tagged 1)) start))).

(** The default options with [enableFuzzySearch] on. *)
Definition fuzzy : options := {|
  limit := 50%Q; geofence := None; enableFuzzySearch := true;
  persistOrder := false; truncateSmallMatches := true;
  truncateSmallScore := false; onlyKeepPerfectMatch := true
|}.

(** Options without the perfect-match filter, with [truncateSmallMatches]
    on and [truncateSmallScore] as given. *)
Definition loose (truncateSmallScore : bool) : options := {|
  limit := 50%Q; geofence := None; enableFuzzySearch := false;
  persistOrder := false; truncateSmallMatches := true;
  truncateSmallScore := truncateSmallScore; onlyKeepPerfectMatch := false
|}.

(** Fifty-one documents with the same emoji sequence. *)
Definition fifty_one : server := insert_many grinning 51 start.

End Samples.

(* ================================================================= *)
(** ** Vocabulary of the proofs *)

(** A matcher reads a prefix of its input: it never consumes more than
    there is, and cutting the input anywhere after the match does not
    change the match. *)
Definition matcher_ok (f : jsstring -> nat) : Prop :=
  (forall s, f s <= List.length s)
  /\ (forall s n, f s <= n -> f (firstn n s) = f s).

(** [f] followed by [g] on the rest. *)
Definition then_len (f g : jsstring -> nat) (s : jsstring) : nat :=
  f s + g (skipn (f s) s).

(** The order that an ascending sort on [key] establishes. *)
Definition ascends {A K : Type} (gt : K -> K -> bool) (key : A -> K)
    (x y : A) : Prop :=
  gt (key x) (key y) = false.

(** The test of line 183: the subset occurs in the document's emoji
    sequence, variation selectors aside. *)
Definition matched (emoji subset : jsstring) : bool :=
  Lodash.includes (stripVariationSelectors emoji)
                  (stripVariationSelectors subset).

(** A number that is neither NaN nor infinite. *)
Definition is_num (a : jsnum) : Prop := exists q, a = Num q.

(** Every document of the index has a stored emoji sequence, as in every
    state that [post_documents] builds. *)
Definition consistent (st : index) : Prop :=
  forall d, In d (tfidf st) -> obj_has (doc_key d) (emojis st) = true.

(** The n-gram step on a term, left alone when it has no emoji. *)
Definition ngram_of (subs : list jsstring) (t : term) : term :=
  match t_emoji t with
  | Some emoji =>
      set_ngram (measure2_of subs emoji) (fst (match_subsets subs emoji)) t
  | None => t
  end.

(** A term that went through the n-gram block for the subsets [subs]. *)
Definition ngram_shape (subs : list jsstring) (t : term) : Prop :=
  exists emoji,
    t_measure2 t = Some (measure2_of subs emoji)
    /\ t_matches t = Some (fst (match_subsets subs emoji)).

(** Changing one policy flag. *)
Definition set_truncateSmallMatches (b : bool) (o : options) : options :=
  {| limit := limit o; geofence := geofence o;
     enableFuzzySearch := enableFuzzySearch o; persistOrder := persistOrder o;
     truncateSmallMatches := b;
     truncateSmallScore := truncateSmallScore o;
     onlyKeepPerfectMatch := onlyKeepPerfectMatch o |}.

Definition set_truncateSmallScore (b : bool) (o : options) : options :=
  {| limit := limit o; geofence := geofence o;
     enableFuzzySearch := enableFuzzySearch o; persistOrder := persistOrder o;
     truncateSmallMatches := truncateSmallMatches o;
     truncateSmallScore := b;
     onlyKeepPerfectMatch := onlyKeepPerfectMatch o |}.

(** The sum of a list of rationals, and the sum of the [measure1] fields
    of a list of terms. *)
Definition Qsum (l : list Q) : Q := fold_right Qplus 0%Q l.

Definition sum_measure1 (l : list term) : jsnum :=
  fold_right (fun t acc => js_add (t_measure1 t) acc) (Num 0) l.

(** [measure2 === 1] on a term. *)
Definition perfect (t : term) : bool :=
  match t_measure2 t with
  | Some m => js_strict_eq m (Num 1)
  | None => false
  end.


(** The entries whose combined measure is [=== m]. *)
Definition tie (m : jsnum) (e : entry) : bool := js_strict_eq (e_measure e) m.

(** The order in which a result is read, first to last. *)
Definition descends (a b : entry) : Prop :=
  js_ge (e_measure a) (e_measure b) = true.

(** A run of further posts, whatever their outcome. *)
Fixpoint post_all (convertEmojiToKeywords : jsstring -> list jsstring)
    (requests : list (string * obj json)) (s : server) : server :=
  match requests with
  | [] => s
  | (key, body) :: rest =>
      post_all convertEmojiToKeywords rest
        (snd (post_documents convertEmojiToKeywords key body s))
  end.


(** What the schema of lines 64-74 accepts under [geolocation]: null, or
    an object with two numeric coordinates and no other key. *)
Definition geolocation_accepted (j : json) : Prop :=
  j = JNull
  \/ exists g a b,
       j = JObj g
       /\ obj_get "latitude" g = Some (JNum a)
       /\ obj_get "longitude" g = Some (JNum b)
       /\ forall k v, In (k, v) g -> k = "latitude"%string \/ k = "longitude"%string.

(** What the schema of lines 60-78 accepts under [meta]: null, or an
    object whose [geolocation], if any, is accepted. *)
Definition meta_accepted (j : json) : Prop :=
  j = JNull
  \/ exists m,
       j = JObj m
       /\ forall g, obj_get "geolocation" m = Some g -> geolocation_accepted g.




(* ================================================================= *)
(** ** Facts about the lodash string helpers *)

Module LodashFacts.

Import Lodash.

Lemma then_len_ok f g : matcher_ok f -> matcher_ok g -> matcher_ok (then_len f g).
Proof.
  intros [Bf Sf] [Bg Sg]. split.
  - intros s. unfold then_len.
    specialize (Bf s). specialize (Bg (skipn (f s) s)).
    rewrite length_skipn in Bg. lia.
  - intros s n H. unfold then_len in *.
    assert (Hf : f (firstn n s) = f s) by (apply Sf; lia).
    rewrite Hf, skipn_firstn_comm.
    rewrite Sg by lia. reflexivity.
Qed.

Ltac split_bools :=
  repeat match goal with
  | H : (_ && _)%bool = true |- _ => apply andb_prop in H; destruct H
  | H : N.eqb _ _ = true |- _ => apply N.eqb_eq in H
  | H : N.leb _ _ = true |- _ => apply N.leb_le in H
  end.

Lemma rsFitz_astral c r : rsFitz (c :: r) = true -> isAstral c = true.
Proof.
  unfold rsFitz, isAstral. destruct r as [|l r]; [discriminate|].
  intros H. split_bools. subst c. reflexivity.
Qed.

Lemma rsFitz_firstn s n : rsFitz (firstn n s) = true -> rsFitz s = true.
Proof.
  destruct s as [|a [|b s]]; destruct n as [|[|n]]; simpl; try discriminate; auto.
Qed.

Lemma rsFitz_cut s n : 2 <= n -> rsFitz (firstn n s) = rsFitz s.
Proof.
  intros H. destruct n as [|[|n]]; try lia.
  destruct s as [|a [|b s]]; reflexivity.
Qed.

Lemma rsFitz_length s : rsFitz s = true -> 2 <= List.length s.
Proof. destruct s as [|a [|b s]]; simpl; try discriminate; lia. Qed.

Lemma rsRegionalUnit_firstn s n : rsRegionalUnit (firstn n s) = true -> rsRegionalUnit s = true.
Proof.
  destruct s as [|a [|b s]]; destruct n as [|[|n]]; simpl; try discriminate; auto.
Qed.

Lemma rsRegionalUnit_cut s n : 2 <= n -> rsRegionalUnit (firstn n s) = rsRegionalUnit s.
Proof.
  intros H. destruct n as [|[|n]]; try lia.
  destruct s as [|a [|b s]]; reflexivity.
Qed.

Lemma rsRegionalUnit_length s : rsRegionalUnit s = true -> 2 <= List.length s.
Proof. destruct s as [|a [|b s]]; simpl; try discriminate; lia. Qed.

Lemma rsRegional_firstn s n : rsRegional (firstn n s) = true -> rsRegional s = true.
Proof.
  unfold rsRegional. intros H. apply andb_prop in H. destruct H as [H1 H2].
  rewrite skipn_firstn_comm in H2.
  apply rsRegionalUnit_firstn in H1, H2. now rewrite H1, H2.
Qed.

Lemma rsRegional_cut s n : 4 <= n -> rsRegional (firstn n s) = rsRegional s.
Proof.
  intros H. unfold rsRegional.
  rewrite skipn_firstn_comm, !rsRegionalUnit_cut by lia. reflexivity.
Qed.

Lemma rsRegional_length s : rsRegional s = true -> 4 <= List.length s.
Proof.
  unfold rsRegional. intros H. apply andb_prop in H. destruct H as [H1 H2].
  apply rsRegionalUnit_length in H1, H2. rewrite length_skipn in H2. lia.
Qed.

Lemma rsSurrPair_firstn s n : rsSurrPair (firstn n s) = true -> rsSurrPair s = true.
Proof.
  destruct s as [|a [|b s]]; destruct n as [|[|n]]; simpl; try discriminate; auto.
Qed.

Lemma rsSurrPair_cut s n : 2 <= n -> rsSurrPair (firstn n s) = rsSurrPair s.
Proof.
  intros H. destruct n as [|[|n]]; try lia.
  destruct s as [|a [|b s]]; reflexivity.
Qed.

Lemma rsSurrPair_length s : rsSurrPair s = true -> 2 <= List.length s.
Proof. destruct s as [|a [|b s]]; simpl; try discriminate; lia. Qed.

Lemma not_true_false b : (b = true -> False) -> b = false.
Proof. destruct b; intuition congruence. Qed.

Lemma rsSymbol_len_ok : matcher_ok rsSymbol_len.
Proof.
  split.
  - intros [|c r]; unfold rsSymbol_len; [simpl; lia|].
    destruct (negb (isAstral c)).
    + destruct r as [|d r]; [simpl; lia|]. destruct (isCombo d); simpl; lia.
    + destruct (rsRegional (c :: r)) eqn:R.
      { apply rsRegional_length in R. exact R. }
      destruct (rsSurrPair (c :: r)) eqn:P.
      { apply rsSurrPair_length in P. exact P. }
      simpl; lia.
  - intros [|c r] n H; [now rewrite firstn_nil|].
    unfold rsSymbol_len in *.
    destruct n as [|n].
    { exfalso. destruct (negb (isAstral c)); [destruct r as [|d r]; [|destruct (isCombo d)]
        | destruct (rsRegional (c :: r)); [|destruct (rsSurrPair (c :: r))]]; lia. }
    rewrite firstn_cons.
    destruct (negb (isAstral c)).
    + destruct r as [|d r]; [now rewrite firstn_nil|].
      destruct (isCombo d) eqn:C.
      * destruct n as [|n]; [lia|]. rewrite firstn_cons, C. reflexivity.
      * destruct n as [|n]; [reflexivity|]. rewrite firstn_cons, C. reflexivity.
    + rewrite <- firstn_cons.
      destruct (rsRegional (c :: r)) eqn:R.
      { rewrite rsRegional_cut, R by lia. reflexivity. }
      rewrite (not_true_false (rsRegional (firstn (S n) (c :: r))))
        by (intros X; apply rsRegional_firstn in X; congruence).
      destruct (rsSurrPair (c :: r)) eqn:P.
      { rewrite rsSurrPair_cut, P by lia. reflexivity. }
      rewrite (not_true_false (rsSurrPair (firstn (S n) (c :: r))))
        by (intros X; apply rsSurrPair_firstn in X; congruence).
      reflexivity.
Qed.

Lemma rsOptVar_len_ok : matcher_ok rsOptVar_len.
Proof.
  split.
  - intros [|c r]; simpl; [lia|]. destruct (isVar c); lia.
  - intros [|c r] n H; [now rewrite firstn_nil|].
    destruct n as [|n]; simpl in *; [|reflexivity].
    destruct (isVar c); [lia|reflexivity].
Qed.

Lemma reOptMod_len_ok : matcher_ok reOptMod_len.
Proof.
  split.
  - intros [|c r]; unfold reOptMod_len; [simpl; lia|].
    destruct (isCombo c); [simpl; lia|].
    destruct (rsFitz (c :: r)) eqn:F; [now apply rsFitz_length|lia].
  - intros [|c r] n H; [now rewrite firstn_nil|].
    unfold reOptMod_len in *.
    destruct n as [|n].
    { destruct (isCombo c); [lia|]. destruct (rsFitz (c :: r)); [lia|reflexivity]. }
    rewrite firstn_cons. destruct (isCombo c); [reflexivity|].
    rewrite <- firstn_cons.
    destruct (rsFitz (c :: r)) eqn:F.
    + rewrite rsFitz_cut, F by lia. reflexivity.
    + rewrite (not_true_false (rsFitz (firstn (S n) (c :: r))))
        by (intros X; apply rsFitz_firstn in X; congruence).
      reflexivity.
Qed.

Lemma rsJoined_len_le s k : rsJoined_len s = Some k -> 1 <= k <= List.length s.
Proof.
  destruct s as [|c r]; unfold rsJoined_len; [discriminate|].
  destruct (negb (isAstral c)).
  { intros [= <-]. simpl. lia. }
  destruct (rsRegional (c :: r)) eqn:R.
  { intros [= <-]. apply rsRegional_length in R. lia. }
  destruct (rsSurrPair (c :: r)) eqn:P; [|discriminate].
  intros [= <-]. apply rsSurrPair_length in P. lia.
Qed.

Lemma rsJoined_len_cut s n k :
  rsJoined_len s = Some k -> k <= n -> rsJoined_len (firstn n s) = Some k.
Proof.
  destruct s as [|c r]; unfold rsJoined_len; [discriminate|].
  intros H Hn.
  destruct n as [|n].
  { exfalso.
    destruct (negb (isAstral c)); [injection H; lia|].
    destruct (rsRegional (c :: r)); [injection H; lia|].
    destruct (rsSurrPair (c :: r)); [injection H; lia|discriminate]. }
  rewrite firstn_cons. destruct (negb (isAstral c)); [exact H|].
  rewrite <- firstn_cons.
  destruct (rsRegional (c :: r)) eqn:R.
  { injection H as <-. rewrite rsRegional_cut, R by lia. reflexivity. }
  rewrite (not_true_false (rsRegional (firstn (S n) (c :: r))))
    by (intros X; apply rsRegional_firstn in X; congruence).
  destruct (rsSurrPair (c :: r)) eqn:P; [|discriminate].
  injection H as <-. rewrite rsSurrPair_cut, P by lia. reflexivity.
Qed.

Lemma rsJoined_len_firstn s n :
  rsJoined_len s = None -> rsJoined_len (firstn n s) = None.
Proof.
  destruct s as [|c r]; [now rewrite firstn_nil|].
  destruct n as [|n]; [reflexivity|].
  unfold rsJoined_len. rewrite firstn_cons.
  destruct (negb (isAstral c)); [discriminate|].
  rewrite <- firstn_cons.
  destruct (rsRegional (c :: r)) eqn:R; [discriminate|].
  destruct (rsSurrPair (c :: r)) eqn:P; [discriminate|].
  intros _.
  rewrite (not_true_false (rsRegional (firstn (S n) (c :: r))))
    by (intros X; apply rsRegional_firstn in X; congruence).
  rewrite (not_true_false (rsSurrPair (firstn (S n) (c :: r))))
    by (intros X; apply rsSurrPair_firstn in X; congruence).
  reflexivity.
Qed.

(** One iteration of the joiner loop after its joiner, as a chain. *)
Lemma rsOptJoin_len_step fuel z r :
  rsOptJoin_len (S fuel) (z :: r) =
  if isZWJ z then
    match rsJoined_len r with
    | Some k =>
        1 + k + then_len rsOptVar_len
                  (then_len reOptMod_len (rsOptJoin_len fuel)) (skipn k r)
    | None => 0
    end
  else 0.
Proof.
  simpl. destruct (isZWJ z); [|reflexivity].
  destruct (rsJoined_len r); [|reflexivity].
  unfold then_len. lia.
Qed.

Lemma rsOptJoin_len_ok fuel : matcher_ok (rsOptJoin_len fuel).
Proof.
  induction fuel as [|fuel IH].
  { split; intros; simpl; [lia|reflexivity]. }
  pose proof (then_len_ok _ _ rsOptVar_len_ok
                (then_len_ok _ _ reOptMod_len_ok IH)) as [B S].
  split.
  - intros [|z r]; [simpl; lia|].
    rewrite rsOptJoin_len_step.
    destruct (isZWJ z); [|lia].
    destruct (rsJoined_len r) as [k|] eqn:J; [|lia].
    apply rsJoined_len_le in J. specialize (B (skipn k r)).
    rewrite length_skipn in B. simpl. lia.
  - intros [|z r] n H; [now rewrite firstn_nil|].
    rewrite rsOptJoin_len_step in H |- *.
    destruct n as [|n].
    { simpl. destruct (isZWJ z); [|reflexivity].
      destruct (rsJoined_len r); [lia|reflexivity]. }
    rewrite firstn_cons, rsOptJoin_len_step.
    destruct (isZWJ z); [|reflexivity].
    destruct (rsJoined_len r) as [k|] eqn:J.
    + rewrite (rsJoined_len_cut _ _ _ J) by lia.
      rewrite skipn_firstn_comm, S by lia. reflexivity.
    + now rewrite rsJoined_len_firstn.
Qed.

Lemma rsOptJoin_len_fuel fuel fuel' s :
  List.length s <= fuel -> List.length s <= fuel' ->
  rsOptJoin_len fuel s = rsOptJoin_len fuel' s.
Proof.
  revert fuel' s. induction fuel as [|fuel IH]; intros fuel' s H H'.
  { destruct s; [|simpl in H; lia]. destruct fuel'; reflexivity. }
  destruct s as [|z r]; [destruct fuel'; reflexivity|].
  destruct fuel' as [|fuel']; [simpl in H'; lia|].
  simpl in H, H'. simpl.
  destruct (isZWJ z); [|reflexivity].
  destruct (rsJoined_len r) as [k|]; [|reflexivity].
  do 2 f_equal. apply IH; rewrite !length_skipn; lia.
Qed.

Lemma rsSeq_len_chain s :
  rsSeq_len s =
  then_len rsOptVar_len (then_len reOptMod_len (rsOptJoin_len (List.length s))) s.
Proof.
  unfold rsSeq_len, then_len.
  rewrite <- Nat.add_assoc. do 2 f_equal.
  apply rsOptJoin_len_fuel; rewrite !length_skipn; lia.
Qed.

Lemma rsSeq_len_ok : matcher_ok rsSeq_len.
Proof.
  split.
  - intros s. rewrite rsSeq_len_chain.
    apply (then_len_ok _ _ rsOptVar_len_ok
             (then_len_ok _ _ reOptMod_len_ok (rsOptJoin_len_ok _))).
  - intros s n H. rewrite rsSeq_len_chain in H. rewrite !rsSeq_len_chain.
    pose proof (then_len_ok _ _ rsOptVar_len_ok
       (then_len_ok _ _ reOptMod_len_ok (rsOptJoin_len_ok (List.length s)))) as [B S].
    rewrite <- (S s n H).
    unfold then_len. do 2 f_equal.
    apply rsOptJoin_len_fuel; rewrite !length_skipn, ?length_firstn; lia.
Qed.

Lemma reUnicode_len_le s : reUnicode_len s <= List.length s.
Proof.
  unfold reUnicode_len.
  destruct (rsFitz s && rsFitz (skipn 2 s))%bool eqn:F.
  - apply andb_prop in F. destruct F as [F _]. now apply rsFitz_length.
  - apply (then_len_ok _ _ rsSymbol_len_ok rsSeq_len_ok).
Qed.

Lemma reUnicode_len_pos s : s <> [] -> 1 <= reUnicode_len s.
Proof.
  intros H. unfold reUnicode_len.
  destruct (rsFitz s && rsFitz (skipn 2 s))%bool; [lia|].
  destruct s as [|c r]; [congruence|].
  assert (1 <= rsSymbol_len (c :: r)); [|lia].
  unfold rsSymbol_len.
  destruct (negb (isAstral c)); [destruct r as [|d r]; [|destruct (isCombo d)]
    | destruct (rsRegional (c :: r)); [|destruct (rsSurrPair (c :: r))]]; lia.
Qed.

(** The match at the head of a string, taken alone, is matched whole. *)
Lemma reUnicode_len_alone s :
  reUnicode_len (firstn (reUnicode_len s) s) = reUnicode_len s.
Proof.
  unfold reUnicode_len at 2 3.
  destruct (rsFitz s && rsFitz (skipn 2 s))%bool eqn:F.
  - apply andb_prop in F. destruct F as [F _].
    destruct s as [|h [|l s]]; try discriminate.
    unfold rsFitz in F. split_bools. subst h.
    change (firstn 2 (0xD83C%N :: l :: s)) with [0xD83C%N; l].
    assert (L : isLowSurrogate l = true).
    { unfold isLowSurrogate. apply andb_true_intro; split; apply N.leb_le; lia. }
    unfold reUnicode_len. cbn [skipn].
    change (rsFitz []) with false. rewrite andb_false_r.
    unfold rsSymbol_len. change (isAstral 0xD83C) with true. cbn [negb].
    unfold rsRegional. cbn [skipn].
    change (rsRegionalUnit []) with false. rewrite andb_false_r.
    unfold rsSurrPair. change (isHighSurrogate 0xD83C) with true.
    rewrite L. reflexivity.
  - fold (then_len rsSymbol_len rsSeq_len s).
    unfold reUnicode_len.
    rewrite (not_true_false (rsFitz _ && rsFitz _)%bool).
    + apply (then_len_ok _ _ rsSymbol_len_ok rsSeq_len_ok). lia.
    + intros X. apply andb_prop in X. destruct X as [X1 X2].
      rewrite skipn_firstn_comm in X2.
      apply rsFitz_firstn in X1, X2. rewrite X1, X2 in F. discriminate.
Qed.

Lemma unicodeToArray_from_nil fuel : unicodeToArray_from fuel [] = [].
Proof. destruct fuel; reflexivity. Qed.

Lemma unicodeToArray_from_concat fuel s :
  List.length s <= fuel -> concat (unicodeToArray_from fuel s) = s.
Proof.
  revert s. induction fuel as [|fuel IH]; intros s H.
  - destruct s; [reflexivity|simpl in H; lia].
  - destruct s as [|c r]; [reflexivity|].
    cbn [unicodeToArray_from concat].
    pose proof (reUnicode_len_pos (c :: r)) as P.
    rewrite IH.
    + apply firstn_skipn.
    + rewrite length_skipn.
      assert (1 <= reUnicode_len (c :: r)) by (apply P; discriminate).
      lia.
Qed.

(** Every element of [unicodeToArray] is the match at the head of some
    non-empty rest of the string. *)
Lemma unicodeToArray_from_In fuel s p :
  In p (unicodeToArray_from fuel s) ->
  exists r, r <> [] /\ p = firstn (reUnicode_len r) r.
Proof.
  revert s. induction fuel as [|fuel IH]; intros s H; [contradiction|].
  destruct s as [|c r]; [contradiction|].
  cbn [unicodeToArray_from] in H. destruct H as [<-|H].
  - exists (c :: r). split; [discriminate|reflexivity].
  - eapply IH, H.
Qed.

Lemma unicodeToArray_head r :
  r <> [] -> unicodeToArray (firstn (reUnicode_len r) r) = [firstn (reUnicode_len r) r].
Proof.
  intros H. unfold unicodeToArray.
  pose proof (reUnicode_len_pos r H) as P.
  pose proof (reUnicode_len_le r) as L.
  rewrite length_firstn, Nat.min_l by exact L.
  destruct (reUnicode_len r) as [|k] eqn:K; [lia|].
  destruct r as [|c r]; [congruence|].
  rewrite firstn_cons. cbn [unicodeToArray_from].
  rewrite <- firstn_cons, <- K, reUnicode_len_alone.
  rewrite firstn_all2 by (rewrite length_firstn; lia).
  rewrite skipn_all2 by (rewrite length_firstn; lia).
  now rewrite unicodeToArray_from_nil.
Qed.

Lemma hasUnicode_cons c r :
  hasUnicode (c :: r) = (hasUnicodeUnit c || hasUnicode r)%bool.
Proof. reflexivity. Qed.

Lemma hasUnicodeUnit_false c :
  hasUnicodeUnit c = false ->
  isZWJ c = false /\ isAstral c = false /\ isCombo c = false /\ isVar c = false.
Proof.
  unfold hasUnicodeUnit. intros H.
  repeat (apply orb_false_elim in H; destruct H as [H ?]). auto.
Qed.

(** A string without any of the units of [reHasUnicode] starts with a
    one-unit match. *)
Lemma reUnicode_len_plain s :
  s <> [] -> hasUnicode s = false -> reUnicode_len s = 1.
Proof.
  intros N H. destruct s as [|c r]; [congruence|].
  rewrite hasUnicode_cons in H. apply orb_false_elim in H. destruct H as [Hc Hr].
  apply hasUnicodeUnit_false in Hc. destruct Hc as (_ & A & _ & _).
  unfold reUnicode_len.
  rewrite (not_true_false (rsFitz (c :: r) && _)%bool).
  2:{ intros X. apply andb_prop in X. destruct X as [X _].
      apply rsFitz_astral in X. congruence. }
  unfold rsSymbol_len. rewrite A. cbn [negb].
  destruct r as [|d r]; [reflexivity|].
  rewrite hasUnicode_cons in Hr. apply orb_false_elim in Hr. destruct Hr as [Hd _].
  apply hasUnicodeUnit_false in Hd. destruct Hd as (Z & A' & C & V).
  rewrite C. cbn [skipn]. unfold rsSeq_len.
  assert (F : rsFitz (d :: r) = false)
    by (apply not_true_false; intros X; apply rsFitz_astral in X; congruence).
  unfold rsOptVar_len. rewrite V. cbn [skipn].
  unfold reOptMod_len. rewrite C, F. cbn [skipn].
  simpl List.length. cbn [rsOptJoin_len]. rewrite Z. reflexivity.
Qed.

Lemma size_head r : r <> [] -> size (firstn (reUnicode_len r) r) = 1.
Proof.
  intros H. unfold size.
  destruct (hasUnicode (firstn (reUnicode_len r) r)) eqn:U.
  - now rewrite unicodeToArray_head.
  - rewrite length_firstn, Nat.min_l by apply reUnicode_len_le.
    rewrite <- reUnicode_len_alone.
    apply reUnicode_len_plain; [|exact U].
    pose proof (reUnicode_len_pos r H). pose proof (reUnicode_len_le r).
    destruct r; [congruence|]. destruct (reUnicode_len (n :: r)); [lia|discriminate].
Qed.

Lemma split_concat s : concat (split s) = s.
Proof.
  unfold split. destruct (hasUnicode s).
  - now apply unicodeToArray_from_concat.
  - unfold asciiToArray. induction s as [|c s IH]; [reflexivity|].
    simpl. now rewrite IH.
Qed.

Lemma split_size s p : In p (split s) -> size p = 1.
Proof.
  unfold split. destruct (hasUnicode s) eqn:U.
  - intros H. apply unicodeToArray_from_In in H. destruct H as (r & R & ->).
    now apply size_head.
  - unfold asciiToArray. rewrite in_map_iff. intros (c & <- & H).
    unfold size. rewrite hasUnicode_cons.
    destruct (hasUnicodeUnit c) eqn:E; [|reflexivity].
    assert (hasUnicode s = true) by (apply existsb_exists; now exists c).
    congruence.
Qed.

Lemma split_nonempty s p : In p (split s) -> p <> [].
Proof.
  intros H E. apply split_size in H. subst p. discriminate.
Qed.

Lemma size_pos s : s <> [] -> 1 <= size s.
Proof.
  intros H. unfold size. destruct (hasUnicode s); [|destruct s; [congruence|simpl; lia]].
  destruct s as [|c r]; [congruence|].
  unfold unicodeToArray. simpl. lia.
Qed.

Lemma split_length_pos s : s <> [] -> 1 <= List.length (split s).
Proof.
  intros H. destruct s as [|c r]; [congruence|].
  unfold split. destruct (hasUnicode (c :: r)); simpl; lia.
Qed.

End LodashFacts.

(* ================================================================= *)
(** ** Facts about plain objects *)

Section Objects.
Context {A : Type}.
Implicit Types (o : obj A) (k : string) (v : A).

Lemma obj_get_set_same k v o : obj_get k (obj_set k v o) = Some v.
Proof.
  induction o as [|[k' v'] o IH]; simpl.
  - now rewrite String.eqb_refl.
  - destruct (String.eqb k k') eqn:E; simpl.
    + now rewrite String.eqb_refl.
    + now rewrite E.
Qed.

Lemma obj_get_set_other k k' v o :
  k <> k' -> obj_get k' (obj_set k v o) = obj_get k' o.
Proof.
  intros N. induction o as [|[k0 v0] o IH]; simpl.
  - destruct (String.eqb k' k) eqn:E; [|reflexivity].
    apply String.eqb_eq in E. congruence.
  - destruct (String.eqb k k0) eqn:E; simpl.
    + apply String.eqb_eq in E. subst k0.
      destruct (String.eqb k' k) eqn:E'; [|reflexivity].
      apply String.eqb_eq in E'. congruence.
    + now rewrite IH.
Qed.

Lemma obj_get_In k v o : obj_get k o = Some v -> In (k, v) o.
Proof.
  induction o as [|[k' v'] o IH]; simpl; [discriminate|].
  destruct (String.eqb k k') eqn:E.
  - apply String.eqb_eq in E. intros [= ->]. left. now subst.
  - intros H. right. now apply IH.
Qed.

Lemma obj_set_In k v o kv :
  In kv (obj_set k v o) -> kv = (k, v) \/ In kv o.
Proof.
  induction o as [|[k' v'] o IH]; simpl.
  - intros [<-|[]]. now left.
  - destruct (String.eqb k k'); simpl.
    + intros [<-|H]; auto.
    + intros [<-|H]; auto. destruct (IH H); auto.
Qed.

Lemma obj_set_length k v o :
  List.length o <= List.length (obj_set k v o) <= S (List.length o).
Proof.
  induction o as [|[k' v'] o IH]; simpl; [lia|].
  destruct (String.eqb k k'); simpl; lia.
Qed.

(** A new key goes to the end. *)
Lemma obj_set_fresh k v o :
  ~ In k (map fst o) -> obj_set k v o = o ++ [(k, v)].
Proof.
  induction o as [|[k' v'] o IH]; simpl; [reflexivity|].
  intros N. destruct (String.eqb k k') eqn:E.
  - apply String.eqb_eq in E. exfalso. apply N. now left.
  - rewrite IH; [reflexivity|]. intros X. apply N. now right.
Qed.

Lemma obj_has_true k o : obj_has k o = true <-> exists v, obj_get k o = Some v.
Proof.
  unfold obj_has. destruct (obj_get k o) as [v|].
  - split; [now exists v|reflexivity].
  - split; [discriminate|now intros [v H]].
Qed.
End Objects.

(* ================================================================= *)
(** ** Facts about [_.sortBy], [reverse] and [take] *)

Section SortFacts.
Context {A K : Type}.
Variable gt : K -> K -> bool.
Variable key : A -> K.


Lemma insert_perm x l : Permutation (Collection.insert gt key x l) (x :: l).
Proof.
  induction l as [|y l IH]; simpl; [reflexivity|].
  destruct (gt (key x) (key y)); [|reflexivity].
  rewrite IH. apply perm_swap.
Qed.

Lemma sortBy_perm l : Permutation (Collection.sortBy gt key l) l.
Proof.
  induction l as [|x l IH]; simpl; [reflexivity|].
  rewrite insert_perm. now apply perm_skip.
Qed.

(** Stability: the elements of one class of ties keep their order,
    whenever two elements of the class are never strictly ordered. *)
Lemma insert_filter (p : A -> bool) x l :
  (forall y, p x = true -> p y = true -> gt (key x) (key y) = false) ->
  filter p (Collection.insert gt key x l) = filter p (x :: l).
Proof.
  intros T. induction l as [|y l IH]; [reflexivity|].
  simpl. destruct (gt (key x) (key y)) eqn:G; [|reflexivity].
  simpl. simpl in IH. rewrite IH.
  destruct (p x) eqn:Px; [|reflexivity].
  destruct (p y) eqn:Py; [|reflexivity].
  rewrite T in G by auto. discriminate.
Qed.

Lemma sortBy_filter (p : A -> bool) l :
  (forall x y, p x = true -> p y = true -> gt (key x) (key y) = false) ->
  filter p (Collection.sortBy gt key l) = filter p l.
Proof.
  intros T. induction l as [|x l IH]; [reflexivity|].
  simpl. rewrite insert_filter by (intros; now apply T).
  simpl. now rewrite IH.
Qed.

(** Order: on keys that [gt] orders totally, the result ascends. *)
Variable good : K -> Prop.
Hypothesis gt_asym : forall a b, good a -> good b -> gt a b = true -> gt b a = false.
Hypothesis ngt_trans :
  forall a b c, good a -> good b -> good c ->
                gt a b = false -> gt b c = false -> gt a c = false.

Lemma insert_sorted x l :
  good (key x) -> Forall (fun y => good (key y)) l ->
  StronglySorted (ascends gt key) l -> StronglySorted (ascends gt key) (Collection.insert gt key x l).
Proof.
  intros Gx Gl S. induction S as [|y l S IH F]; simpl.
  - constructor; constructor.
  - inversion Gl as [|? ? Gy Gl']; subst.
    destruct (gt (key x) (key y)) eqn:G.
    + constructor; [now apply IH|].
      rewrite Forall_forall. intros z Hz.
      apply (Permutation_in _ (insert_perm x l)) in Hz. destruct Hz as [<-|Hz].
      * now apply gt_asym.
      * rewrite Forall_forall in F. now apply F.
    + constructor; [constructor; assumption|].
      constructor; [exact G|].
      rewrite Forall_forall in F, Gl' |- *. intros z Hz.
      apply (ngt_trans _ (key y)); auto. now apply F.
Qed.

Lemma sortBy_sorted l :
  Forall (fun y => good (key y)) l -> StronglySorted (ascends gt key) (Collection.sortBy gt key l).
Proof.
  induction l as [|x l IH]; simpl; intros G; [constructor|].
  inversion G; subst. apply insert_sorted; auto.
  rewrite Forall_forall in *. intros y Hy.
  apply (Permutation_in _ (sortBy_perm l)) in Hy. auto.
Qed.
End SortFacts.

Lemma StronglySorted_snoc {A : Type} (R : A -> A -> Prop) l x :
  StronglySorted R l -> Forall (fun y => R y x) l -> StronglySorted R (l ++ [x]).
Proof.
  induction 1 as [|y l S IH F]; simpl; intros H.
  - constructor; constructor.
  - inversion H; subst. constructor; [now apply IH|].
    rewrite Forall_app. split; [exact F|]. now constructor.
Qed.

Lemma StronglySorted_rev {A : Type} (R : A -> A -> Prop) l :
  StronglySorted R l -> StronglySorted (fun x y => R y x) (rev l).
Proof.
  induction 1 as [|y l S IH F]; simpl; [constructor|].
  apply StronglySorted_snoc; [exact IH|].
  rewrite Forall_forall in *. intros z Hz. apply F. now apply in_rev.
Qed.

Lemma StronglySorted_firstn {A : Type} (R : A -> A -> Prop) n l :
  StronglySorted R l -> StronglySorted R (firstn n l).
Proof.
  intros S. revert n. induction S as [|y l S IH F]; intros [|n]; simpl;
    try constructor; auto.
  rewrite Forall_forall in *. intros z Hz. apply F.
  eapply (In_nth_error) in Hz. destruct Hz as [i Hi].
  rewrite nth_error_firstn in Hi. destruct (i <? n); [|discriminate].
  eapply nth_error_In, Hi.
Qed.

Lemma StronglySorted_weaken {A : Type} (R S : A -> A -> Prop) (P : A -> Prop) l :
  (forall x y, P x -> P y -> R x y -> S x y) ->
  Forall P l -> StronglySorted R l -> StronglySorted S l.
Proof.
  intros W F H. induction H as [|y l H IH FR]; [constructor|].
  inversion F as [|? ? Py Pl]; subst.
  constructor; [now apply IH|].
  rewrite Forall_forall in *. intros z Hz. apply W; auto.
Qed.

Lemma filter_firstn_prefix {A : Type} (p : A -> bool) n l :
  filter p (firstn n l) ++ filter p (skipn n l) = filter p l.
Proof. now rewrite <- filter_app, firstn_skipn. Qed.

Lemma filter_none {A : Type} (p : A -> bool) l :
  (forall x, In x l -> p x = false) -> filter p l = [].
Proof.
  induction l as [|x l IH]; [reflexivity|]. intros H.
  simpl. rewrite (H x (or_introl eq_refl)). apply IH.
  intros y Hy. apply H. now right.
Qed.

Lemma filter_all {A : Type} (p : A -> bool) l :
  (forall x, In x l -> p x = true) -> filter p l = l.
Proof.
  induction l as [|x l IH]; [reflexivity|]. intros H.
  simpl. rewrite (H x (or_introl eq_refl)). f_equal. apply IH.
  intros y Hy. apply H. now right.
Qed.

Lemma In_firstn {A : Type} n (l : list A) x : In x (firstn n l) -> In x l.
Proof.
  intros H. rewrite <- (firstn_skipn n l). apply in_or_app. now left.
Qed.

(* ================================================================= *)
(** ** Facts about substrings and variation selectors *)

Lemma jsstring_eqb_eq a b : jsstring_eqb a b = true <-> a = b.
Proof.
  unfold jsstring_eqb. destruct (list_eq_dec N.eq_dec a b); split; congruence.
Qed.

Lemma jsstring_eqb_refl a : jsstring_eqb a a = true.
Proof. now apply jsstring_eqb_eq. Qed.

Lemma starts_with_app p s : starts_with p (p ++ s) = true.
Proof.
  induction p as [|a p IH]; [now destruct s|].
  simpl. now rewrite N.eqb_refl, IH.
Qed.

Lemma index_of_found_app p a b : index_of_found p (a ++ p ++ b) = true.
Proof.
  induction a as [|x a IH]; simpl.
  - assert (U : forall s, starts_with p s = true -> index_of_found p s = true)
      by (intros [|? ?] H; simpl; rewrite H; reflexivity).
    apply U, starts_with_app.
  - rewrite IH. apply orb_true_r.
Qed.

Lemma stripVariationSelectors_app a b :
  stripVariationSelectors (a ++ b) =
  stripVariationSelectors a ++ stripVariationSelectors b.
Proof. apply filter_app. Qed.

Lemma stripVariationSelectors_concat l :
  concat (map stripVariationSelectors l) = stripVariationSelectors (concat l).
Proof.
  induction l as [|x l IH]; [reflexivity|].
  simpl. now rewrite stripVariationSelectors_app, IH.
Qed.

Lemma In_concat_split {A : Type} (p : list A) l :
  In p l -> exists a b, concat l = a ++ p ++ b.
Proof.
  induction l as [|x l IH]; [contradiction|].
  intros [->|H].
  - exists [], (concat l). reflexivity.
  - destruct (IH H) as (a & b & E). exists (x ++ a), b.
    simpl. now rewrite E, app_assoc.
Qed.

(** Every symbol of a sequence occurs in the sequence, with or without
    variation selectors. *)
Lemma split_includes emoji p :
  In p (Lodash.split emoji) ->
  Lodash.includes (stripVariationSelectors emoji) (stripVariationSelectors p) = true.
Proof.
  intros H. apply In_concat_split in H. destruct H as (a & b & E).
  rewrite LodashFacts.split_concat in E. rewrite E.
  rewrite !stripVariationSelectors_app. apply index_of_found_app.
Qed.

Lemma isAscii_false_nonempty s : isAscii s = false -> s <> [].
Proof. intros H ->. discriminate. Qed.

(* ================================================================= *)
(** ** Facts about [_.union] and the match list *)

Lemma uniq_In l x : In x (Lodash.uniq l) <-> In x l.
Proof.
  induction l as [|y l IH]; simpl; [reflexivity|].
  rewrite filter_In, IH.
  destruct (list_eq_dec N.eq_dec y x) as [->|N].
  - tauto.
  - assert (E : jsstring_eqb y x = false).
    { destruct (jsstring_eqb y x) eqn:E; [|reflexivity].
      apply jsstring_eqb_eq in E. congruence. }
    rewrite E. simpl. tauto.
Qed.

Lemma uniq_NoDup l : NoDup (Lodash.uniq l).
Proof.
  induction l as [|y l IH]; simpl; constructor.
  - rewrite filter_In. intros [_ H]. now rewrite jsstring_eqb_refl in H.
  - now apply NoDup_filter.
Qed.

Section Matches.
Variable emoji : jsstring.

Lemma match_subset_step ms total s :
  match_subset emoji (ms, total) s =
  if matched emoji s then (Lodash.union [s] ms, total + Lodash.size s)
  else (ms, total).
Proof. reflexivity. Qed.

Lemma match_subsets_fold subs ms total :
  let r := fold_left (match_subset emoji) subs (ms, total) in
  (forall x, In x (fst r) <-> In x ms \/ In x (filter (matched emoji) subs))
  /\ (NoDup ms -> NoDup (fst r))
  /\ snd r = total + list_sum (map Lodash.size (filter (matched emoji) subs)).
Proof.
  cbv zeta. revert ms total.
  induction subs as [|s subs IH]; intros ms total.
  - simpl. split; [intros x; tauto|split; [tauto|lia]].
  - cbn [fold_left filter]. rewrite match_subset_step.
    destruct (matched emoji s) eqn:M.
    + destruct (IH (Lodash.union [s] ms) (total + Lodash.size s)) as (I & D & T).
      split; [|split].
      * intros x. rewrite I. unfold Lodash.union. rewrite uniq_In.
        cbn [In app map list_sum]. tauto.
      * intros _. apply D, uniq_NoDup.
      * rewrite T. simpl. lia.
    + apply IH.
Qed.

Lemma match_subsets_In subs x :
  In x (fst (match_subsets subs emoji)) <-> In x (filter (matched emoji) subs).
Proof.
  destruct (match_subsets_fold subs [] 0) as (I & _ & _).
  unfold match_subsets. rewrite I. simpl. tauto.
Qed.

Lemma match_subsets_NoDup subs : NoDup (fst (match_subsets subs emoji)).
Proof.
  destruct (match_subsets_fold subs [] 0) as (_ & D & _).
  apply D. constructor.
Qed.

Lemma match_subsets_total subs :
  snd (match_subsets subs emoji) =
  list_sum (map Lodash.size (filter (matched emoji) subs)).
Proof.
  destruct (match_subsets_fold subs [] 0) as (_ & _ & T). exact T.
Qed.

(** The match list is never longer than the number of distinct subsets. *)
Lemma match_subsets_length subs :
  List.length (fst (match_subsets subs emoji)) <= List.length (Lodash.uniq subs).
Proof.
  apply NoDup_incl_length; [apply match_subsets_NoDup|].
  intros x H. apply match_subsets_In, filter_In in H. apply uniq_In. tauto.
Qed.

(** It reaches that number when every subset is found. *)
Lemma match_subsets_length_all subs :
  Forall (fun s => matched emoji s = true) subs ->
  List.length (fst (match_subsets subs emoji)) = List.length (Lodash.uniq subs).
Proof.
  intros F. apply Nat.le_antisymm; [apply match_subsets_length|].
  apply NoDup_incl_length; [apply uniq_NoDup|].
  intros x H. apply (proj1 (uniq_In _ _)) in H. apply match_subsets_In, filter_In.
  rewrite Forall_forall in F. split; [exact H|now apply F].
Qed.

Lemma match_subsets_total_le subs :
  snd (match_subsets subs emoji) <= subsetLengthSum subs.
Proof.
  rewrite match_subsets_total. unfold subsetLengthSum.
  induction subs as [|s subs IH]; simpl; [lia|].
  destruct (matched emoji s); simpl; lia.
Qed.

Lemma match_subsets_total_all subs :
  Forall (fun s => matched emoji s = true) subs ->
  snd (match_subsets subs emoji) = subsetLengthSum subs.
Proof.
  intros F. rewrite match_subsets_total. unfold subsetLengthSum.
  induction F as [|s subs M F IH]; simpl; [reflexivity|].
  rewrite M. simpl. now rewrite IH.
Qed.

(** When every subset has a positive size, a full sum means that every
    subset is found. *)
Lemma match_subsets_total_full subs :
  Forall (fun s => 1 <= Lodash.size s) subs ->
  snd (match_subsets subs emoji) = subsetLengthSum subs ->
  Forall (fun s => matched emoji s = true) subs.
Proof.
  rewrite match_subsets_total. unfold subsetLengthSum.
  induction 1 as [|s subs P F IH]; simpl; intros E; [constructor|].
  assert (L : list_sum (map Lodash.size (filter (matched emoji) subs))
              <= list_sum (map Lodash.size subs)).
  { clear. induction subs as [|s subs IH]; simpl; [lia|].
    destruct (matched emoji s); simpl; lia. }
  destruct (matched emoji s) eqn:M; simpl in E.
  - constructor; [exact M|]. apply IH. lia.
  - lia.
Qed.
End Matches.

(* ================================================================= *)
(** ** Facts about the subsets of a query *)

Lemma windows_In n w :
  In w (windows n) -> fst w < n /\ 1 <= snd w <= n - fst w.
Proof.
  unfold windows. rewrite in_flat_map. intros (start & Hs & Hw).
  rewrite in_map_iff in Hw. destruct Hw as (offset & <- & Ho).
  rewrite in_seq in Hs, Ho. simpl. lia.
Qed.

Lemma windows_nonempty n : 1 <= n -> windows n <> [].
Proof.
  intros H E.
  assert (I : In (0, 0 + 1) (windows n)).
  { unfold windows. apply in_flat_map. exists 0. split; [apply in_seq; lia|].
    apply in_map_iff. exists 0. split; [reflexivity|apply in_seq; lia]. }
  rewrite E in I. contradiction.
Qed.

Lemma concat_nonempty {A : Type} (l : list (list A)) :
  l <> [] -> Forall (fun p => p <> []) l -> concat l <> [].
Proof.
  destruct l as [|p l]; [congruence|]. intros _ F. inversion F; subst.
  simpl. destruct p; [congruence|discriminate].
Qed.

Lemma slice_window {A : Type} (l : list A) w :
  fst w < List.length l -> 1 <= snd w ->
  Collection.slice (fst w) (fst w + snd w) l <> [].
Proof.
  intros H1 H2. unfold Collection.slice.
  replace (fst w + snd w - fst w) with (snd w) by lia.
  intros E. apply (f_equal (@List.length A)) in E.
  rewrite length_firstn, length_skipn in E. simpl in E. lia.
Qed.

Lemma slice_incl {A : Type} (l : list A) a b x :
  In x (Collection.slice a b l) -> In x l.
Proof.
  unfold Collection.slice. intros H.
  apply (In_nth_error) in H. destruct H as [i Hi].
  rewrite nth_error_firstn in Hi. destruct (i <? b - a); [|discriminate].
  rewrite nth_error_skipn in Hi. eapply nth_error_In, Hi.
Qed.

(** Whatever [persistOrder] is, no subset is the empty string. *)
Lemma subsets_nonempty persistOrder query s :
  In s (subsets persistOrder query) -> s <> [].
Proof.
  unfold subsets. destruct persistOrder.
  - intros H. apply (Permutation_in _ (sortBy_perm _ _ _)) in H.
    rewrite in_map_iff in H. destruct H as (w & <- & Hw).
    apply windows_In in Hw. unfold Lodash.join.
    apply concat_nonempty.
    + unfold jsstring in *. apply slice_window; lia.
    + rewrite Forall_forall. intros p Hp. apply slice_incl in Hp.
      now apply LodashFacts.split_nonempty in Hp.
  - apply LodashFacts.split_nonempty.
Qed.

Lemma subsets_size_pos persistOrder query :
  Forall (fun s => 1 <= Lodash.size s) (subsets persistOrder query).
Proof.
  rewrite Forall_forall. intros s H.
  apply LodashFacts.size_pos. eapply subsets_nonempty, H.
Qed.

Lemma subsets_exist persistOrder query :
  query <> [] -> subsets persistOrder query <> [].
Proof.
  intros H. apply LodashFacts.split_length_pos in H.
  unfold subsets. destruct persistOrder.
  - intros E. apply (f_equal (@List.length jsstring)) in E.
    rewrite (Permutation_length (sortBy_perm _ _ _)), length_map in E.
    pose proof (windows_nonempty _ H) as W.
    destruct (windows (List.length (Lodash.split query))); [congruence|discriminate].
  - destruct (Lodash.split query); [simpl in H; lia|discriminate].
Qed.

(** The divisor of line 190 is at least 1 whenever the block runs. *)
Lemma subsetLengthSum_pos persistOrder query :
  isAscii query = false -> 1 <= subsetLengthSum (subsets persistOrder query).
Proof.
  intros H. apply isAscii_false_nonempty in H.
  pose proof (subsets_exist persistOrder query H) as E.
  pose proof (subsets_size_pos persistOrder query) as P.
  unfold subsetLengthSum.
  destruct (subsets persistOrder query) as [|s l]; [congruence|].
  inversion P; subst. simpl. lia.
Qed.

(* ================================================================= *)
(** ** Facts about the numbers *)

Lemma Q_of_nat_eq a b : (Q_of_nat a == Q_of_nat b)%Q <-> a = b.
Proof.
  unfold Q_of_nat. rewrite inject_Z_injective. lia.
Qed.

Lemma Q_of_nat_le a b : (Q_of_nat a <= Q_of_nat b)%Q <-> a <= b.
Proof.
  unfold Q_of_nat. rewrite <- Zle_Qle. lia.
Qed.

Lemma num_div_nat a b :
  b <> 0 -> num_div (Q_of_nat a) (Q_of_nat b) = Num (Q_of_nat a / Q_of_nat b).
Proof.
  intros H. unfold num_div.
  destruct (Qeq_bool (Q_of_nat b) 0) eqn:E; [|reflexivity].
  apply Qeq_bool_iff in E. change 0%Q with (Q_of_nat 0) in E.
  apply Q_of_nat_eq in E. congruence.
Qed.

Lemma num_div_nat_zero a : num_div (Q_of_nat a) (Q_of_nat 0) <> Num 1 /\
  js_strict_eq (num_div (Q_of_nat a) (Q_of_nat 0)) (Num 1) = false.
Proof.
  unfold num_div. change (Qeq_bool (Q_of_nat 0) 0) with true. cbv iota.
  destruct (Q_of_nat a ?= 0)%Q; split; (discriminate || reflexivity).
Qed.

Lemma Qdiv_nat_one a b :
  b <> 0 -> (Q_of_nat a / Q_of_nat b == 1)%Q <-> a = b.
Proof.
  intros H.
  assert (N : ~ (Q_of_nat b == 0)%Q).
  { change 0%Q with (Q_of_nat 0). rewrite Q_of_nat_eq. exact H. }
  rewrite <- Q_of_nat_eq. split; intros E.
  - rewrite <- (Qmult_div_r (Q_of_nat a) (Q_of_nat b) N), E. ring.
  - rewrite E. now apply Qmult_inv_r.
Qed.

(** [measure2 === 1] says that the sum of matched sizes is the whole
    sum. *)
Lemma perfect_iff a b :
  js_strict_eq (num_div (Q_of_nat a) (Q_of_nat b)) (Num 1) = true
  <-> a = b /\ b <> 0.
Proof.
  destruct (Nat.eq_dec b 0) as [->|N].
  - destruct (num_div_nat_zero a) as [_ E]. rewrite E. split; [discriminate|tauto].
  - rewrite num_div_nat by exact N. simpl.
    rewrite Qeq_bool_iff, Qdiv_nat_one by exact N. tauto.
Qed.

Lemma Qdiv_nat_le_one a b :
  b <> 0 -> a <= b -> (Q_of_nat a / Q_of_nat b <= 1)%Q.
Proof.
  intros N L.
  assert (P : (0 < Q_of_nat b)%Q).
  { change 0%Q with (Q_of_nat 0). unfold Q_of_nat. rewrite <- Zlt_Qlt. lia. }
  apply Qle_shift_div_r; [exact P|].
  rewrite Qmult_1_l. now apply Q_of_nat_le.
Qed.

(* ================================================================= *)
(** ** Facts about [_.max] *)

Lemma max_nat_In l x :
  In x l -> (forall y, In y l -> y <= x) -> Collection.max_nat l = Some x.
Proof.
  destruct l as [|a l]; [contradiction|]. simpl. intros Hx Hy.
  f_equal.
  assert (G : forall l0 a0, a0 <= x -> (forall y, In y l0 -> y <= x) ->
               (a0 = x \/ In x l0) -> fold_left Nat.max l0 a0 = x).
  { clear. induction l0 as [|b l0 IH]; simpl; intros a0 La Ll Hx.
    - destruct Hx as [H|[]]. exact H.
    - apply IH.
      + specialize (Ll b (or_introl eq_refl)). lia.
      + intros y Hy. apply Ll. now right.
      + destruct Hx as [->|[->|H]].
        * left. specialize (Ll b (or_introl eq_refl)). lia.
        * left. lia.
        * now right. }
  apply G.
  - apply Hy. now left.
  - intros y H. apply Hy. now right.
  - destruct Hx; auto.
Qed.

Lemma js_gt_num_false a b :
  is_num a -> is_num b ->
  (js_gt a b = false <-> exists x y, a = Num x /\ b = Num y /\ (x <= y)%Q).
Proof.
  intros [x ->] [y ->]. simpl. rewrite negb_false_iff, Qle_bool_iff. split.
  - intros H. now exists x, y.
  - intros (x' & y' & [= <-] & [= <-] & H). exact H.
Qed.

Lemma js_gt_num_true a b :
  is_num a -> is_num b ->
  (js_gt a b = true <-> exists x y, a = Num x /\ b = Num y /\ (y < x)%Q).
Proof.
  intros [x ->] [y ->]. simpl. rewrite negb_true_iff. split.
  - intros H. exists x, y. repeat split. apply Qnot_le_lt. intros L.
    apply Qle_bool_iff in L. congruence.
  - intros (x' & y' & [= <-] & [= <-] & H).
    destruct (Qle_bool x y) eqn:E; [|reflexivity].
    apply Qle_bool_iff in E. exfalso. eapply Qlt_not_le; eauto.
Qed.

Lemma js_gt_asym a b :
  is_num a -> is_num b -> js_gt a b = true -> js_gt b a = false.
Proof.
  intros Ha Hb H. apply (js_gt_num_true a b Ha Hb) in H.
  destruct H as (x & y & -> & -> & L).
  apply js_gt_num_false; auto. exists y, x. repeat split. now apply Qlt_le_weak.
Qed.

Lemma js_ngt_trans a b c :
  is_num a -> is_num b -> is_num c ->
  js_gt a b = false -> js_gt b c = false -> js_gt a c = false.
Proof.
  intros Ha Hb Hc H1 H2.
  apply (js_gt_num_false a b Ha Hb) in H1. destruct H1 as (x & y & -> & -> & L1).
  apply (js_gt_num_false _ c Hb Hc) in H2. destruct H2 as (y' & z & [= <-] & -> & L2).
  apply js_gt_num_false; auto. exists x, z. repeat split. eapply Qle_trans; eauto.
Qed.

Lemma js_ngt_refl a : is_num a -> js_gt a a = false.
Proof.
  intros H. apply js_gt_num_false; auto. destruct H as [x ->].
  exists x, x. repeat split. apply Qle_refl.
Qed.

Lemma max_step_inv seen acc x :
  Forall is_num seen -> is_num x ->
  match acc with
  | Some m => is_num m /\ In m seen /\ forall y, In y seen -> js_gt y m = false
  | None => seen = []
  end ->
  match Collection.max_step acc x with
  | Some m => is_num m /\ In m (seen ++ [x])
              /\ forall y, In y (seen ++ [x]) -> js_gt y m = false
  | None => False
  end.
Proof.
  intros Fs Hx Inv. destruct acc as [m|].
  - destruct Inv as (Hm & Im & Lm). simpl.
    destruct (js_gt x m) eqn:G.
    + split; [exact Hx|]. split; [apply in_or_app; right; now left|].
      intros y Hy. apply in_app_or in Hy. destruct Hy as [Hy|[<-|[]]].
      * rewrite Forall_forall in Fs.
        apply (js_ngt_trans y m x); auto. now apply js_gt_asym.
      * now apply js_ngt_refl.
    + split; [exact Hm|]. split; [apply in_or_app; now left|].
      intros y Hy. apply in_app_or in Hy. destruct Hy as [Hy|[<-|[]]]; auto.
  - subst seen. destruct Hx as [q ->]. simpl.
    split; [now exists q|]. split; [now left|].
    intros y [<-|[]]. apply js_ngt_refl. now exists q.
Qed.

(** On numbers that are not NaN, [_.max] returns an element that no
    other element exceeds. *)
Lemma max_num_spec l :
  Forall is_num l -> l <> [] ->
  exists m, Collection.max_num l = Some m /\ In m l
            /\ forall y, In y l -> js_gt y m = false.
Proof.
  intros F N. unfold Collection.max_num.
  assert (G : forall rest seen acc,
    Forall is_num seen -> Forall is_num rest ->
    match acc with
    | Some m => is_num m /\ In m seen /\ forall y, In y seen -> js_gt y m = false
    | None => seen = []
    end ->
    match fold_left Collection.max_step rest acc with
    | Some m => is_num m /\ In m (seen ++ rest)
                /\ forall y, In y (seen ++ rest) -> js_gt y m = false
    | None => seen ++ rest = []
    end).
  { induction rest as [|x rest IH]; intros seen acc Fs Fr Inv.
    - simpl. rewrite app_nil_r. exact Inv.
    - inversion Fr; subst. simpl.
      pose proof (max_step_inv seen acc x Fs H1 Inv) as S.
      destruct (Collection.max_step acc x) as [m|] eqn:E; [|contradiction].
      specialize (IH (seen ++ [x]) (Some m)).
      rewrite <- app_assoc in IH. simpl in IH. apply IH; auto.
      apply Forall_app. split; auto. }
  specialize (G l [] None (Forall_nil _) F eq_refl). simpl in G.
  destruct (fold_left Collection.max_step l None) as [m|]; [|congruence].
  exists m. tauto.
Qed.

(* ================================================================= *)
(** ** Facts about the scoring loop *)

Section Scoring.
Variable tfidf_measure : list tfdoc -> jsstring -> nat -> Q.
Variable convertEmojiToKeywords : jsstring -> list jsstring.
Variable st : index.
Variable kws : jsstring.

Let callback := tfidfs_callback tfidf_measure st kws.

(** What the callback stores under a key is read from [meta] and
    [emojis] at that key. *)
Let stored (kr : string * raw_term) : Prop :=
  r_meta (snd kr) = meta_of st (fst kr)
  /\ r_emoji (snd kr) = obj_get (fst kr) (emojis st)
  /\ In (fst kr) (map doc_key (tfidf st)).

Lemma tfidfs_fold ids acc :
  (forall id, In id ids -> In (snd id) (tfidf st)) ->
  Forall stored (fst acc) ->
  let r := fold_left callback ids acc in
  Forall stored (fst r)
  /\ (forall k, obj_has k (fst acc) = true -> obj_has k (fst r) = true)
  /\ (forall id, In id ids -> obj_has (doc_key (snd id)) (fst r) = true)
  /\ List.length (fst r) <= List.length (fst acc) + List.length ids.
Proof.
  cbv zeta. revert acc. induction ids as [|id ids IH]; intros acc Hin F.
  - simpl. split; [exact F|]. split; [auto|]. split; [intros ? []|unfold obj; lia].
  - cbn [fold_left].
    assert (F' : Forall stored (fst (callback acc id))).
    { unfold callback, tfidfs_callback. cbn [fst].
      rewrite Forall_forall in F |- *. intros kr H.
      apply obj_set_In in H. destruct H as [->|H]; [|now apply F].
      unfold stored. cbn [fst snd r_meta r_emoji]. repeat split.
      apply in_map, Hin. now left. }
    destruct (IH (callback acc id)) as (A & B & C & D).
    { intros id' H. apply Hin. now right. }
    { exact F'. }
    assert (S : forall k, obj_has k (fst acc) = true ->
                          obj_has k (fst (callback acc id)) = true).
    { intros k H. unfold callback, tfidfs_callback. cbn [fst].
      destruct (String.eqb_spec (doc_key (snd id)) k) as [<-|N].
      - unfold obj_has. now rewrite obj_get_set_same.
      - unfold obj_has. now rewrite obj_get_set_other. }
    split; [exact A|]. split; [|split].
    + intros k H. apply B, S, H.
    + intros id' [<-|H]; [|now apply C].
      apply B. unfold callback, tfidfs_callback. cbn [fst].
      unfold obj_has. now rewrite obj_get_set_same.
    + unfold callback, tfidfs_callback in D |- *. cbn [fst] in D.
      pose proof (obj_set_length (doc_key (snd id))
        {| r_meta := meta_of st (doc_key (snd id));
           r_measure1 := tfidf_measure (tfidf st) kws (fst id);
           r_emoji := obj_get (doc_key (snd id)) (emojis st) |} (fst acc)) as L.
      cbn [List.length]. unfold obj in *. lia.
Qed.

Lemma combine_seq_In {A : Type} (l : list A) s d :
  In d l -> exists i, In (i, d) (combine (seq s (List.length l)) l).
Proof.
  revert s. induction l as [|x l IH]; intros s; [contradiction|].
  intros [->|H].
  - exists s. now left.
  - destruct (IH (S s) H) as [i Hi]. exists i. now right.
Qed.

Lemma tfidfs_stored kr :
  In kr (fst (tfidfs tfidf_measure st kws)) -> stored kr.
Proof.
  intros H. unfold tfidfs in H.
  destruct (tfidfs_fold (combine (seq 0 (List.length (tfidf st))) (tfidf st)) ([], 0%Q))
    as (A & _).
  - intros id Hid. destruct id as [i d]. now apply in_combine_r in Hid.
  - constructor.
  - rewrite Forall_forall in A. now apply A.
Qed.

Lemma tfidfs_has d :
  In d (tfidf st) ->
  exists r, In (doc_key d, r) (fst (tfidfs tfidf_measure st kws)).
Proof.
  intros H. unfold tfidfs.
  destruct (tfidfs_fold (combine (seq 0 (List.length (tfidf st))) (tfidf st)) ([], 0%Q))
    as (_ & _ & C & _).
  - intros id Hid. destruct id as [i d']. now apply in_combine_r in Hid.
  - constructor.
  - destruct (combine_seq_In (tfidf st) 0 d H) as [i Hi].
    specialize (C _ Hi). cbn [snd] in C.
    apply obj_has_true in C. destruct C as [r Hr].
    exists r. now apply obj_get_In.
Qed.

Lemma tfidfs_length :
  List.length (fst (tfidfs tfidf_measure st kws)) <= List.length (tfidf st).
Proof.
  unfold tfidfs.
  destruct (tfidfs_fold (combine (seq 0 (List.length (tfidf st))) (tfidf st)) ([], 0%Q))
    as (_ & _ & _ & D).
  - intros id Hid. destruct id as [i d']. now apply in_combine_r in Hid.
  - constructor.
  - cbn [fst List.length] in D. rewrite length_combine, length_seq, Nat.min_id in D.
    exact D.
Qed.
End Scoring.

Section Scored.
Variable tfidf_measure : list tfdoc -> jsstring -> nat -> Q.
Variable convertEmojiToKeywords : jsstring -> list jsstring.
Variable st : index.
Variable query : jsstring.

Let terms := scored tfidf_measure convertEmojiToKeywords st query.

(** Every terms term belongs to a key of the index. *)
Lemma scored_In t :
  In t terms ->
  exists k, In k (map doc_key (tfidf st))
            /\ t_emoji t = obj_get k (emojis st)
            /\ t_meta t = meta_of st k
            /\ t_measure2 t = None /\ t_matches t = None.
Proof.
  unfold terms, scored. rewrite in_map_iff.
  intros ([k r] & <- & H). apply tfidfs_stored in H.
  destruct H as (M & E & K). exists k. cbn [fst snd] in *. auto.
Qed.

(** Every document of the index has a terms term. *)
Lemma scored_has d :
  In d (tfidf st) ->
  exists t, In t terms
            /\ t_emoji t = obj_get (doc_key d) (emojis st)
            /\ t_meta t = meta_of st (doc_key d).
Proof.
  intros H.
  destruct (tfidfs_has tfidf_measure st
              (keywords_of_query convertEmojiToKeywords query) d H) as [r Hr].
  pose proof (tfidfs_stored _ _ _ _ Hr) as (M & E & _). cbn [fst snd] in *.
  exists (normalise (snd (tfidfs tfidf_measure st
            (keywords_of_query convertEmojiToKeywords query))) r).
  split; [|split; assumption].
  unfold terms, scored. apply in_map_iff.
  exists (doc_key d, r). split; [reflexivity|exact Hr].
Qed.

Lemma scored_length : List.length terms <= List.length (tfidf st).
Proof.
  unfold terms, scored. rewrite length_map. apply tfidfs_length.
Qed.

Lemma scored_consistent :
  consistent st -> Forall (fun t => t_emoji t <> None) terms.
Proof.
  intros C. rewrite Forall_forall. intros t H.
  apply scored_In in H. destruct H as (k & K & E & _).
  rewrite in_map_iff in K. destruct K as (d & <- & D).
  specialize (C d D). apply obj_has_true in C. destruct C as [e He].
  rewrite E, He. discriminate.
Qed.
End Scored.

(* ================================================================= *)
(** ** Facts about the n-gram block *)

Lemma each_ngram_Some subs l :
  Forall (fun t => t_emoji t <> None) l ->
  each_ngram subs l = Some (map (ngram_of subs) l).
Proof.
  induction 1 as [|t l H F IH]; [reflexivity|].
  cbn [each_ngram map]. rewrite IH. unfold ngram_term, ngram_of.
  destruct (t_emoji t) eqn:E; [reflexivity|congruence].
Qed.

Lemma each_ngram_inv subs l r :
  each_ngram subs l = Some r ->
  r = map (ngram_of subs) l /\ Forall (fun t => ngram_shape subs (ngram_of subs t)) l.
Proof.
  revert r. induction l as [|t l IH]; intros r; cbn [each_ngram map].
  - intros [= <-]. split; [reflexivity|constructor].
  - unfold ngram_term at 1.
    destruct (t_emoji t) as [emoji|] eqn:E; [|discriminate].
    destruct (each_ngram subs l) as [r'|]; [|discriminate].
    intros [= <-]. destruct (IH r' eq_refl) as [-> F].
    split.
    + cbn [map]. f_equal. unfold ngram_of. now rewrite E.
    + constructor; [|exact F].
      unfold ngram_of. rewrite E. exists emoji. split; reflexivity.
Qed.

(* ================================================================= *)
(** ** Facts about the candidates of a search *)

Lemma js_or0_zero : js_or0 (Num 0) = Num 0.
Proof. reflexivity. Qed.

Lemma geo_filter_None isPointInside isPointInCircle l :
  geo_filter isPointInside isPointInCircle None l = l.
Proof.
  unfold geo_filter. simpl.
  assert (T : forall l0 : list term, filter (fun _ => true) l0 = l0).
  { induction l0 as [|x l0 IH]; simpl; congruence. }
  now rewrite !T.
Qed.

Lemma combined_In e l :
  In e (combined l) <->
  exists t, In t l /\ e = combine_measure t /\ js_truthy (e_measure e) = true.
Proof.
  unfold combined. rewrite filter_In, in_map_iff. split.
  - intros [(t & <- & H) T]. now exists t.
  - intros (t & H & -> & T). split; [now exists t|exact T].
Qed.

Lemma combined_length l : List.length (combined l) <= List.length l.
Proof.
  unfold combined. rewrite <- (length_map combine_measure l).
  apply filter_length_le.
Qed.

(** The measure of a term that went through the n-gram block, with
    [measure1] set to 0: a rational not above 1, and 1 on a perfect
    match. *)
Lemma shape_measure subs t :
  1 <= subsetLengthSum subs ->
  ngram_shape subs t -> t_measure1 t = Num 0 ->
  exists x, e_measure (combine_measure t) = Num x /\ (x <= 1)%Q
            /\ (perfect t = true -> (x == 1)%Q).
Proof.
  intros P (emoji & M2 & _) M1.
  unfold combine_measure, measure2_or0, perfect. cbn [e_measure].
  rewrite M1, M2, js_or0_zero. unfold measure2_of.
  rewrite num_div_nat by lia.
  set (q := (Q_of_nat (snd (match_subsets subs emoji))
             / Q_of_nat (subsetLengthSum subs))%Q).
  assert (L : (q <= 1)%Q).
  { apply Qdiv_nat_le_one; [lia|apply match_subsets_total_le]. }
  unfold js_or0, js_truthy. destruct (Qeq_bool q 0) eqn:Z; cbn [negb js_add].
  - exists (0 + 0)%Q. split; [reflexivity|]. split; [discriminate|].
    cbn [js_strict_eq]. intros E. apply Qeq_bool_iff in E, Z.
    rewrite Z in E. discriminate.
  - exists (0 + q)%Q. split; [reflexivity|]. rewrite Qplus_0_l.
    split; [exact L|]. cbn [js_strict_eq]. intros E. now apply Qeq_bool_iff.
Qed.

(** A perfect match has found every subset, so its match list is as long
    as a match list can be. *)
Lemma shape_perfect_matches subs t :
  Forall (fun s => 1 <= Lodash.size s) subs ->
  ngram_shape subs t -> perfect t = true ->
  exists ms, t_matches t = Some ms
             /\ List.length ms = List.length (Lodash.uniq subs).
Proof.
  intros P (emoji & M2 & Ms) E.
  exists (fst (match_subsets subs emoji)). split; [exact Ms|].
  unfold perfect in E. rewrite M2 in E. unfold measure2_of in E.
  apply perfect_iff in E. destruct E as [E _].
  apply match_subsets_length_all. now apply match_subsets_total_full.
Qed.

Lemma shape_matches subs t :
  ngram_shape subs t ->
  exists ms, t_matches t = Some ms
             /\ List.length ms <= List.length (Lodash.uniq subs).
Proof.
  intros (emoji & _ & Ms).
  exists (fst (match_subsets subs emoji)). split; [exact Ms|].
  apply match_subsets_length.
Qed.

Section Candidates.
Variable tfidf_measure : list tfdoc -> jsstring -> nat -> Q.
Variable convertEmojiToKeywords : jsstring -> list jsstring.
Variable isPointInside : json -> list (jsnum * jsnum) -> bool.
Variable isPointInCircle : json -> obj json -> jsnum -> bool.
Variable st : index.
Variable query : jsstring.
Variable opts : options.

Let cands :=
  candidates tfidf_measure convertEmojiToKeywords isPointInside
             isPointInCircle st query opts.
Let terms := scored tfidf_measure convertEmojiToKeywords st query.
Let subs := subsets (persistOrder opts) query.

(** The cands come from the terms that left the n-gram block. *)
Lemma candidates_In c e :
  cands = Some c -> In e c ->
  exists r t, ngram_block (persistOrder opts) query terms = Some r
    /\ In t r
    /\ e_term e = (if enableFuzzySearch opts then t else set_measure1 (Num 0) t)
    /\ e = combine_measure (e_term e)
    /\ js_truthy (e_measure e) = true.
Proof.
  unfold cands, candidates. fold terms.
  destruct (ngram_block (persistOrder opts) query terms) as [r|]; [|discriminate].
  intros [= <-] H. apply combined_In in H. destruct H as (t' & Ht' & -> & T).
  unfold zero_measure1 in Ht'. exists r.
  destruct (enableFuzzySearch opts); cbn [negb] in Ht'.
  - exists t'. unfold geo_filter in Ht'. rewrite !filter_In in Ht'.
    repeat split; tauto.
  - rewrite in_map_iff in Ht'. destruct Ht' as (t & <- & Ht). exists t.
    unfold geo_filter in Ht. rewrite !filter_In in Ht.
    repeat split; tauto.
Qed.

Lemma candidates_length c :
  cands = Some c -> List.length c <= List.length (tfidf st).
Proof.
  unfold cands, candidates. fold terms.
  destruct (ngram_block (persistOrder opts) query terms) as [r|] eqn:N; [|discriminate].
  intros [= <-].
  etransitivity; [apply combined_length|].
  assert (L : List.length r = List.length terms).
  { unfold ngram_block in N. destruct (negb (isAscii query)).
    - apply each_ngram_inv in N. destruct N as [-> _]. apply length_map.
    - now injection N as <-. }
  assert (Z : forall l, List.length (zero_measure1 (enableFuzzySearch opts) l)
                        = List.length l).
  { intros l. unfold zero_measure1.
    destruct (negb (enableFuzzySearch opts)); [apply length_map|reflexivity]. }
  rewrite Z. unfold geo_filter.
  etransitivity; [apply filter_length_le|].
  etransitivity; [apply filter_length_le|].
  rewrite L. apply scored_length.
Qed.

(** For a plain query no candidate has a [measure2]. *)
Lemma candidates_ascii c e :
  isAscii query = true -> cands = Some c -> In e c ->
  t_measure2 (e_term e) = None.
Proof.
  intros A C H. destruct (candidates_In c e C H) as (r & t & N & Ht & E & _).
  unfold ngram_block in N. rewrite A in N. cbn [negb] in N. injection N as <-.
  apply scored_In in Ht. destruct Ht as (k & _ & _ & _ & M2 & _).
  rewrite E. destruct (enableFuzzySearch opts); exact M2.
Qed.

(** For an emoji query every candidate went through the n-gram block. *)
Lemma candidates_shape c e :
  isAscii query = false -> cands = Some c -> In e c ->
  ngram_shape subs (e_term e).
Proof.
  intros A C H. destruct (candidates_In c e C H) as (r & t & N & Ht & E & _).
  unfold ngram_block in N. rewrite A in N. cbn [negb] in N.
  apply each_ngram_inv in N. destruct N as [-> F].
  rewrite in_map_iff in Ht. destruct Ht as (t0 & <- & Ht0).
  rewrite Forall_forall in F. specialize (F t0 Ht0).
  rewrite E. destruct (enableFuzzySearch opts); exact F.
Qed.

Lemma candidates_zero c e :
  enableFuzzySearch opts = false -> cands = Some c -> In e c ->
  t_measure1 (e_term e) = Num 0.
Proof.
  intros Z C H. destruct (candidates_In c e C H) as (r & t & _ & _ & E & _).
  rewrite E, Z. reflexivity.
Qed.

(** A perfect match passes [filterSmallMatch]. *)
Lemma perfect_passes_small_match c e b :
  cands = Some c -> In e c -> perfect (e_term e) = true ->
  filterSmallMatch b (Collection.max_nat (map matches_size c)) e = true.
Proof.
  intros C H P. unfold filterSmallMatch. destruct b; [|reflexivity].
  destruct (isAscii query) eqn:A.
  { unfold perfect in P. rewrite (candidates_ascii c e A C H) in P. discriminate. }
  destruct (shape_perfect_matches subs (e_term e)) as (ms & Ms & L); auto.
  { apply subsets_size_pos. }
  { now apply candidates_shape with (c := c). }
  rewrite (max_nat_In _ (matches_size e)).
  - apply Nat.eqb_refl.
  - now apply in_map.
  - intros y Hy. rewrite in_map_iff in Hy. destruct Hy as (e' & <- & He').
    destruct (shape_matches subs (e_term e')) as (ms' & Ms' & L').
    { now apply candidates_shape with (c := c). }
    unfold matches_size. rewrite Ms, Ms'. lia.
Qed.

(** Without [measure1], a perfect match passes [filterSmallScore]. *)
Lemma perfect_passes_small_score c e b :
  enableFuzzySearch opts = false ->
  cands = Some c -> In e c -> perfect (e_term e) = true ->
  filterSmallScore b (Collection.max_num (map e_measure c)) e = true.
Proof.
  intros Z C H P. unfold filterSmallScore. destruct b; [|reflexivity].
  destruct (isAscii query) eqn:A.
  { unfold perfect in P. rewrite (candidates_ascii c e A C H) in P. discriminate. }
  assert (M : forall e', In e' c ->
    exists x, e_measure e' = Num x /\ (x <= 1)%Q
              /\ (perfect (e_term e') = true -> (x == 1)%Q)).
  { intros e' He'.
    destruct (candidates_In c e' C He') as (_ & _ & _ & _ & _ & E & _).
    destruct (shape_measure subs (e_term e')) as (x & X).
    - now apply subsetLengthSum_pos.
    - now apply candidates_shape with (c := c).
    - now apply candidates_zero with (c := c).
    - exists x. rewrite E. exact X. }
  destruct (max_num_spec (map e_measure c)) as (m & Hm & Im & Gm).
  { rewrite Forall_forall. intros y Hy. rewrite in_map_iff in Hy.
    destruct Hy as (e' & <- & He'). destruct (M e' He') as (x & -> & _).
    now exists x. }
  { destruct c; [contradiction|discriminate]. }
  rewrite Hm. rewrite in_map_iff in Im. destruct Im as (em & <- & Iem).
  destruct (M em Iem) as (xm & Em & Lm & _).
  destruct (M e H) as (x & Ex & _ & Px). specialize (Px P).
  specialize (Gm (e_measure e) (in_map _ _ _ H)).
  rewrite Ex, Em in Gm |- *. cbn [js_gt] in Gm. cbn [js_strict_eq].
  apply negb_false_iff, Qle_bool_iff in Gm.
  apply Qeq_bool_iff. apply Qle_antisym; [exact Gm|].
  rewrite Px. exact Lm.
Qed.
End Candidates.

(* ================================================================= *)
(** ** The geo filters *)

(** C9.  A term whose [meta] has no [geolocation] passes both geo
    filters whatever the geofence is, bounding box or circle, so
    [geo_filter] keeps it; and without a geofence [geo_filter] returns
    its argument unchanged. *)
Theorem geo_filter_keeps_unlocated
    (isPointInside : json -> list (jsnum * jsnum) -> bool)
    (isPointInCircle : json -> obj json -> jsnum -> bool)
    (geofence : option (obj json)) (l : list term) (item : term) :
  has_geolocation item = false ->
  filterIsPointInside isPointInside geofence item = true
  /\ filterIsPointInCircle isPointInCircle geofence item = true
  /\ (In item l -> In item (geo_filter isPointInside isPointInCircle geofence l))
  /\ geo_filter isPointInside isPointInCircle None l = l.
Proof.
  intros H. unfold has_geolocation in H.
  assert (A : filterIsPointInside isPointInside geofence item = true).
  { unfold filterIsPointInside. destruct geofence as [g|]; [|reflexivity].
    destruct (negb (obj_has "radius" g)); [|reflexivity].
    destruct (geolocation_of item); [discriminate|reflexivity]. }
  assert (B : filterIsPointInCircle isPointInCircle geofence item = true).
  { unfold filterIsPointInCircle. destruct geofence as [g|]; [|reflexivity].
    destruct (obj_has "radius" g); [|reflexivity].
    destruct (geolocation_of item); [discriminate|reflexivity]. }
  repeat split; auto.
  - intros I. unfold geo_filter. rewrite !filter_In. auto.
  - apply geo_filter_None.
Qed.

(** A term without [meta] at all, a box around the origin and geolib
    answering "outside" for every point. *)
Lemma geo_filter_keeps_unlocated_witness :
  let item := {| t_meta := None; t_measure1 := Num 0; t_emoji := Some Samples.grinning;
                 t_measure2 := None; t_matches := None |} in
  let box := [("latitude"%string, JNum 0); ("longitude"%string, JNum 0);
              ("latitudeDelta"%string, JNum 1); ("longitudeDelta"%string, JNum 1)] in
  has_geolocation item = false
  /\ In item (geo_filter Samples.outside Samples.outside_circle (Some box) [item]).
Proof.
  cbv zeta. split; [reflexivity|].
  apply (geo_filter_keeps_unlocated Samples.outside Samples.outside_circle);
    [reflexivity|now left].
Defined.

(* ================================================================= *)
(** ** Plain queries *)

Section PlainQueries.
Variable tfidf_measure : list tfdoc -> jsstring -> nat -> Q.
Variable convertEmojiToKeywords : jsstring -> list jsstring.
Variable isPointInside : json -> list (jsnum * jsnum) -> bool.
Variable isPointInCircle : json -> obj json -> jsnum -> bool.
Variable JSON_parse : json -> option json.

(** C10.  For an all-ASCII query and the default options the result is
    the empty array, whatever the index holds: the n-gram block is
    skipped, no element gets a [measure2], and [filterPerfectMatch]
    refuses them all. *)
Theorem plain_query_finds_nothing (st : index) (query : jsstring) :
  isAscii query = true ->
  run_search tfidf_measure convertEmojiToKeywords isPointInside isPointInCircle
             st query default_options = Some []
  /\ search tfidf_measure convertEmojiToKeywords isPointInside isPointInCircle
            JSON_parse st query [] = Ok [].
Proof.
  intros A.
  assert (R : run_search tfidf_measure convertEmojiToKeywords isPointInside
                isPointInCircle st query default_options = Some []).
  { unfold run_search.
    destruct (candidates tfidf_measure convertEmojiToKeywords isPointInside
                isPointInCircle st query default_options) as [c|] eqn:C.
    - f_equal. unfold policy, filtered. cbn [onlyKeepPerfectMatch default_options].
      assert (E : filter (filterPerfectMatch true) c = []).
      { apply filter_none. intros e H. unfold filterPerfectMatch.
        now rewrite (candidates_ascii _ _ _ _ _ _ _ c e A C H). }
      rewrite E. reflexivity.
    - unfold candidates, ngram_block in C. rewrite A in C. discriminate. }
  split; [exact R|].
  unfold search. cbn [parse_geofence obj_get Ajv.searchValidate negb].
  change (defaults []) with default_options. now rewrite R.
Qed.
End PlainQueries.

Lemma plain_query_finds_nothing_witness :
  isAscii [0x68; 0x69]%N = true
  /\ Samples.run (memory Samples.two_documents) [0x68; 0x69]%N default_options = Some [].
Proof.
  split; [reflexivity|].
  apply (plain_query_finds_nothing Samples.measure Samples.keywords
           Samples.outside Samples.outside_circle Samples.parse).
  reflexivity.
Defined.

(* ================================================================= *)
(** ** The empty query *)

Section EmptyQuery.
Variable tfidf_measure : list tfdoc -> jsstring -> nat -> Q.
Variable convertEmojiToKeywords : jsstring -> list jsstring.

End EmptyQuery.



(* ================================================================= *)
(** ** The subsets without [persistOrder] *)

(** C6, as the code has it.  Without [persistOrder] the subsets are the
    symbols of the raw query as [_.split(query, '')] cuts them, in order
    and with repetitions; each one has size 1, so [subsetLengthSum] is
    their number; variation selectors are removed from a subset only
    when it is compared, and the stripped subsets together spell the
    stripped query. *)
Theorem subsets_unordered (query : jsstring) :
  subsets false query = Lodash.split query
  /\ Forall (fun s => Lodash.size s = 1) (subsets false query)
  /\ subsetLengthSum (subsets false query) = List.length (Lodash.split query)
  /\ concat (map stripVariationSelectors (subsets false query))
     = stripVariationSelectors query.
Proof.
  assert (F : Forall (fun s => Lodash.size s = 1) (Lodash.split query)).
  { rewrite Forall_forall. intros s. apply LodashFacts.split_size. }
  split; [reflexivity|]. split; [exact F|]. split.
  - unfold subsets, subsetLengthSum.
    induction F as [|s l S F IH]; [reflexivity|].
    simpl. now rewrite S, IH.
  - unfold subsets.
    now rewrite stripVariationSelectors_concat, LodashFacts.split_concat.
Qed.

(** C6 as stated fails on a face followed by two variation selectors:
    the second selector is a symbol of its own, and stripped it is the
    empty string, which is not a character of the stripped query. *)
Lemma subsets_not_canonical_characters :
  let query := (Samples.grinning ++ [Samples.vs16; Samples.vs16])%list in
  ~ (forall s, In s (map stripVariationSelectors (subsets false query))
               <-> In s (Lodash.split (stripVariationSelectors query))).
Proof.
  cbv zeta. intros H.
  assert (I : In [] (Lodash.split (stripVariationSelectors
                       (Samples.grinning ++ [Samples.vs16; Samples.vs16])))).
  { apply H. vm_compute. right. left. reflexivity. }
  vm_compute in I. destruct I as [I|[]]. discriminate.
Qed.

(** The empty subset is found in every document: a document with another
    face scores one half for that query. *)
Example empty_subset_matches_everything :
  let query := (Samples.grinning ++ [Samples.vs16; Samples.vs16])%list in
  subsets false query = [(Samples.grinning ++ [Samples.vs16])%list; [Samples.vs16]]
  /\ measure2_of (subsets false query) Samples.sunglasses = Num (1 # 2).
Proof. split; reflexivity. Qed.

(* ================================================================= *)
(** ** Validation of a posted document *)



(** A body that validates carries a string under [emoji]. *)
Lemma documentPostValidate_emoji body :
  Ajv.documentPostValidate body = true ->
  exists emoji, obj_get "emoji" body = Some (JStr emoji).
Proof.
  unfold Ajv.documentPostValidate, Ajv.property, Ajv.required, obj_has.
  cbn [forallb].
  destruct (obj_get "emoji" body) as [[| | |s| |]|]; cbn [Ajv.type_string andb];
    try discriminate; try (now rewrite ?andb_false_r).
  intros _. now exists s.
Qed.

Section PostDocuments.
Variable convertEmojiToKeywords : jsstring -> list jsstring.


(** A successful post: what the handler stored. *)
Lemma post_documents_Created key body s s' :
  post_documents convertEmojiToKeywords key body s = (Created, s') ->
  exists emoji,
    obj_get "emoji" body = Some (JStr emoji)
    /\ tfidf (memory s') =
       tfidf (memory s) ++
       [{| doc_text := join_space (convertEmojiToKeywords emoji);
           doc_key := key |}]
    /\ meta (memory s') = obj_set key (obj_get "meta" body) (meta (memory s))
    /\ emojis (memory s') = obj_set key emoji (emojis (memory s))
    /\ database s' = Some (memory s').
Proof.
  unfold post_documents.
  destruct (negb (Ajv.documentPostValidate body)); [discriminate|].
  destruct (obj_get "emoji" body) as [[| | |emoji| |]|]; try discriminate.
  intros [= <-]. exists emoji. cbn. repeat split.
Qed.

Lemma post_documents_consistent key body s s' :
  consistent (memory s) ->
  post_documents convertEmojiToKeywords key body s = (Created, s') ->
  consistent (memory s').
Proof.
  intros C H. apply post_documents_Created in H.
  destruct H as (emoji & _ & T & _ & E & _).
  intros d Hd. rewrite T in Hd. rewrite E. unfold obj_has.
  apply in_app_or in Hd. destruct Hd as [Hd|[<-|[]]].
  - destruct (String.eqb_spec key (doc_key d)) as [<-|N].
    + now rewrite obj_get_set_same.
    + rewrite obj_get_set_other by exact N. apply C, Hd.
  - cbn [doc_key]. now rewrite obj_get_set_same.
Qed.
Lemma post_documents_BadRequest key body s s' :
  post_documents convertEmojiToKeywords key body s = (BadRequest, s') -> s' = s.
Proof.
  unfold post_documents.
  destruct (negb (Ajv.documentPostValidate body)); [now intros [= <-]|].
  destruct (obj_get "emoji" body) as [[| | |emoji| |]|];
    intros E; try (now injection E as <-); discriminate.
Qed.

(** A post leaves the documents of the other keys as they were. *)
Lemma post_documents_keeps key body s :
  let s' := snd (post_documents convertEmojiToKeywords key body s) in
  (consistent (memory s) -> consistent (memory s'))
  /\ (forall d, In d (tfidf (memory s)) -> In d (tfidf (memory s')))
  /\ (forall k, k <> key ->
        obj_get k (emojis (memory s')) = obj_get k (emojis (memory s))
        /\ meta_of (memory s') k = meta_of (memory s) k).
Proof.
  cbv zeta.
  destruct (post_documents convertEmojiToKeywords key body s) as [[|] s'] eqn:E;
    cbn [snd].
  - split; [intros C; now apply (post_documents_consistent _ _ _ _ C E)|].
    apply post_documents_Created in E. destruct E as (emoji & _ & T & M & Em & _).
    split.
    + intros d H. rewrite T. apply in_or_app. now left.
    + intros k N. unfold meta_of. rewrite Em, M.
      now rewrite !obj_get_set_other by congruence.
  - apply post_documents_BadRequest in E. subst s'. repeat split; auto.
Qed.

Lemma post_all_keeps requests s d emoji :
  consistent (memory s) -> In d (tfidf (memory s)) ->
  obj_get (doc_key d) (emojis (memory s)) = Some emoji ->
  ~ In (doc_key d) (map fst requests) ->
  let s' := post_all convertEmojiToKeywords requests s in
  consistent (memory s') /\ In d (tfidf (memory s'))
  /\ obj_get (doc_key d) (emojis (memory s')) = Some emoji
  /\ meta_of (memory s') (doc_key d) = meta_of (memory s) (doc_key d).
Proof.
  cbv zeta. revert s. induction requests as [|[key body] rest IH];
    intros s C I E N; [now repeat split|].
  cbn [post_all].
  destruct (post_documents_keeps key body s) as (C' & I' & K).
  destruct (K (doc_key d)) as [E' M'].
  { intros X. apply N. left. now rewrite X. }
  destruct (IH (snd (post_documents convertEmojiToKeywords key body s)))
    as (C2 & I2 & E2 & M2); auto.
  { now rewrite E'. }
  { intros X. apply N. now right. }
  repeat split; auto. now rewrite M2.
Qed.
End PostDocuments.



(* ================================================================= *)
(** ** Validation of a search *)

Section SearchValidation.
Variable tfidf_measure : list tfdoc -> jsstring -> nat -> Q.
Variable convertEmojiToKeywords : jsstring -> list jsstring.
Variable isPointInside : json -> list (jsnum * jsnum) -> bool.
Variable isPointInCircle : json -> obj json -> jsnum -> bool.
Variable JSON_parse : json -> option json.


End SearchValidation.



(** A negative [limit] is not rejected either: the search runs and
    [_.take] returns nothing. *)
Example search_negative_limit_runs :
  Samples.get (memory Samples.two_documents) Samples.grinning
    [("limit"%string, JNum (-1))] = Ok [].
Proof. reflexivity. Qed.

(* ================================================================= *)
(** ** The order of the result *)

Lemma js_truthy_not_NaN a : js_truthy a = true -> a <> NaN.
Proof. intros H ->. discriminate. Qed.

Ltac q_bools :=
  repeat match goal with
  | H : negb _ = false |- _ => apply negb_false_iff in H
  | H : negb _ = true |- _ => apply negb_true_iff in H
  | H : Qle_bool _ _ = true |- _ => apply Qle_bool_iff in H
  | H : Qeq_bool _ _ = true |- _ => apply Qeq_bool_iff in H
  | |- negb _ = false => apply negb_false_iff
  | |- Qle_bool _ _ = true => apply Qle_bool_iff
  | |- Qeq_bool _ _ = true => apply Qeq_bool_iff
  end.

Lemma Qle_bool_false x y : Qle_bool x y = false -> (y <= x)%Q.
Proof.
  intros H. apply Qlt_le_weak, Qnot_le_lt. intros L.
  apply Qle_bool_iff in L. congruence.
Qed.

Lemma compareAscending_gt_asym a b :
  a <> NaN -> b <> NaN ->
  Collection.compareAscending_gt a b = true ->
  Collection.compareAscending_gt b a = false.
Proof.
  intros Ha Hb. destruct a as [x| | |], b as [y| | |]; simpl;
    try congruence; intros H; q_bools.
  now apply Qle_bool_false.
Qed.

Lemma compareAscending_ngt_trans a b c :
  a <> NaN -> b <> NaN -> c <> NaN ->
  Collection.compareAscending_gt a b = false ->
  Collection.compareAscending_gt b c = false ->
  Collection.compareAscending_gt a c = false.
Proof.
  intros Ha Hb Hc.
  destruct a as [x| | |], b as [y| | |], c as [z| | |]; simpl;
    try congruence; intros H1 H2; q_bools.
  eapply Qle_trans; eauto.
Qed.

(** Not smaller, on numbers other than NaN, is greater or equal. *)
Lemma compareAscending_ngt_ge a b :
  a <> NaN -> b <> NaN ->
  Collection.compareAscending_gt b a = false -> js_ge a b = true.
Proof.
  intros Ha Hb. unfold js_ge.
  destruct a as [x| | |], b as [y| | |]; simpl; try congruence.
  intros H. q_bools.
  destruct (Qle_bool x y) eqn:E; [|reflexivity]. simpl. q_bools.
  now apply Qle_antisym.
Qed.

(** Two measures that are [===] to the same number are not ordered. *)
Lemma tie_not_gt m x y :
  tie m x = true -> tie m y = true ->
  Collection.compareAscending_gt (e_measure x) (e_measure y) = false.
Proof.
  unfold tie.
  destruct (e_measure x) as [a| | |], (e_measure y) as [b| | |], m as [q| | |];
    simpl; try congruence.
  intros H1 H2. q_bools. rewrite H1, H2. apply Qle_refl.
Qed.

Lemma take_count_le limit :
  (0 <= limit)%Q -> (Q_of_nat (take_count limit) <= limit)%Q.
Proof.
  intros H. unfold take_count, Q_of_nat.
  rewrite (proj2 (Qle_bool_iff 0 limit) H).
  assert (P : (0 <= Qfloor limit)%Z).
  { change 0%Z with (Qfloor 0). now apply Qfloor_resp_le. }
  rewrite Z2Nat.id by exact P. apply Qfloor_le.
Qed.

Lemma take_count_negative limit : (limit < 0)%Q -> take_count limit = 0.
Proof.
  intros H. unfold take_count.
  assert (E : Qle_bool 0 limit = false).
  { destruct (Qle_bool 0 limit) eqn:E; [|reflexivity].
    apply Qle_bool_iff in E. exfalso. eapply Qlt_not_le; eauto. }
  rewrite E. unfold Qceiling.
  assert (P : (0 <= Qfloor (- limit))%Z).
  { change 0%Z with (Qfloor 0). apply Qfloor_resp_le. lra. }
  destruct (Qfloor (- limit)); try reflexivity. lia.
Qed.

Lemma filtered_incl opts c e : In e (filtered opts c) -> In e c.
Proof. unfold filtered. rewrite !filter_In. tauto. Qed.

Lemma ranked_In l e : In e (ranked l) <-> In e l.
Proof.
  unfold ranked. rewrite <- in_rev. split; intros H.
  - now apply (Permutation_in _
      (sortBy_perm Collection.compareAscending_gt e_measure l)) in H.
  - now apply (Permutation_in _ (Permutation_sym
      (sortBy_perm Collection.compareAscending_gt e_measure l))) in H.
Qed.

Lemma ranked_length l : List.length (ranked l) = List.length l.
Proof.
  unfold ranked. rewrite length_rev. apply Permutation_length, sortBy_perm.
Qed.

Lemma ranked_sorted l :
  Forall (fun e => js_truthy (e_measure e) = true) l ->
  StronglySorted descends (ranked l).
Proof.
  intros F. unfold ranked.
  assert (G : Forall (fun e => e_measure e <> NaN) l).
  { rewrite Forall_forall in F |- *. intros e H.
    now apply js_truthy_not_NaN, F. }
  pose proof (sortBy_sorted Collection.compareAscending_gt e_measure
                (fun a => a <> NaN) compareAscending_gt_asym
                compareAscending_ngt_trans l G) as S.
  apply StronglySorted_rev in S.
  eapply (StronglySorted_weaken _ descends (fun e => e_measure e <> NaN));
    [| |exact S].
  - intros x y Hx Hy A. now apply compareAscending_ngt_ge.
  - rewrite Forall_forall in G |- *. intros e H. apply G.
    apply in_rev in H.
    now apply (Permutation_in _
      (sortBy_perm Collection.compareAscending_gt e_measure l)) in H.
Qed.

(** Among equal measures the result runs against the order of the
    array. *)
Lemma ranked_ties m l : filter (tie m) (ranked l) = rev (filter (tie m) l).
Proof.
  unfold ranked. rewrite filter_rev. f_equal.
  apply sortBy_filter. intros x y. apply tie_not_gt.
Qed.

Section Ranking.
Variable tfidf_measure : list tfdoc -> jsstring -> nat -> Q.
Variable convertEmojiToKeywords : jsstring -> list jsstring.
Variable isPointInside : json -> list (jsnum * jsnum) -> bool.
Variable isPointInCircle : json -> obj json -> jsnum -> bool.

(** C3, as the code has it.  The result of a search descends in the
    combined measure and holds at most [limit] entries (none for a
    negative [limit]).  The sort is stable but ascending, and it is
    followed by [reverse]: entries with equal combined measure come out
    against the order of the array, the last met first; the entries of
    the result with a given measure are the head of the reversed list of
    the filtered entries with that measure. *)
Theorem result_is_ranked
    (st : index) (query : jsstring) (opts : options) (l : list entry) :
  run_search tfidf_measure convertEmojiToKeywords isPointInside isPointInCircle
             st query opts = Some l ->
  StronglySorted descends l
  /\ List.length l <= take_count (limit opts)
  /\ ((0 <= limit opts)%Q -> (Q_of_nat (List.length l) <= limit opts)%Q)
  /\ ((limit opts < 0)%Q -> l = [])
  /\ exists c,
       candidates tfidf_measure convertEmojiToKeywords isPointInside
                  isPointInCircle st query opts = Some c
       /\ forall m, exists rest,
            filter (tie m) l ++ rest = rev (filter (tie m) (filtered opts c)).
Proof.
  unfold run_search.
  destruct (candidates tfidf_measure convertEmojiToKeywords isPointInside
              isPointInCircle st query opts) as [c|] eqn:C; [|discriminate].
  intros [= <-]. unfold policy.
  assert (L : List.length (firstn (take_count (limit opts))
                (ranked (filtered opts c))) <= take_count (limit opts))
    by apply firstn_le_length.
  split; [|split; [exact L|split; [|split]]].
  - apply StronglySorted_firstn, ranked_sorted.
    rewrite Forall_forall. intros e H. apply filtered_incl in H.
    now destruct (candidates_In _ _ _ _ _ _ _ c e C H) as (_ & _ & _ & _ & _ & _ & T).
  - intros P. eapply Qle_trans; [|apply take_count_le, P].
    now apply Q_of_nat_le.
  - intros P. now rewrite (take_count_negative _ P).
  - exists c. split; [reflexivity|]. intros m.
    exists (filter (tie m) (skipn (take_count (limit opts))
                              (ranked (filtered opts c)))).
    now rewrite filter_firstn_prefix, ranked_ties.
Qed.
End Ranking.

Lemma result_is_ranked_witness :
  exists l,
    Samples.run (memory Samples.two_documents) Samples.grinning default_options
    = Some l
    /\ StronglySorted descends l /\ List.length l <= 50.
Proof.
  eexists. split; [reflexivity|].
  split; eapply (result_is_ranked Samples.measure Samples.keywords
                   Samples.outside Samples.outside_circle
                   (memory Samples.two_documents) Samples.grinning
                   default_options); reflexivity.
Defined.

(** C3 as stated fails on ties: both documents of the sample score 1 for
    the single face; the filters meet them in the order of insertion and
    the result lists them the other way round. *)
Lemma result_ties_reversed :
  let metas := option_map (map (fun e => t_meta (e_term e))) in
  metas (option_map (filtered default_options)
           (Samples.candidates_of (memory Samples.two_documents)
              Samples.grinning default_options))
  = Some [Some (Samples.tagged 1); Some (Samples.tagged 2)]
  /\ metas (Samples.run (memory Samples.two_documents) Samples.grinning
              default_options)
     = Some [Some (Samples.tagged 2); Some (Samples.tagged 1)]
  /\ option_map (map e_measure)
       (Samples.run (memory Samples.two_documents) Samples.grinning
          default_options)
     = Some [Num 1; Num 1].
Proof. cbv zeta. repeat split; vm_compute; reflexivity. Qed.

(* ================================================================= *)
(** ** Searching for an inserted document *)

Lemma filter_filter_andb {A : Type} (f g : A -> bool) l :
  filter f (filter g l) = filter (fun x => g x && f x) l.
Proof.
  induction l as [|x l IH]; [reflexivity|].
  simpl. destruct (g x); simpl; [destruct (f x)|]; now rewrite IH.
Qed.

Section Finding.
Variable tfidf_measure : list tfdoc -> jsstring -> nat -> Q.
Variable convertEmojiToKeywords : jsstring -> list jsstring.
Variable isPointInside : json -> list (jsnum * jsnum) -> bool.
Variable isPointInCircle : json -> obj json -> jsnum -> bool.

Let cands :=
  candidates tfidf_measure convertEmojiToKeywords isPointInside isPointInCircle.
Let run :=
  run_search tfidf_measure convertEmojiToKeywords isPointInside isPointInCircle.

(** In a consistent index, the search for the emoji sequence of a
    document, with the default options, has that document among the
    entries that pass the three filters. *)
Lemma search_finds (st : index) (d : tfdoc) (emoji : jsstring) :
  consistent st -> In d (tfidf st) ->
  obj_get (doc_key d) (emojis st) = Some emoji ->
  isAscii emoji = false ->
  exists c e,
    cands st emoji default_options = Some c
    /\ In e (filtered default_options c)
    /\ t_emoji (e_term e) = Some emoji
    /\ t_meta (e_term e) = meta_of st (doc_key d)
    /\ perfect (e_term e) = true.
Proof.
  intros Cst Hd He A.
  set (subs := subsets false emoji).
  set (sc := scored tfidf_measure convertEmojiToKeywords st emoji).
  destruct (scored_has tfidf_measure convertEmojiToKeywords st emoji d Hd)
    as (t0 & I0 & E0 & M0). fold sc in I0. rewrite He in E0.
  assert (C : cands st emoji default_options =
              Some (combined (map (set_measure1 (Num 0)) (map (ngram_of subs) sc)))).
  { unfold cands, candidates, ngram_block. fold sc.
    rewrite A. cbn [negb persistOrder default_options]. fold subs.
    rewrite each_ngram_Some by (now apply scored_consistent).
    cbn [geofence enableFuzzySearch default_options].
    now rewrite geo_filter_None. }
  set (t1 := set_measure1 (Num 0) (ngram_of subs t0)).
  assert (N : ngram_of subs t0 =
              set_ngram (measure2_of subs emoji)
                        (fst (match_subsets subs emoji)) t0).
  { unfold ngram_of. now rewrite E0. }
  assert (All : Forall (fun s => matched emoji s = true) subs).
  { rewrite Forall_forall. intros s Hs. now apply split_includes. }
  assert (P : perfect t1 = true).
  { unfold t1, perfect. rewrite N. cbn [set_measure1 set_ngram t_measure2].
    unfold measure2_of. apply perfect_iff. split.
    - now apply match_subsets_total_all.
    - pose proof (subsetLengthSum_pos false emoji A). fold subs in H. lia. }
  assert (Sh : ngram_shape subs t1).
  { exists emoji. unfold t1. rewrite N. split; reflexivity. }
  destruct (shape_measure subs t1) as (x & X & _ & X1).
  { apply (subsetLengthSum_pos false emoji A). }
  { exact Sh. }
  { reflexivity. }
  specialize (X1 P).
  assert (I1 : In (combine_measure t1)
                  (combined (map (set_measure1 (Num 0)) (map (ngram_of subs) sc)))).
  { apply combined_In. exists t1. split; [|split; [reflexivity|]].
    - unfold t1. now apply in_map, in_map.
    - rewrite X. cbn [js_truthy]. apply negb_true_iff.
      destruct (Qeq_bool x 0) eqn:Z; [|reflexivity].
      apply Qeq_bool_iff in Z. rewrite Z in X1. discriminate. }
  eexists. exists (combine_measure t1). split; [exact C|].
  split; [|split; [|split]].
  - unfold filtered. cbn [onlyKeepPerfectMatch truncateSmallMatches
                          truncateSmallScore default_options].
    rewrite !filter_In. repeat split.
    + exact I1.
    + exact P.
    + apply (perfect_passes_small_match tfidf_measure convertEmojiToKeywords
               isPointInside isPointInCircle st emoji default_options);
        [exact C|exact I1|exact P].
  - cbn [combine_measure e_term]. unfold t1. rewrite N. exact E0.
  - cbn [combine_measure e_term]. unfold t1. rewrite N. exact M0.
  - exact P.
Qed.

(** C1, as the code has it.  After [post_documents] has stored a
    document whose emoji sequence is not ASCII, and whatever is posted
    later under other keys, the search for that sequence with the
    default options gives the document [measure2 === 1] and lets it pass
    every filter; it is in the result as soon as the index holds no more
    than [limit] = 50 documents. *)
Theorem inserted_document_is_found
    (s s1 : server) (key : string) (body : obj json) (emoji : jsstring)
    (later : list (string * obj json)) :
  consistent (memory s) ->
  post_documents convertEmojiToKeywords key body s = (Created, s1) ->
  obj_get "emoji" body = Some (JStr emoji) ->
  isAscii emoji = false ->
  ~ In key (map fst later) ->
  let st := memory (post_all convertEmojiToKeywords later s1) in
  exists c e,
    cands st emoji default_options = Some c
    /\ In e (ranked (filtered default_options c))
    /\ t_emoji (e_term e) = Some emoji
    /\ t_meta (e_term e) = obj_get "meta" body
    /\ perfect (e_term e) = true
    /\ (List.length (tfidf st) <= 50 ->
        exists l, run st emoji default_options = Some l /\ In e l).
Proof.
  intros Cs Post Em A Fresh. cbv zeta.
  pose proof (post_documents_consistent _ _ _ _ _ Cs Post) as Cs1.
  apply post_documents_Created in Post.
  destruct Post as (emoji' & Em' & T & M & E & _).
  rewrite Em in Em'. injection Em' as <-.
  set (d := {| doc_text := join_space (convertEmojiToKeywords emoji);
               doc_key := key |}).
  destruct (post_all_keeps convertEmojiToKeywords later s1 d emoji)
    as (C2 & I2 & E2 & M2).
  { exact Cs1. }
  { rewrite T. apply in_or_app. right. now left. }
  { rewrite E. cbn [doc_key d]. apply obj_get_set_same. }
  { exact Fresh. }
  set (s2 := post_all convertEmojiToKeywords later s1) in *.
  destruct (search_finds (memory s2) d emoji C2 I2 E2 A)
    as (c & e & C & F & E1 & M1 & P).
  exists c, e. split; [exact C|]. split; [now apply ranked_In|].
  split; [exact E1|]. split; [|split; [exact P|]].
  - rewrite M1, M2. unfold meta_of. cbn [doc_key d].
    now rewrite M, obj_get_set_same.
  - intros L. exists (policy default_options c). split.
    + unfold run, run_search. fold cands. now rewrite C.
    + unfold policy. rewrite firstn_all2; [now apply ranked_In|].
      rewrite ranked_length.
      change (take_count (limit default_options)) with 50.
      pose proof (candidates_length tfidf_measure convertEmojiToKeywords
                    isPointInside isPointInCircle _ _ _ c C) as L1.
      assert (L2 : List.length (filtered default_options c) <= List.length c).
      { unfold filtered.
        etransitivity; [apply filter_length_le|].
        etransitivity; [apply filter_length_le|]. apply filter_length_le. }
      lia.
Qed.
End Finding.

Lemma consistent_empty : consistent empty_index.
Proof. intros d []. Qed.

(** The first document of the sample scenario, searched for after the
    second one was posted. *)
Lemma inserted_document_is_found_witness :
  let later := [("doc-b"%string,
                 Samples.document (Samples.grinning ++ Samples.sunglasses)
                                  (Samples.tagged 2))] in
  consistent (memory Samples.start)
  /\ isAscii Samples.grinning = false
  /\ ~ In "doc-a"%string (map fst later)
  /\ exists l e,
       Samples.run (memory Samples.two_documents) Samples.grinning
         default_options = Some l
       /\ In e l
       /\ t_meta (e_term e) = Some (Samples.tagged 1)
       /\ perfect (e_term e) = true.
Proof.
  cbv zeta.
  assert (N : ~ In "doc-a"%string
                (map fst [("doc-b"%string,
                           Samples.document (Samples.grinning ++ Samples.sunglasses)
                                            (Samples.tagged 2))])).
  { simpl. intros [H|[]]. discriminate. }
  split; [exact consistent_empty|]. split; [reflexivity|]. split; [exact N|].
  destruct (inserted_document_is_found Samples.measure Samples.keywords
              Samples.outside Samples.outside_circle
              Samples.start _ "doc-a"
              (Samples.document Samples.grinning (Samples.tagged 1))
              Samples.grinning _
              consistent_empty eq_refl eq_refl eq_refl N)
    as (c & e & _ & _ & _ & M & P & L).
  destruct L as (l & R & I); [simpl; lia|].
  exists l, e. repeat split; assumption.
Defined.

(** C1 as stated fails once more than [limit] documents match: of
    fifty-one documents with the same face, all accepted by
    [post_documents], the search returns fifty, and the document that was
    inserted first is not among them. *)
Lemma first_of_fifty_one_is_cut :
  fst (Samples.post (Samples.key_of 0)
         (Samples.document Samples.grinning (Samples.tagged 0)) Samples.start)
  = Created
  /\ exists l,
       Samples.run (memory Samples.fifty_one) Samples.grinning default_options
       = Some l
       /\ List.length l = 50
       /\ ~ exists e, In e l /\ t_meta (e_term e) = Some (Samples.tagged 0).
Proof.
  split; [reflexivity|].
  eexists. split; [vm_compute; reflexivity|]. split; [reflexivity|].
  intros (e & I & M).
  apply (in_map (fun e => t_meta (e_term e))) in I. rewrite M in I.
  vm_compute in I.
  repeat (destruct I as [I|I]; [discriminate I|]). exact I.
Qed.

(** A document whose emoji string is ASCII is not found by its own
    string: the query is plain and nothing gets a [measure2]. *)
Example ascii_document_is_not_found :
  let name := [0x61; 0x62; 0x63]%N in
  fst (Samples.post "doc-a" (Samples.document name (Samples.tagged 1))
         Samples.start) = Created
  /\ Samples.run
       (memory (snd (Samples.post "doc-a"
                       (Samples.document name (Samples.tagged 1)) Samples.start)))
       name default_options = Some [].
Proof. split; reflexivity. Qed.

(* ================================================================= *)
(** ** The three policy filters *)

Section PolicyFilters.
Variable tfidf_measure : list tfdoc -> jsstring -> nat -> Q.
Variable convertEmojiToKeywords : jsstring -> list jsstring.
Variable isPointInside : json -> list (jsnum * jsnum) -> bool.
Variable isPointInCircle : json -> obj json -> jsnum -> bool.

Let cands :=
  candidates tfidf_measure convertEmojiToKeywords isPointInside isPointInCircle.
Let run :=
  run_search tfidf_measure convertEmojiToKeywords isPointInside isPointInCircle.

(** C2, as the code has it.  The three filters are applied one after
    the other, each on its own flag: an entry is kept when it passes all
    three.  With [onlyKeepPerfectMatch] on, [truncateSmallMatches] does
    not change the result, and [truncateSmallScore] does not change it
    when [enableFuzzySearch] is off. *)
Theorem policy_filters_in_sequence
    (st : index) (query : jsstring) (opts : options) :
  (forall c,
     filtered opts c =
     filter (fun o =>
               filterPerfectMatch (onlyKeepPerfectMatch opts) o
               && filterSmallMatch (truncateSmallMatches opts)
                    (Collection.max_nat (map matches_size c)) o
               && filterSmallScore (truncateSmallScore opts)
                    (Collection.max_num (map e_measure c)) o) c)
  /\ (onlyKeepPerfectMatch opts = true ->
      (forall b, run st query (set_truncateSmallMatches b opts)
                 = run st query opts)
      /\ (enableFuzzySearch opts = false ->
          forall b, run st query (set_truncateSmallScore b opts)
                    = run st query opts)).
Proof.
  split.
  { intros c. unfold filtered. rewrite !filter_filter_andb.
    apply filter_ext. intros o. cbv beta. now rewrite ?andb_assoc. }
  intros P.
  assert (Small : forall c b, cands st query opts = Some c ->
    filter (filterSmallMatch b (Collection.max_nat (map matches_size c)))
           (filter (filterPerfectMatch true) c)
    = filter (filterPerfectMatch true) c).
  { intros c b C. apply filter_all. intros e H. apply filter_In in H.
    destruct H as [I F].
    now apply (perfect_passes_small_match tfidf_measure convertEmojiToKeywords
                 isPointInside isPointInCircle st query opts). }
  split.
  - intros b. unfold run, run_search.
    change (candidates tfidf_measure convertEmojiToKeywords
              isPointInside isPointInCircle st query
              (set_truncateSmallMatches b opts))
      with (cands st query opts).
    fold cands.
    destruct (cands st query opts) as [c|] eqn:C; [|reflexivity].
    f_equal. unfold policy, filtered.
    cbn [set_truncateSmallMatches limit truncateSmallMatches truncateSmallScore
         onlyKeepPerfectMatch].
    rewrite P. now rewrite !Small.
  - intros Z b. unfold run, run_search.
    change (candidates tfidf_measure convertEmojiToKeywords
              isPointInside isPointInCircle st query
              (set_truncateSmallScore b opts))
      with (cands st query opts).
    fold cands.
    destruct (cands st query opts) as [c|] eqn:C; [|reflexivity].
    f_equal. unfold policy, filtered.
    cbn [set_truncateSmallScore limit truncateSmallMatches truncateSmallScore
         onlyKeepPerfectMatch].
    rewrite P, !Small by reflexivity.
    assert (Score : forall b',
      filter (filterSmallScore b' (Collection.max_num (map e_measure c)))
             (filter (filterPerfectMatch true) c)
      = filter (filterPerfectMatch true) c).
    { intros b'. apply filter_all. intros e H. apply filter_In in H.
      destruct H as [I F].
      now apply (perfect_passes_small_score tfidf_measure convertEmojiToKeywords
                   isPointInside isPointInCircle st query opts). }
    now rewrite !Score.
Qed.
End PolicyFilters.

Lemma policy_filters_in_sequence_witness :
  onlyKeepPerfectMatch default_options = true
  /\ Samples.run (memory Samples.two_documents) Samples.grinning
       (set_truncateSmallMatches false default_options)
     = Samples.run (memory Samples.two_documents) Samples.grinning default_options
  /\ Samples.run (memory Samples.two_documents) Samples.grinning
       (set_truncateSmallScore true default_options)
     = Samples.run (memory Samples.two_documents) Samples.grinning default_options.
Proof.
  split; [reflexivity|].
  split; apply (policy_filters_in_sequence Samples.measure Samples.keywords
                  Samples.outside Samples.outside_circle
                  (memory Samples.two_documents) Samples.grinning
                  default_options); reflexivity.
Defined.

(** C2 as stated fails without the perfect-match filter: with
    [truncateSmallMatches] on, [truncateSmallScore] still removes an
    entry.  Both documents match one subset of the query, the first with
    two thirds of the sum and the second with one third. *)
Lemma small_score_applies_after_small_matches :
  let query := (Samples.grinning ++ Samples.grinning ++ Samples.sunglasses)%list in
  option_map (@List.length entry)
    (Samples.run (memory Samples.two_faces) query (Samples.loose true)) = Some 1
  /\ option_map (@List.length entry)
       (Samples.run (memory Samples.two_faces) query (Samples.loose false)) = Some 2
  /\ Samples.run (memory Samples.two_faces) query (Samples.loose true)
     <> Samples.run (memory Samples.two_faces) query (Samples.loose false).
Proof.
  cbv zeta. split; [reflexivity|]. split; [reflexivity|].
  intros H. apply (f_equal (option_map (@List.length entry))) in H.
  vm_compute in H. discriminate.
Qed.

(** With [enableFuzzySearch] on, [truncateSmallScore] removes a perfect
    match whose [measure1] is smaller. *)
Example small_score_applies_to_perfect_matches :
  option_map (@List.length entry)
    (Samples.run (memory Samples.face_twice) Samples.grinning
       (set_truncateSmallScore true Samples.fuzzy)) = Some 1
  /\ option_map (@List.length entry)
       (Samples.run (memory Samples.face_twice) Samples.grinning Samples.fuzzy)
     = Some 2.
Proof. split; reflexivity. Qed.

(* ================================================================= *)
(** ** The normalisation of [measure1] *)

Lemma map_snd_combine_seq {A : Type} (l : list A) s :
  map snd (combine (seq s (List.length l)) l) = l.
Proof.
  revert s. induction l as [|x l IH]; intros s; [reflexivity|].
  simpl. now rewrite IH.
Qed.

Lemma Qsum_div ms S :
  ~ (S == 0)%Q ->
  exists q,
    fold_right (fun m acc => js_add (num_div m S) acc) (Num 0) ms = Num q
    /\ (q == Qsum ms / S)%Q.
Proof.
  intros N.
  assert (Z : Qeq_bool S 0 = false).
  { destruct (Qeq_bool S 0) eqn:E; [|reflexivity].
    apply Qeq_bool_iff in E. contradiction. }
  induction ms as [|m ms (q & E & Hq)].
  - exists 0%Q. split; [reflexivity|]. unfold Qsum, Qdiv. simpl. ring.
  - exists (m / S + q)%Q. split.
    + simpl. rewrite E. unfold num_div. rewrite Z. reflexivity.
    + rewrite Hq. unfold Qsum, Qdiv. simpl. ring.
Qed.

Section Normalisation.
Variable tfidf_measure : list tfdoc -> jsstring -> nat -> Q.
Variable convertEmojiToKeywords : jsstring -> list jsstring.
Variable st : index.
Variable kws : jsstring.

Let callback := tfidfs_callback tfidf_measure st kws.

Let stored_term (id : nat * tfdoc) : string * raw_term :=
  (doc_key (snd id),
   {| r_meta := meta_of st (doc_key (snd id));
      r_measure1 := tfidf_measure (tfidf st) kws (fst id);
      r_emoji := obj_get (doc_key (snd id)) (emojis st) |}).

(** With keys that are all different every call of the callback adds an
    entry. *)
Lemma tfidfs_fresh_fold ids acc :
  NoDup (map (fun id => doc_key (snd id)) ids) ->
  (forall id, In id ids -> ~ In (doc_key (snd id)) (map fst (fst acc))) ->
  fst (fold_left callback ids acc) = fst acc ++ map stored_term ids
  /\ (snd (fold_left callback ids acc) ==
      snd acc + Qsum (map (fun id => tfidf_measure (tfidf st) kws (fst id)) ids))%Q.
Proof.
  revert acc. induction ids as [|id ids IH]; intros acc D F.
  - cbn [fold_left map]. rewrite app_nil_r. split; [reflexivity|].
    unfold Qsum. cbn [fold_right]. now rewrite Qplus_0_r.
  - cbn [fold_left]. inversion D as [|? ? Nin D']; subst.
    assert (E : callback acc id =
                (fst acc ++ [stored_term id],
                 (snd acc + tfidf_measure (tfidf st) kws (fst id))%Q)).
    { unfold callback, tfidfs_callback. f_equal.
      apply obj_set_fresh, F. now left. }
    rewrite E. destruct (IH (fst acc ++ [stored_term id],
                  (snd acc + tfidf_measure (tfidf st) kws (fst id))%Q) D')
      as (A & B).
    { intros id' H. cbn [fst]. rewrite map_app, in_app_iff. intros [X|[X|[]]].
      - apply (F id'); [now right|exact X].
      - apply Nin. cbn [stored_term fst] in X. rewrite X.
        now apply (in_map (fun id => doc_key (snd id))). }
    cbn [fst snd] in A, B. split.
    + rewrite A, <- app_assoc. reflexivity.
    + rewrite B. unfold Qsum. cbn [map fold_right fst snd].
      symmetry. apply Qplus_assoc.
Qed.
End Normalisation.

Section Measure1.
Variable tfidf_measure : list tfdoc -> jsstring -> nat -> Q.
Variable convertEmojiToKeywords : jsstring -> list jsstring.
Variable isPointInside : json -> list (jsnum * jsnum) -> bool.
Variable isPointInCircle : json -> obj json -> jsnum -> bool.

(** With [enableFuzzySearch] on, an entry of the result carries the
    [measure1] of one of the scored terms. *)
Lemma result_measure1_is_scored st query opts l e :
  enableFuzzySearch opts = true ->
  run_search tfidf_measure convertEmojiToKeywords isPointInside isPointInCircle
             st query opts = Some l ->
  In e l ->
  exists t, In t (scored tfidf_measure convertEmojiToKeywords st query)
            /\ t_measure1 (e_term e) = t_measure1 t.
Proof.
  intros Z R I. unfold run_search in R.
  destruct (candidates tfidf_measure convertEmojiToKeywords isPointInside
              isPointInCircle st query opts) as [c|] eqn:C; [|discriminate].
  injection R as <-. unfold policy in I.
  apply In_firstn, ranked_In, filtered_incl in I.
  destruct (candidates_In _ _ _ _ _ _ _ c e C I) as (r & t & N & Ht & E & _).
  rewrite Z in E. rewrite E.
  unfold ngram_block in N. destruct (negb (isAscii query)).
  - apply each_ngram_inv in N. destruct N as [-> _].
    rewrite in_map_iff in Ht. destruct Ht as (t0 & <- & Ht0).
    exists t0. split; [exact Ht0|].
    unfold ngram_of. now destruct (t_emoji t0).
  - injection N as <-. now exists t.
Qed.

(** C5, as the code has it.  [measure1] is normalised over all the
    documents that were scored, before any filter: when the keys of the
    index are all different and the raw measures do not sum to 0, the
    [measure1] of the scored terms sum to 1 (in exact arithmetic).  With
    [enableFuzzySearch] on, every entry of a result carries the
    [measure1] of one of these terms; the result holds some of them
    only. *)
Theorem measure1_sums_to_one_before_filters (st : index) (query : jsstring) :
  (NoDup (map doc_key (tfidf st)) ->
   ~ (snd (tfidfs tfidf_measure st
             (keywords_of_query convertEmojiToKeywords query)) == 0)%Q ->
   exists q,
     sum_measure1 (scored tfidf_measure convertEmojiToKeywords st query) = Num q
     /\ (q == 1)%Q)
  /\ (forall opts l e,
        enableFuzzySearch opts = true ->
        run_search tfidf_measure convertEmojiToKeywords isPointInside
                   isPointInCircle st query opts = Some l ->
        In e l ->
        exists t, In t (scored tfidf_measure convertEmojiToKeywords st query)
                  /\ t_measure1 (e_term e) = t_measure1 t).
Proof.
  split; [|intros opts l e; apply result_measure1_is_scored].
  intros D N.
  set (kws := keywords_of_query convertEmojiToKeywords query) in *.
  set (ids := combine (seq 0 (List.length (tfidf st))) (tfidf st)).
  destruct (tfidfs_fresh_fold tfidf_measure st kws ids ([], 0%Q)) as (A & B).
  { unfold ids.
    replace (map (fun id => doc_key (snd id))
                 (combine (seq 0 (List.length (tfidf st))) (tfidf st)))
      with (map doc_key (tfidf st)); [exact D|].
    rewrite <- (map_map snd doc_key). f_equal.
    symmetry. apply map_snd_combine_seq. }
  { intros id _ []. }
  change (fold_left (tfidfs_callback tfidf_measure st kws) ids ([], 0%Q))
    with (tfidfs tfidf_measure st kws) in A, B.
  cbn [fst snd app] in A, B.
  set (S := snd (tfidfs tfidf_measure st kws)) in *.
  set (ms := map (fun id => tfidf_measure (tfidf st) kws (fst id)) ids) in *.
  destruct (Qsum_div ms S N) as (q & E & Hq).
  exists q. split.
  - rewrite <- E. unfold sum_measure1, scored. fold kws. fold S. rewrite A.
    unfold ms. clear. induction ids as [|id ids IH]; [reflexivity|].
    simpl. now rewrite IH.
  - rewrite Hq. rewrite B in N |- *. rewrite Qplus_0_l in N |- *.
    now apply Qmult_inv_r.
Qed.
End Measure1.

Lemma measure1_sums_to_one_before_filters_witness :
  let query := (Samples.grinning ++ Samples.sunglasses)%list in
  NoDup (map doc_key (tfidf (memory Samples.two_documents)))
  /\ ~ (snd (tfidfs Samples.measure (memory Samples.two_documents)
               (keywords_of_query Samples.keywords query)) == 0)%Q
  /\ exists q,
       sum_measure1 (scored Samples.measure Samples.keywords
                       (memory Samples.two_documents) query) = Num q
       /\ (q == 1)%Q.
Proof.
  cbv zeta.
  assert (D : NoDup (map doc_key (tfidf (memory Samples.two_documents)))).
  { repeat constructor; simpl; intuition discriminate. }
  assert (N : ~ (snd (tfidfs Samples.measure (memory Samples.two_documents)
                   (keywords_of_query Samples.keywords
                      (Samples.grinning ++ Samples.sunglasses))) == 0)%Q).
  { vm_compute. discriminate. }
  split; [exact D|]. split; [exact N|].
  exact (proj1 (measure1_sums_to_one_before_filters Samples.measure
                  Samples.keywords Samples.outside Samples.outside_circle
                  (memory Samples.two_documents)
                  (Samples.grinning ++ Samples.sunglasses)) D N).
Defined.

(** C5 as stated fails as soon as a filter removes a scored document:
    with [enableFuzzySearch] on and the other options at their defaults,
    the search for the two faces returns the second document alone, and
    its [measure1] is two thirds. *)
Lemma returned_measure1_below_one :
  exists l q,
    Samples.run (memory Samples.two_documents)
      (Samples.grinning ++ Samples.sunglasses) Samples.fuzzy = Some l
    /\ l <> []
    /\ sum_measure1 (map e_term l) = Num q
    /\ (q <= 3 # 4)%Q
    /\ ~ (q == 1)%Q.
Proof.
  eexists. eexists. split; [vm_compute; reflexivity|].
  split; [discriminate|]. split; [vm_compute; reflexivity|].
  split; [unfold Qle; simpl; lia|]. unfold Qeq. simpl. lia.
Qed.

(* ================================================================= *)
(** ** Further properties: strings and subsets *)

Lemma starts_with_iff p s : starts_with p s = true <-> exists b, s = p ++ b.
Proof.
  revert s. induction p as [|a p IH]; intros s.
  - split; [intros _; now exists s|reflexivity].
  - destruct s as [|c s]; simpl.
    + split; [discriminate|intros [b H]; discriminate].
    + rewrite andb_true_iff, N.eqb_eq, IH. split.
      * intros [-> [b ->]]. now exists b.
      * intros [b [= -> ->]]. split; [reflexivity|now exists b].
Qed.

Lemma includes_iff s v :
  Lodash.includes s v = true <-> exists a b, s = (a ++ v ++ b)%list.
Proof.
  unfold Lodash.includes. induction s as [|c s IH].
  - simpl. rewrite orb_false_r, starts_with_iff. split.
    + intros [b H]. now exists [], b.
    + intros (a & b & H). destruct a; [now exists b|discriminate].
  - cbn [index_of_found]. rewrite orb_true_iff, starts_with_iff, IH. split.
    + intros [[b H]|(a & b & H)].
      * now exists [], b.
      * exists (c :: a), b. now rewrite H.
    + intros (a & b & H). destruct a as [|c' a].
      * left. now exists b.
      * right. injection H as -> ->. now exists a, b.
Qed.

Lemma includes_trans s v w :
  Lodash.includes s v = true -> Lodash.includes v w = true ->
  Lodash.includes s w = true.
Proof.
  intros H1 H2. apply includes_iff in H1, H2. apply includes_iff.
  destruct H1 as (a & b & ->). destruct H2 as (a' & b' & ->).
  exists (a ++ a'), (b' ++ b). now rewrite <- !app_assoc.
Qed.

(** [_.includes] on strings is the test for a contiguous run of code
    units: [value] is found in [s] exactly when [s] is some text, then
    [value], then some text.  In particular the empty string is found
    in every string, and the test composes. *)
Theorem includes_is_substring (s value : jsstring) :
  (Lodash.includes s value = true <-> exists a b, s = (a ++ value ++ b)%list)
  /\ Lodash.includes s [] = true
  /\ (forall w, Lodash.includes s value = true ->
                Lodash.includes value w = true ->
                Lodash.includes s w = true).
Proof.
  split; [apply includes_iff|]. split.
  - apply includes_iff. now exists [], s.
  - intros w. apply includes_trans.
Qed.

Lemma includes_is_substring_witness :
  Lodash.includes (Samples.grinning ++ Samples.sunglasses) Samples.sunglasses = true
  /\ Lodash.includes Samples.sunglasses [] = true
  /\ Lodash.includes (Samples.grinning ++ Samples.sunglasses) [] = true.
Proof.
  split; [reflexivity|]. split; [reflexivity|].
  apply (includes_is_substring (Samples.grinning ++ Samples.sunglasses)
           Samples.sunglasses); reflexivity.
Defined.

(** [_.split(s, '')] cuts a string into symbols that are never empty
    and that joined give the string back; [_.size(s)] is the number of
    these symbols, and every one of them has size 1. *)
Theorem split_join_round_trip (s : jsstring) :
  Lodash.join (Lodash.split s) = s
  /\ Forall (fun p => p <> [] /\ Lodash.size p = 1) (Lodash.split s)
  /\ Lodash.size s = List.length (Lodash.split s)
  /\ (Lodash.split s = [] <-> s = []).
Proof.
  split; [apply LodashFacts.split_concat|]. split; [|split].
  - rewrite Forall_forall. intros p H. split.
    + now apply LodashFacts.split_nonempty in H.
    + now apply LodashFacts.split_size in H.
  - unfold Lodash.size, Lodash.split, Lodash.asciiToArray.
    destruct (Lodash.hasUnicode s); [reflexivity|now rewrite length_map].
  - split.
    + intros E. rewrite <- (LodashFacts.split_concat s), E. reflexivity.
    + intros ->. reflexivity.
Qed.

(* ================================================================= *)
(** ** Further properties: the subsets with [persistOrder] *)

Lemma windows_In_iff n w :
  In w (windows n) <-> fst w < n /\ 1 <= snd w <= n - fst w.
Proof.
  split; [apply windows_In|].
  intros [H1 H2]. destruct w as [start len]. cbn [fst snd] in *.
  unfold windows. apply in_flat_map. exists start. split; [apply in_seq; lia|].
  apply in_map_iff. exists (len - 1). split; [f_equal; lia|apply in_seq; lia].
Qed.

Lemma windows_length n : 2 * List.length (windows n) = n * (n + 1).
Proof.
  unfold windows.
  assert (G : forall m k, k + m = n ->
    2 * List.length
          (flat_map (fun start => map (fun offset => (start, offset + 1))
                                      (seq 0 (n - start)))
                    (seq k m))
    = m * (m + 1)).
  { induction m as [|m IH]; intros k H; [reflexivity|].
    cbn [seq flat_map]. rewrite length_app, length_map, length_seq.
    specialize (IH (S k)). nia. }
  apply G. lia.
Qed.

Lemma slice_split {A : Type} a b (l : list A) :
  l = firstn a l ++ Collection.slice a b l ++ skipn (b - a) (skipn a l).
Proof.
  unfold Collection.slice. now rewrite firstn_skipn, firstn_skipn.
Qed.

(** A joined window of the split query is a part of the query. *)
Lemma window_includes query a b :
  Lodash.includes (stripVariationSelectors query)
    (stripVariationSelectors
       (Lodash.join (Collection.slice a b (Lodash.split query)))) = true.
Proof.
  apply includes_iff.
  exists (stripVariationSelectors (concat (firstn a (Lodash.split query)))),
         (stripVariationSelectors
            (concat (skipn (b - a) (skipn a (Lodash.split query))))).
  rewrite <- !stripVariationSelectors_app. f_equal.
  unfold Lodash.join. rewrite <- !concat_app, <- slice_split.
  symmetry. apply LodashFacts.split_concat.
Qed.

Lemma subsets_ordered_In query s :
  In s (subsets true query) <->
  exists w, In w (windows (List.length (Lodash.split query)))
            /\ s = Lodash.join (Collection.slice (fst w) (fst w + snd w)
                                   (Lodash.split query)).
Proof.
  unfold subsets. split.
  - intros H. apply (Permutation_in _ (sortBy_perm _ _ _)) in H.
    rewrite in_map_iff in H. destruct H as (w & <- & Hw). now exists w.
  - intros (w & Hw & ->).
    apply (Permutation_in _ (Permutation_sym (sortBy_perm _ _ _))).
    apply in_map_iff. now exists w.
Qed.

Lemma subsets_ordered_symbol query s :
  In s (Lodash.split query) -> In s (subsets true query).
Proof.
  intros H. apply subsets_ordered_In.
  apply In_nth_error in H. destruct H as [i Hi].
  assert (L : i < List.length (Lodash.split query))
    by (apply nth_error_Some; congruence).
  exists (i, 1). split; [apply windows_In_iff; cbn [fst snd]; lia|].
  cbn [fst snd]. unfold Collection.slice, Lodash.join.
  replace (i + 1 - i) with 1 by lia.
  destruct (nth_error_split _ _ Hi) as (l1 & l2 & E & Len).
  rewrite E. subst i.
  rewrite skipn_app, Nat.sub_diag, skipn_all. simpl. now rewrite app_nil_r.
Qed.

Lemma subsets_ordered_whole query :
  query <> [] -> In query (subsets true query).
Proof.
  intros H. apply subsets_ordered_In.
  pose proof (LodashFacts.split_length_pos query H) as L.
  exists (0, List.length (Lodash.split query)).
  split; [apply windows_In_iff; cbn [fst snd]; lia|].
  cbn [fst snd]. unfold Collection.slice, Lodash.join.
  rewrite Nat.add_0_l, Nat.sub_0_r. cbn [skipn]. rewrite firstn_all.
  symmetry. apply LodashFacts.split_concat.
Qed.

Lemma subsets_ordered_part query s :
  In s (subsets true query) -> matched query s = true.
Proof.
  intros H. apply subsets_ordered_In in H. destruct H as (w & _ & ->).
  apply window_includes.
Qed.

(** With [persistOrder] the subsets are the joined windows of the split
    query: for [n] symbols there are [n (n + 1) / 2] of them, in
    ascending order of their length in code units; among them are every
    symbol and, for a non-empty query, the query itself; and each one is
    a part of the query. *)
Theorem subsets_ordered (query : jsstring) :
  2 * List.length (subsets true query)
  = List.length (Lodash.split query) * (List.length (Lodash.split query) + 1)
  /\ StronglySorted (fun a b => List.length a <= List.length b)
                    (subsets true query)
  /\ (forall s, In s (Lodash.split query) -> In s (subsets true query))
  /\ (query <> [] -> In query (subsets true query))
  /\ (forall s, In s (subsets true query) -> matched query s = true).
Proof.
  split; [|split; [|split; [|split]]].
  - unfold subsets.
    rewrite (Permutation_length (sortBy_perm _ _ _)), length_map.
    apply windows_length.
  - unfold subsets.
    pose proof (sortBy_sorted (fun a b : nat => b <? a) (@List.length N)
                  (fun _ => True)) as S.
    eapply StronglySorted_weaken with (P := fun _ => True);
      [| |apply S].
    + intros x y _ _ H. unfold ascends in H. apply Nat.ltb_ge in H. exact H.
    + rewrite Forall_forall. auto.
    + intros a b _ _ H. apply Nat.ltb_lt in H. apply Nat.ltb_ge. lia.
    + intros a b c _ _ _ H1 H2. apply Nat.ltb_ge in H1, H2. apply Nat.ltb_ge. lia.
    + rewrite Forall_forall. auto.
  - apply subsets_ordered_symbol.
  - apply subsets_ordered_whole.
  - apply subsets_ordered_part.
Qed.

Lemma subsets_ordered_witness :
  Samples.grinning ++ Samples.sunglasses <> []
  /\ In (Samples.grinning ++ Samples.sunglasses)
        (subsets true (Samples.grinning ++ Samples.sunglasses))
  /\ In Samples.sunglasses (subsets true (Samples.grinning ++ Samples.sunglasses)).
Proof.
  destruct (subsets_ordered (Samples.grinning ++ Samples.sunglasses))
    as (_ & _ & Symbol & Whole & _).
  split; [discriminate|]. split.
  - apply Whole. discriminate.
  - apply Symbol. vm_compute. right. left. reflexivity.
Defined.

Lemma split_join_round_trip_witness :
  Lodash.split Samples.grinning <> []
  /\ Lodash.join (Lodash.split Samples.grinning) = Samples.grinning.
Proof.
  split.
  - intros E. apply (split_join_round_trip Samples.grinning) in E. discriminate.
  - apply (split_join_round_trip Samples.grinning).
Defined.

(* ================================================================= *)
(** ** Further properties: [measure2] and the match list *)

Lemma list_sum_filter_zero (f : jsstring -> nat) (p : jsstring -> bool) l :
  Forall (fun s => 1 <= f s) l ->
  (list_sum (map f (filter p l)) = 0 <-> forall s, In s l -> p s = false).
Proof.
  induction 1 as [|s l P F IH]; simpl.
  - split; [intros _ ? []|reflexivity].
  - destruct (p s) eqn:E; simpl.
    + split; [lia|]. intros H. specialize (H s (or_introl eq_refl)). congruence.
    + rewrite IH. split.
      * intros H x [<-|Hx]; auto.
      * intros H x Hx. apply H. now right.
Qed.

Lemma measure2_of_bounds persistOrder query emoji :
  isAscii query = false ->
  measure2_of (subsets persistOrder query) emoji
  = Num (Q_of_nat (snd (match_subsets (subsets persistOrder query) emoji))
         / Q_of_nat (subsetLengthSum (subsets persistOrder query)))
  /\ (0 < Q_of_nat (subsetLengthSum (subsets persistOrder query)))%Q
  /\ (0 <= Q_of_nat (snd (match_subsets (subsets persistOrder query) emoji))
            / Q_of_nat (subsetLengthSum (subsets persistOrder query)) <= 1)%Q.
Proof.
  intros A. set (subs := subsets persistOrder query).
  pose proof (subsetLengthSum_pos persistOrder query A) as P. fold subs in P.
  pose proof (match_subsets_total_le emoji subs) as L.
  assert (B : (0 < Q_of_nat (subsetLengthSum subs))%Q).
  { change 0%Q with (Q_of_nat 0). unfold Q_of_nat. rewrite <- Zlt_Qlt. lia. }
  split; [unfold measure2_of; now rewrite num_div_nat by lia|].
  split; [exact B|]. split.
  - apply Qle_shift_div_l; [exact B|]. rewrite Qmult_0_l.
    change 0%Q with (Q_of_nat 0). apply Q_of_nat_le. lia.
  - apply Qdiv_nat_le_one; lia.
Qed.

(** Whenever the n-gram block runs, [measure2] is a number between 0 and
    1; it is 0 exactly when no subset of the query occurs in the
    document's emoji sequence. *)
Theorem measure2_range (persistOrder : bool) (query emoji : jsstring) :
  isAscii query = false ->
  exists q,
    measure2_of (subsets persistOrder query) emoji = Num q
    /\ (0 <= q <= 1)%Q
    /\ ((q == 0)%Q <-> forall s, In s (subsets persistOrder query) ->
                                 matched emoji s = false).
Proof.
  intros A.
  destruct (measure2_of_bounds persistOrder query emoji A) as (E & B & R).
  set (subs := subsets persistOrder query) in *.
  eexists. split; [exact E|]. split; [exact R|].
  rewrite <- (list_sum_filter_zero Lodash.size (matched emoji) subs)
    by apply subsets_size_pos.
  rewrite <- match_subsets_total.
  rewrite <- (Q_of_nat_eq _ 0). change (Q_of_nat 0) with 0%Q.
  split; intros H.
  - rewrite <- (Qmult_div_r (Q_of_nat (snd (match_subsets subs emoji)))
                  (Q_of_nat (subsetLengthSum subs))) by lra.
    rewrite H. ring.
  - rewrite H. unfold Qdiv. ring.
Qed.

Lemma measure2_range_witness :
  isAscii Samples.grinning = false
  /\ exists q,
       measure2_of (subsets false Samples.grinning) Samples.sunglasses = Num q
       /\ (0 <= q <= 1)%Q.
Proof.
  split; [reflexivity|].
  destruct (measure2_range false Samples.grinning Samples.sunglasses eq_refl)
    as (q & E & R & _).
  now exists q.
Defined.

(** What a perfect match means.  With [persistOrder], [measure2 === 1]
    says that the whole query occurs in the document's emoji sequence as
    one run (variation selectors aside); without it, that every symbol of
    the query occurs somewhere in it.  The first implies the second. *)
Theorem perfect_match_meaning (query emoji : jsstring) :
  isAscii query = false ->
  (js_strict_eq (measure2_of (subsets true query) emoji) (Num 1) = true
   <-> matched emoji query = true)
  /\ (js_strict_eq (measure2_of (subsets false query) emoji) (Num 1) = true
      <-> forall s, In s (Lodash.split query) -> matched emoji s = true)
  /\ (js_strict_eq (measure2_of (subsets true query) emoji) (Num 1) = true ->
      js_strict_eq (measure2_of (subsets false query) emoji) (Num 1) = true).
Proof.
  intros A.
  assert (G : forall p,
    js_strict_eq (measure2_of (subsets p query) emoji) (Num 1) = true
    <-> Forall (fun s => matched emoji s = true) (subsets p query)).
  { intros p. unfold measure2_of. rewrite perfect_iff.
    pose proof (subsetLengthSum_pos p query A) as P. split.
    - intros [E _]. apply match_subsets_total_full; [apply subsets_size_pos|exact E].
    - intros F. split; [now apply match_subsets_total_all|lia]. }
  assert (O : Forall (fun s => matched emoji s = true) (subsets true query)
              <-> matched emoji query = true).
  { rewrite Forall_forall. split.
    - intros H. apply H, subsets_ordered_whole. now apply isAscii_false_nonempty.
    - intros H s Hs. apply subsets_ordered_part in Hs.
      unfold matched in *.
      now apply (includes_trans _ (stripVariationSelectors query)). }
  assert (U : Forall (fun s => matched emoji s = true) (subsets false query)
              <-> forall s, In s (Lodash.split query) -> matched emoji s = true).
  { apply Forall_forall. }
  split; [now rewrite G, O|]. split; [now rewrite G, U|].
  intros H. apply G. apply G in H. apply U. rewrite Forall_forall in H.
  intros s Hs. apply H, subsets_ordered_symbol, Hs.
Qed.

Lemma perfect_match_meaning_witness :
  isAscii (Samples.sunglasses ++ Samples.grinning) = false
  /\ matched (Samples.grinning ++ Samples.sunglasses)
             (Samples.sunglasses ++ Samples.grinning) = false
  /\ js_strict_eq
       (measure2_of (subsets true (Samples.sunglasses ++ Samples.grinning))
                    (Samples.grinning ++ Samples.sunglasses)) (Num 1) = false
  /\ js_strict_eq
       (measure2_of (subsets false (Samples.sunglasses ++ Samples.grinning))
                    (Samples.grinning ++ Samples.sunglasses)) (Num 1) = true.
Proof.
  pose proof (perfect_match_meaning (Samples.sunglasses ++ Samples.grinning)
                (Samples.grinning ++ Samples.sunglasses) eq_refl) as (O & U & _).
  split; [reflexivity|]. split; [reflexivity|]. split.
  - destruct (js_strict_eq _ _) eqn:E; [|reflexivity].
    pose proof (proj1 O eq_refl) as X. vm_compute in X. discriminate X.
  - apply U. intros s [<-|[<-|[]]]; reflexivity.
Defined.



(* ================================================================= *)
(** ** Further properties: the result of a search *)

Lemma ngram_of_fields subs t :
  t_emoji (ngram_of subs t) = t_emoji t
  /\ t_meta (ngram_of subs t) = t_meta t
  /\ t_measure1 (ngram_of subs t) = t_measure1 t.
Proof. unfold ngram_of. destruct (t_emoji t) eqn:E; cbn; auto. Qed.

Lemma policy_nil opts : policy opts [] = [].
Proof. unfold policy, filtered, ranked. cbn. apply firstn_nil. Qed.

Lemma policy_In opts c e : In e (policy opts c) -> In e c.
Proof.
  unfold policy. intros H.
  now apply In_firstn, ranked_In, filtered_incl in H.
Qed.

Lemma policy_length opts c : List.length (policy opts c) <= List.length c.
Proof.
  unfold policy. rewrite length_firstn, ranked_length. unfold filtered.
  etransitivity; [apply Nat.le_min_r|].
  etransitivity; [apply filter_length_le|].
  etransitivity; [apply filter_length_le|]. apply filter_length_le.
Qed.

Lemma max_nat_attained l :
  l <> [] -> exists x, Collection.max_nat l = Some x /\ In x l.
Proof.
  destruct l as [|a l]; [congruence|]. intros _. simpl.
  eexists. split; [reflexivity|].
  revert a. induction l as [|b l IH]; intros a; simpl; [now left|].
  destruct (IH (Nat.max a b)) as [H|H]; [|now right; right].
  destruct (Nat.max_spec a b) as [[_ E]|[_ E]]; rewrite E in *;
    [right; left; exact H|left; exact H].
Qed.

Lemma max_num_attained l :
  l <> [] -> Forall (fun a => a <> NaN) l ->
  exists m, Collection.max_num l = Some m /\ In m l.
Proof.
  intros N F. unfold Collection.max_num.
  assert (G : forall rest acc,
    fold_left Collection.max_step rest (Some acc) = Some acc
    \/ exists m, fold_left Collection.max_step rest (Some acc) = Some m
                 /\ In m rest).
  { induction rest as [|x rest IH]; intros acc; [now left|].
    cbn [fold_left Collection.max_step].
    destruct (js_gt x acc).
    - destruct (IH x) as [H|(m & H & I)].
      + right. exists x. split; [exact H|now left].
      + right. exists m. split; [exact H|now right].
    - destruct (IH acc) as [H|(m & H & I)]; [now left|].
      right. exists m. split; [exact H|now right]. }
  destruct l as [|x l]; [congruence|]. inversion F as [|? ? Hx _]; subst.
  cbn [fold_left]. assert (E : Collection.max_step None x = Some x)
    by (destruct x; [reflexivity|congruence|reflexivity|reflexivity]).
  rewrite E. destruct (G l x) as [H|(m & H & I)].
  - exists x. split; [exact H|now left].
  - exists m. split; [exact H|now right].
Qed.

Lemma js_strict_eq_refl a : a <> NaN -> js_strict_eq a a = true.
Proof.
  destruct a; simpl; try congruence. intros _. apply Qeq_bool_iff, Qeq_refl.
Qed.

Lemma take_count_pos limit : (1 <= limit)%Q -> 1 <= take_count limit.
Proof.
  intros H. unfold take_count.
  assert (E : Qle_bool 0 limit = true) by (apply Qle_bool_iff; lra).
  rewrite E.
  assert (P : (1 <= Qfloor limit)%Z).
  { change 1%Z with (Qfloor 1). now apply Qfloor_resp_le. }
  lia.
Qed.

Section Results.
Variable tfidf_measure : list tfdoc -> jsstring -> nat -> Q.
Variable convertEmojiToKeywords : jsstring -> list jsstring.
Variable isPointInside : json -> list (jsnum * jsnum) -> bool.
Variable isPointInCircle : json -> obj json -> jsnum -> bool.

Let cands :=
  candidates tfidf_measure convertEmojiToKeywords isPointInside isPointInCircle.
Let run :=
  run_search tfidf_measure convertEmojiToKeywords isPointInside isPointInCircle.
Let terms := scored tfidf_measure convertEmojiToKeywords.

Lemma run_Some st query opts l :
  run st query opts = Some l <->
  exists c, cands st query opts = Some c /\ l = policy opts c.
Proof.
  unfold run, run_search. fold cands.
  destruct (cands st query opts) as [c|]; split.
  - intros [= <-]. now exists c.
  - intros (c' & [= <-] & ->). reflexivity.
  - discriminate.
  - intros (c' & H & _). discriminate.
Qed.

Lemma cands_ascii_Some st query opts :
  isAscii query = true -> exists c, cands st query opts = Some c.
Proof.
  intros A. unfold cands, candidates, ngram_block. rewrite A. cbn [negb].
  eexists. reflexivity.
Qed.


(** Every candidate carries the emoji and the meta of a key of the
    index. *)
Lemma cands_source st query opts c e :
  cands st query opts = Some c -> In e c ->
  exists k, In k (map doc_key (tfidf st))
            /\ t_emoji (e_term e) = obj_get k (emojis st)
            /\ t_meta (e_term e) = meta_of st k.
Proof.
  intros C H.
  destruct (candidates_In _ _ _ _ _ _ _ c e C H) as (r & t & N & Ht & E & _).
  assert (S : exists t0, In t0 (terms st query)
                         /\ t_emoji t = t_emoji t0 /\ t_meta t = t_meta t0).
  { unfold ngram_block in N. destruct (negb (isAscii query)).
    - apply each_ngram_inv in N. destruct N as [-> _].
      rewrite in_map_iff in Ht. destruct Ht as (t0 & <- & Ht0).
      exists t0. destruct (ngram_of_fields (subsets (persistOrder opts) query) t0)
        as (E1 & E2 & _). auto.
    - injection N as <-. now exists t. }
  destruct S as (t0 & I0 & E1 & E2).
  apply scored_In in I0. destruct I0 as (k & K & Em & Me & _).
  exists k. split; [exact K|]. rewrite E.
  destruct (enableFuzzySearch opts); cbn [set_measure1 t_emoji t_meta];
    rewrite E1, E2; auto.
Qed.

(** A search invents nothing: it returns at most one entry per document
    of the index, each with a combined measure that is not zero and with
    the emoji and the meta stored under one key of the index.  On an
    empty index the result is empty. *)
Theorem results_come_from_index
    (st : index) (query : jsstring) (opts : options) (l : list entry) :
  run st query opts = Some l ->
  List.length l <= List.length (tfidf st)
  /\ (tfidf st = [] -> l = [])
  /\ forall e, In e l ->
       js_truthy (e_measure e) = true
       /\ exists k, In k (map doc_key (tfidf st))
                    /\ t_emoji (e_term e) = obj_get k (emojis st)
                    /\ t_meta (e_term e) = meta_of st k.
Proof.
  intros R. apply run_Some in R. destruct R as (c & C & ->).
  pose proof (candidates_length _ _ _ _ _ _ _ c C) as L.
  pose proof (policy_length opts c) as P.
  split; [lia|]. split.
  - intros E. rewrite E in L. simpl in L.
    destruct (policy opts c); [reflexivity|simpl in P; lia].
  - intros e H. apply policy_In in H. split.
    + now destruct (candidates_In _ _ _ _ _ _ _ c e C H) as (_ & _ & _ & _ & _ & _ & T).
    + now apply (cands_source st query opts c).
Qed.


(** A plain query finds something only through [measure1]: with
    [enableFuzzySearch] off, or with [onlyKeepPerfectMatch] on, its
    result is empty whatever the other options and the index are. *)
Theorem plain_query_needs_fuzzy_search
    (st : index) (query : jsstring) (opts : options) :
  isAscii query = true ->
  enableFuzzySearch opts = false \/ onlyKeepPerfectMatch opts = true ->
  run st query opts = Some [].
Proof.
  intros A H. destruct (cands_ascii_Some st query opts A) as [c C].
  apply run_Some. exists c. split; [exact C|].
  destruct H as [Z|P].
  - assert (E : c = []).
    { destruct c as [|e c]; [reflexivity|]. exfalso.
      assert (I : In e (e :: c)) by now left.
      pose proof (candidates_ascii _ _ _ _ _ _ _ _ e A C I) as M2.
      pose proof (candidates_zero _ _ _ _ _ _ _ _ e Z C I) as M1.
      destruct (candidates_In _ _ _ _ _ _ _ _ e C I) as (_ & _ & _ & _ & _ & E & T).
      rewrite E in T. unfold combine_measure, measure2_or0 in T.
      cbn [e_measure] in T. rewrite M1, M2 in T. discriminate. }
    subst c. symmetry. apply policy_nil.
  - unfold policy, filtered. rewrite P.
    rewrite (filter_none (filterPerfectMatch true) c).
    + symmetry. apply (policy_nil opts).
    + intros e I. unfold filterPerfectMatch.
      now rewrite (candidates_ascii _ _ _ _ _ _ _ _ e A C I).
Qed.

(** With [enableFuzzySearch] off the combined measure is [measure2]
    alone: every entry of the result belongs to an emoji query, has
    [measure1] 0, and a combined measure equal to its [measure2], above 0
    and at most 1. *)
Theorem without_fuzzy_search_measure_is_measure2
    (st : index) (query : jsstring) (opts : options) (l : list entry) (e : entry) :
  enableFuzzySearch opts = false ->
  run st query opts = Some l -> In e l ->
  isAscii query = false
  /\ t_measure1 (e_term e) = Num 0
  /\ exists x m,
       e_measure e = Num x /\ t_measure2 (e_term e) = Some (Num m)
       /\ (x == m)%Q /\ (0 < x <= 1)%Q.
Proof.
  intros Z R I. apply run_Some in R. destruct R as (c & C & ->).
  apply policy_In in I.
  destruct (isAscii query) eqn:A.
  { exfalso.
    pose proof (candidates_ascii _ _ _ _ _ _ _ _ e A C I) as M2.
    pose proof (candidates_zero _ _ _ _ _ _ _ _ e Z C I) as M1.
    destruct (candidates_In _ _ _ _ _ _ _ _ e C I) as (_ & _ & _ & _ & _ & E & T).
    rewrite E in T. unfold combine_measure, measure2_or0 in T.
    cbn [e_measure] in T. rewrite M1, M2 in T. discriminate. }
  split; [reflexivity|].
  pose proof (candidates_zero _ _ _ _ _ _ _ _ e Z C I) as M1.
  split; [exact M1|].
  destruct (candidates_shape _ _ _ _ _ _ _ _ e A C I) as (emoji & M2 & _).
  destruct (measure2_of_bounds (persistOrder opts) query emoji A) as (Eq & _ & R).
  rewrite Eq in M2.
  set (q := (Q_of_nat _ / Q_of_nat _)%Q) in *.
  destruct (candidates_In _ _ _ _ _ _ _ _ e C I) as (_ & _ & _ & _ & _ & E & T).
  rewrite E in T |- *. unfold combine_measure, measure2_or0 in *.
  cbn [e_measure e_term] in *. rewrite M1, M2 in *. rewrite js_or0_zero in *.
  unfold js_or0, js_truthy in *.
  destruct (Qeq_bool q 0) eqn:Q0; cbn [negb js_add] in *; [discriminate|].
  exists (0 + q)%Q, q. split; [reflexivity|]. split; [reflexivity|].
  split; [ring|].
  assert (N : ~ (q == 0)%Q).
  { intros X. apply Qeq_bool_iff in X. congruence. }
  rewrite Qplus_0_l. split; [|tauto].
  destruct R as [R0 _]. apply Qle_lt_or_eq in R0. destruct R0 as [R0|R0]; [exact R0|].
  exfalso. apply N. now symmetry.
Qed.

(** One truncation alone never empties a result.  Without the
    perfect-match filter, and with at most one of [truncateSmallMatches]
    and [truncateSmallScore] on, a search that has candidates returns
    something as soon as [limit] is 1 or more: the maximum that the
    filter asks for is reached by a candidate. *)
Theorem single_truncation_keeps_an_entry
    (st : index) (query : jsstring) (opts : options) (c : list entry) :
  cands st query opts = Some c -> c <> [] ->
  onlyKeepPerfectMatch opts = false ->
  truncateSmallMatches opts = false \/ truncateSmallScore opts = false ->
  (1 <= limit opts)%Q ->
  exists l, run st query opts = Some l /\ l <> [].
Proof.
  intros C N P T L. exists (policy opts c).
  split; [apply run_Some; now exists c|].
  assert (F : exists e, In e (filtered opts c)).
  { unfold filtered. rewrite P.
    assert (Id : filter (filterPerfectMatch false) c = c)
      by (apply filter_all; reflexivity).
    rewrite Id.
    destruct (truncateSmallMatches opts) eqn:TM.
    - destruct T as [T|T]; [discriminate|]. rewrite T.
      destruct (max_nat_attained (map matches_size c)) as (x & Hx & Ix).
      { destruct c; [congruence|discriminate]. }
      rewrite in_map_iff in Ix. destruct Ix as (e & <- & Ie).
      exists e. rewrite !filter_In. split; [split; [exact Ie|]|reflexivity].
      unfold filterSmallMatch. rewrite Hx. apply Nat.eqb_refl.
    - assert (Id2 : filter (filterSmallMatch false
                     (Collection.max_nat (map matches_size c))) c = c)
        by (apply filter_all; reflexivity).
      rewrite Id2.
      destruct (truncateSmallScore opts) eqn:TS.
      + assert (G : Forall (fun a => a <> NaN) (map e_measure c)).
        { rewrite Forall_forall. intros a Ha. rewrite in_map_iff in Ha.
          destruct Ha as (e & <- & Ie). apply js_truthy_not_NaN.
          now destruct (candidates_In _ _ _ _ _ _ _ _ e C Ie)
            as (_ & _ & _ & _ & _ & _ & X). }
        destruct (max_num_attained (map e_measure c)) as (m & Hm & Im).
        { destruct c; [congruence|discriminate]. }
        { exact G. }
        rewrite Forall_forall in G. pose proof (G m Im) as Gm.
        rewrite in_map_iff in Im. destruct Im as (e & <- & Ie).
        exists e. rewrite filter_In. split; [exact Ie|].
        unfold filterSmallScore. rewrite Hm. now apply js_strict_eq_refl.
      + destruct c as [|e c]; [congruence|]. exists e.
        rewrite filter_In. split; [now left|reflexivity]. }
  destruct F as (e & Ie). apply ranked_In in Ie.
  unfold policy. pose proof (take_count_pos _ L) as K.
  destruct (take_count (limit opts)) as [|n]; [lia|].
  destruct (ranked (filtered opts c)); [contradiction|discriminate].
Qed.
End Results.

Lemma results_come_from_index_witness :
  exists l,
    Samples.run (memory Samples.two_documents) Samples.grinning default_options
    = Some l
    /\ List.length l <= 2
    /\ forall e, In e l -> js_truthy (e_measure e) = true.
Proof.
  eexists. split; [reflexivity|].
  destruct (results_come_from_index Samples.measure Samples.keywords
              Samples.outside Samples.outside_circle
              (memory Samples.two_documents) Samples.grinning default_options
              _ eq_refl) as (L & _ & F).
  split; [exact L|]. intros e H. now destruct (F e H).
Defined.


Lemma plain_query_needs_fuzzy_search_witness :
  isAscii [0x68; 0x69]%N = true
  /\ enableFuzzySearch (Samples.loose false) = false
  /\ Samples.run (memory Samples.two_documents) [0x68; 0x69]%N
       (Samples.loose false) = Some [].
Proof.
  split; [reflexivity|]. split; [reflexivity|].
  apply (plain_query_needs_fuzzy_search Samples.measure Samples.keywords
           Samples.outside Samples.outside_circle);
    [reflexivity|left; reflexivity].
Defined.

Lemma without_fuzzy_search_measure_is_measure2_witness :
  exists l e,
    enableFuzzySearch default_options = false
    /\ Samples.run (memory Samples.two_documents) Samples.grinning default_options
       = Some l
    /\ In e l
    /\ t_measure1 (e_term e) = Num 0.
Proof.
  eexists. eexists. split; [reflexivity|]. split; [reflexivity|].
  split; [left; reflexivity|].
  eapply (without_fuzzy_search_measure_is_measure2 Samples.measure
            Samples.keywords Samples.outside Samples.outside_circle
            (memory Samples.two_documents) Samples.grinning default_options);
    [reflexivity|reflexivity|left; reflexivity].
Defined.

Lemma single_truncation_keeps_an_entry_witness :
  let query := (Samples.grinning ++ Samples.grinning ++ Samples.sunglasses)%list in
  exists c,
    Samples.candidates_of (memory Samples.two_faces) query (Samples.loose false)
    = Some c
    /\ c <> []
    /\ exists l, Samples.run (memory Samples.two_faces) query (Samples.loose false)
                 = Some l /\ l <> [].
Proof.
  cbv zeta. eexists. split; [vm_compute; reflexivity|].
  split; [discriminate|].
  eapply (single_truncation_keeps_an_entry Samples.measure Samples.keywords
            Samples.outside Samples.outside_circle);
    [vm_compute; reflexivity|discriminate|reflexivity|right; reflexivity|].
  unfold Qle. simpl. lia.
Defined.

(** Both truncations together can empty a result: the maxima are taken
    before either filter runs, and here one document has the longest
    match list and the other the highest measure. *)
Example both_truncations_can_empty_the_result :
  let query := (Samples.grinning ++ Samples.grinning ++ Samples.grinning
                ++ Samples.sunglasses ++ [0x263A%N])%list in
  let index :=
    memory (snd (Samples.post "doc-b"
                   (Samples.document Samples.grinning (Samples.tagged 2))
                   (snd (Samples.post "doc-a"
                           (Samples.document
                              (Samples.sunglasses ++ [0x263A%N])%list
                              (Samples.tagged 1))
                           Samples.start)))) in
  option_map (@List.length entry)
    (Samples.candidates_of index query (Samples.loose true)) = Some 2
  /\ Samples.run index query (Samples.loose true) = Some [].
Proof. split; reflexivity. Qed.

(* ================================================================= *)
(** ** Further properties: what the schemas accept *)

Lemma noAdditional_iff ks g :
  Ajv.noAdditional ks g = true <-> forall k v, In (k, v) g -> In k ks.
Proof.
  unfold Ajv.noAdditional. rewrite forallb_forall. split.
  - intros H k v I. specialize (H _ I). cbn [fst] in H.
    apply existsb_exists in H. destruct H as (k' & I' & E).
    apply String.eqb_eq in E. now subst.
  - intros H [k v] I. cbn [fst]. apply existsb_exists.
    exists k. split; [eapply H, I|apply String.eqb_refl].
Qed.

Lemma number_field_iff k g :
  Ajv.property k Ajv.type_number g && obj_has k g = true
  <-> exists a, obj_get k g = Some (JNum a).
Proof.
  unfold Ajv.property, obj_has.
  destruct (obj_get k g) as [[| |a| | |]|]; cbn; split;
    try discriminate; try (intros [a' H]; discriminate).
  - intros _. now exists a.
  - reflexivity.
Qed.

Lemma geolocationSchema_iff j :
  Ajv.geolocationSchema j = true <->
  exists g a b,
    j = JObj g
    /\ obj_get "latitude" g = Some (JNum a)
    /\ obj_get "longitude" g = Some (JNum b)
    /\ forall k v, In (k, v) g -> k = "latitude"%string \/ k = "longitude"%string.
Proof.
  destruct j as [| | | | |g]; cbn [Ajv.geolocationSchema];
    try (split; [discriminate|intros (? & ? & ? & H & _); discriminate]).
  unfold Ajv.required. cbn [forallb].
  pose proof (number_field_iff "latitude" g) as LA.
  pose proof (number_field_iff "longitude" g) as LO.
  pose proof (noAdditional_iff ["latitude"%string; "longitude"%string] g) as NA.
  rewrite andb_true_iff in LA, LO. rewrite !andb_true_iff. split.
  - intros [[[P1 P2] [R1 [R2 _]]] No].
    destruct (proj1 LA (conj P1 R1)) as [a Ha].
    destruct (proj1 LO (conj P2 R2)) as [b Hb].
    exists g, a, b. repeat split; auto.
    intros k v I. destruct (proj1 NA No k v I) as [<-|[<-|[]]]; auto.
  - intros (g' & a & b & E & Ha & Hb & No). injection E as E. subst g'.
    destruct (proj2 LA (ex_intro _ a Ha)) as [A1 A2].
    destruct (proj2 LO (ex_intro _ b Hb)) as [B1 B2].
    repeat split; auto. apply NA.
    intros k v I. destruct (No k v I) as [-> | ->]; simpl; auto.
Qed.

Lemma geolocation_accepted_iff j :
  Ajv.oneOf [Ajv.geolocationSchema; Ajv.type_null] j = true
  <-> geolocation_accepted j.
Proof.
  unfold geolocation_accepted, Ajv.oneOf.
  rewrite <- geolocationSchema_iff. cbn [filter].
  destruct j as [| | | | |g]; cbn [Ajv.type_null].
  6: destruct (Ajv.geolocationSchema (JObj g)).
  all: cbn; split; auto; try discriminate.
  all: intros [H|H]; discriminate.
Qed.

Lemma meta_accepted_iff j :
  Ajv.oneOf [Ajv.metaSchema; Ajv.type_null] j = true <-> meta_accepted j.
Proof.
  unfold meta_accepted, Ajv.oneOf. cbn [filter].
  destruct j as [| | | | |m]; cbn [Ajv.type_null Ajv.metaSchema].
  1-5: cbn; split; auto; try discriminate.
  1-4: intros [H|(? & H & _)]; discriminate.
  unfold Ajv.property.
  destruct (obj_get "geolocation" m) as [g|] eqn:G.
  - pose proof (geolocation_accepted_iff g) as GA.
    destruct (Ajv.oneOf [Ajv.geolocationSchema; Ajv.type_null] g); cbn; split.
    + intros _. right. exists m. split; [reflexivity|].
      intros g' E. assert (g' = g) by congruence. subst g'. now apply GA.
    + reflexivity.
    + discriminate.
    + intros [H|(m' & E & H)]; [discriminate|].
      assert (m' = m) by congruence. subst m'.
      specialize (H g G). apply GA in H. discriminate.
  - cbn. split; [|reflexivity]. intros _. right. exists m.
    split; [reflexivity|]. intros g. rewrite G. discriminate.
Qed.

Lemma documentPostValidate_iff body :
  Ajv.documentPostValidate body = true <->
  (exists emoji, obj_get "emoji" body = Some (JStr emoji))
  /\ (forall m, obj_get "meta" body = Some m -> meta_accepted m).
Proof.
  split.
  - intros V. split; [now apply documentPostValidate_emoji|].
    intros m Hm. apply meta_accepted_iff.
    unfold Ajv.documentPostValidate in V.
    apply andb_prop in V. destruct V as [V _].
    apply andb_prop in V. destruct V as [_ V].
    unfold Ajv.property in V. now rewrite Hm in V.
  - intros [[emoji E] M].
    unfold Ajv.documentPostValidate, Ajv.required, Ajv.property, obj_has.
    cbn [forallb]. rewrite E. cbn [Ajv.type_string andb].
    destruct (obj_get "meta" body) as [m|]; [|reflexivity].
    now rewrite (proj2 (meta_accepted_iff m) (M m eq_refl)).
Qed.

Section MorePosts.
Variable convertEmojiToKeywords : jsstring -> list jsstring.

Let post := post_documents convertEmojiToKeywords.

Lemma post_Created_iff key body s :
  fst (post key body s) = Created <-> Ajv.documentPostValidate body = true.
Proof.
  unfold post, post_documents.
  destruct (Ajv.documentPostValidate body) eqn:V; cbn [negb].
  - destruct (documentPostValidate_emoji body V) as [emoji E]. rewrite E.
    split; reflexivity.
  - split; discriminate.
Qed.

(** One step of a run: an accepted post appends one document and binds
    its key in [emojis] and [meta]; a refused one changes nothing. *)
Lemma post_step key body s :
  if Ajv.documentPostValidate body then
    exists emoji,
      obj_get "emoji" body = Some (JStr emoji)
      /\ tfidf (memory (snd (post key body s))) =
         tfidf (memory s) ++
         [{| doc_text := join_space (convertEmojiToKeywords emoji);
             doc_key := key |}]
      /\ meta (memory (snd (post key body s)))
         = obj_set key (obj_get "meta" body) (meta (memory s))
      /\ emojis (memory (snd (post key body s)))
         = obj_set key emoji (emojis (memory s))
      /\ database (snd (post key body s)) = Some (memory (snd (post key body s)))
  else snd (post key body s) = s.
Proof.
  destruct (Ajv.documentPostValidate body) eqn:V.
  - destruct (post key body s) as [st s'] eqn:E.
    assert (C : st = Created).
    { change st with (fst (st, s')). rewrite <- E. now apply post_Created_iff. }
    subst st. apply post_documents_Created in E. exact E.
  - unfold post, post_documents. now rewrite V.
Qed.


(** What an accepted post stores can be read back: the emoji and the
    meta under the new key, the document at the end of the index, the
    bindings of all other keys untouched, and the whole index in the
    snapshot. *)
Theorem post_stores_document
    (key : string) (body : obj json) (s s' : server) :
  post key body s = (Created, s') ->
  exists emoji,
    obj_get "emoji" body = Some (JStr emoji)
    /\ obj_get key (emojis (memory s')) = Some emoji
    /\ meta_of (memory s') key = obj_get "meta" body
    /\ tfidf (memory s') =
       tfidf (memory s) ++
       [{| doc_text := join_space (convertEmojiToKeywords emoji);
           doc_key := key |}]
    /\ (forall k, k <> key ->
          obj_get k (emojis (memory s')) = obj_get k (emojis (memory s))
          /\ meta_of (memory s') k = meta_of (memory s) k)
    /\ database s' = Some (memory s').
Proof.
  intros H. apply post_documents_Created in H.
  destruct H as (emoji & E & T & M & Em & D).
  exists emoji. split; [exact E|]. split; [|split; [|split; [exact T|split; [|exact D]]]].
  - rewrite Em. apply obj_get_set_same.
  - unfold meta_of. now rewrite M, obj_get_set_same.
  - intros k N. unfold meta_of. rewrite Em, M.
    now rewrite !obj_get_set_other by congruence.
Qed.

(** A body without [meta] is stored without location, whatever else it
    holds: a [geolocation] next to [emoji], as the comment of lines 84-88
    names it, is neither checked nor kept, and the document passes every
    geofence. *)
Theorem post_without_meta_has_no_location
    (key : string) (body : obj json) (s : server) (emoji : jsstring) :
  obj_get "emoji" body = Some (JStr emoji) ->
  obj_get "meta" body = None ->
  fst (post key body s) = Created
  /\ meta_of (memory (snd (post key body s))) key = None
  /\ forall t, t_meta t = meta_of (memory (snd (post key body s))) key ->
               has_geolocation t = false.
Proof.
  intros E M.
  assert (V : Ajv.documentPostValidate body = true).
  { apply documentPostValidate_iff. split; [now exists emoji|].
    intros m. rewrite M. discriminate. }
  assert (N : meta_of (memory (snd (post key body s))) key = None).
  { pose proof (post_step key body s) as S. rewrite V in S.
    destruct S as (emoji' & _ & _ & Me & _).
    unfold meta_of. now rewrite Me, obj_get_set_same, M. }
  split; [now apply post_Created_iff|]. split; [exact N|].
  intros t H. unfold has_geolocation, geolocation_of. now rewrite H, N.
Qed.





End MorePosts.


Lemma post_stores_document_witness :
  let body := Samples.document Samples.sunglasses (Samples.tagged 3) in
  let s' := snd (Samples.post "doc-c" body Samples.two_documents) in
  Samples.post "doc-c" body Samples.two_documents = (Created, s')
  /\ obj_get "doc-c" (emojis (memory s')) = Some Samples.sunglasses
  /\ meta_of (memory s') "doc-c" = Some (Samples.tagged 3)
  /\ database s' = Some (memory s').
Proof.
  cbv zeta. split; [reflexivity|].
  destruct (post_stores_document Samples.keywords "doc-c"
              (Samples.document Samples.sunglasses (Samples.tagged 3))
              Samples.two_documents
              (snd (Samples.post "doc-c"
                      (Samples.document Samples.sunglasses (Samples.tagged 3))
                      Samples.two_documents)) eq_refl)
    as (emoji & E & Em & M & _ & _ & D).
  injection E as <-. repeat split; assumption.
Defined.

Lemma post_without_meta_has_no_location_witness :
  let body := [("emoji"%string, JStr Samples.grinning);
               ("geolocation"%string, JStr Samples.grinning)] in
  obj_get "emoji" body = Some (JStr Samples.grinning)
  /\ obj_get "meta" body = None
  /\ fst (Samples.post "doc-c" body Samples.start) = Created
  /\ meta_of (memory (snd (Samples.post "doc-c" body Samples.start))) "doc-c"
     = None.
Proof.
  cbv zeta. split; [reflexivity|]. split; [reflexivity|].
  destruct (post_without_meta_has_no_location Samples.keywords "doc-c"
              [("emoji"%string, JStr Samples.grinning);
               ("geolocation"%string, JStr Samples.grinning)]
              Samples.start Samples.grinning eq_refl eq_refl) as (C & M & _).
  split; assumption.
Defined.


(* ================================================================= *)
(** ** Further properties: the snapshot and a restart *)









Section Restart.
Variable tfidf_measure : list tfdoc -> jsstring -> nat -> Q.
Variable convertEmojiToKeywords : jsstring -> list jsstring.
Variable isPointInside : json -> list (jsnum * jsnum) -> bool.
Variable isPointInCircle : json -> obj json -> jsnum -> bool.
Variable JSON_parse : json -> option json.


End Restart.


(** After the restart the key posted without [meta] is no longer bound
    in [meta]; before, it was bound to undefined. *)
Example restart_drops_undefined_meta :
  let s := post_all Samples.keywords
             [("doc-c"%string, [("emoji"%string, JStr Samples.sunglasses)])]
             Samples.start in
  obj_has "doc-c" (meta (memory s)) = true
  /\ obj_has "doc-c" (meta (memory (startup (database s)))) = false.
Proof. split; reflexivity. Qed.

(* ================================================================= *)
(** ** Further properties: a query that matches no word *)

Section Unmatched.
Variable tfidf_measure : list tfdoc -> jsstring -> nat -> Q.
Variable convertEmojiToKeywords : jsstring -> list jsstring.
Variable isPointInside : json -> list (jsnum * jsnum) -> bool.
Variable isPointInCircle : json -> obj json -> jsnum -> bool.

Lemma tfidfs_zero_fold st kws ids acc :
  (forall id, In id ids -> (tfidf_measure (tfidf st) kws (fst id) == 0)%Q) ->
  (snd acc == 0)%Q ->
  (forall kr, In kr (fst acc) -> (r_measure1 (snd kr) == 0)%Q) ->
  (snd (fold_left (tfidfs_callback tfidf_measure st kws) ids acc) == 0)%Q
  /\ forall kr,
       In kr (fst (fold_left (tfidfs_callback tfidf_measure st kws) ids acc)) ->
       (r_measure1 (snd kr) == 0)%Q.
Proof.
  revert acc. induction ids as [|id ids IH]; intros acc Z S F; [now split|].
  cbn [fold_left]. apply IH.
  - intros id' H. apply Z. now right.
  - unfold tfidfs_callback. cbn [snd]. rewrite S, (Z id) by now left.
    reflexivity.
  - unfold tfidfs_callback. cbn [fst]. intros kr H.
    apply obj_set_In in H. destruct H as [->|H]; [|now apply F].
    cbn [snd r_measure1]. apply Z. now left.
Qed.

Lemma num_div_zero a b : (a == 0)%Q -> (b == 0)%Q -> num_div a b = NaN.
Proof.
  intros A B. unfold num_div.
  apply Qeq_bool_iff in B. rewrite B.
  apply Qeq_alt in A. now rewrite A.
Qed.

Lemma scored_zero st query t :
  (forall i, i < List.length (tfidf st) ->
     (tfidf_measure (tfidf st) (keywords_of_query convertEmojiToKeywords query) i == 0)%Q) ->
  In t (scored tfidf_measure convertEmojiToKeywords st query) ->
  t_measure1 t = NaN.
Proof.
  intros Z H. unfold scored in H. rewrite in_map_iff in H.
  destruct H as (kr & <- & H). unfold normalise. cbn [t_measure1].
  unfold tfidfs in H |- *.
  destruct (tfidfs_zero_fold st (keywords_of_query convertEmojiToKeywords query)
              (combine (seq 0 (List.length (tfidf st))) (tfidf st)) ([], 0%Q))
    as [S F].
  - intros [i d] I. apply in_combine_l in I. apply in_seq in I.
    apply Z. cbn [fst]. lia.
  - reflexivity.
  - intros ? [].
  - apply num_div_zero; [now apply F|exact S].
Qed.

(** When no document scores on the words of the query, the sum of the
    raw measures is 0 and line 164 divides 0 by 0: every [measure1] is
    NaN, not 0.  Line 216 then counts it as 0, so a plain query finds
    nothing, also with [enableFuzzySearch] on. *)
Theorem unmatched_query_measure1_is_nan (st : index) (query : jsstring) :
  (forall i, i < List.length (tfidf st) ->
     (tfidf_measure (tfidf st) (keywords_of_query convertEmojiToKeywords query) i == 0)%Q) ->
  (forall t, In t (scored tfidf_measure convertEmojiToKeywords st query) ->
             t_measure1 t = NaN)
  /\ (isAscii query = true ->
      forall opts,
        run_search tfidf_measure convertEmojiToKeywords isPointInside
          isPointInCircle st query opts = Some []).
Proof.
  intros Z. split; [intros t; now apply scored_zero|].
  intros A opts. unfold run_search.
  destruct (candidates tfidf_measure convertEmojiToKeywords isPointInside
              isPointInCircle st query opts) as [c|] eqn:C.
  - assert (E : c = []).
    { destruct c as [|e c]; [reflexivity|]. exfalso.
      assert (I : In e (e :: c)) by now left.
      pose proof (candidates_ascii _ _ _ _ _ _ _ _ e A C I) as M2.
      destruct (candidates_In _ _ _ _ _ _ _ _ e C I) as (r & t & N & Ht & Et & E & T).
      unfold ngram_block in N. rewrite A in N. cbn [negb] in N.
      injection N as <-. apply (scored_zero st query t Z) in Ht.
      rewrite E in T. unfold combine_measure, measure2_or0 in T.
      cbn [e_measure] in T. rewrite M2, Et in T.
      destruct (enableFuzzySearch opts); cbn [set_measure1 t_measure1] in T;
        [rewrite Ht in T|]; discriminate T. }
    subst c. now rewrite policy_nil.
  - unfold candidates, ngram_block in C. rewrite A in C. discriminate C.
Qed.
End Unmatched.

Lemma unmatched_query_measure1_is_nan_witness :
  let query := [0x68%N; 0x69%N] in
  isAscii query = true
  /\ (forall t, In t (scored Samples.measure Samples.keywords
                        (memory Samples.two_documents) query) ->
                t_measure1 t = NaN)
  /\ forall opts,
       Samples.run (memory Samples.two_documents) query opts = Some [].
Proof.
  cbv zeta. split; [reflexivity|].
  destruct (unmatched_query_measure1_is_nan Samples.measure Samples.keywords
              Samples.outside Samples.outside_circle
              (memory Samples.two_documents) [0x68%N; 0x69%N]) as [H1 H2].
  - intros i H. destruct i as [|[|i]]; [reflexivity|reflexivity|].
    cbn in H. lia.
  - split; [exact H1|]. intros opts. now apply H2.
Defined.

(* ================================================================= *)
(** ** Further properties: the parameters of a search *)





Section Geofence.
Variable isPointInside : json -> list (jsnum * jsnum) -> bool.
Variable isPointInCircle : json -> obj json -> jsnum -> bool.

End Geofence.


Section Flags.
Variable tfidf_measure : list tfdoc -> jsstring -> nat -> Q.
Variable convertEmojiToKeywords : jsstring -> list jsstring.
Variable isPointInside : json -> list (jsnum * jsnum) -> bool.
Variable isPointInCircle : json -> obj json -> jsnum -> bool.
Variable JSON_parse : json -> option json.

(** The flags of a query string arrive as text and are read by their
    truthiness: any text but the empty one turns a flag on, the text
    [false] too.  Sending such a text for a flag whose default is on
    ([onlyKeepPerfectMatch], [truncateSmallMatches]) changes nothing in
    the answer. *)
Theorem text_flag_is_on
    (st : index) (query : jsstring) (params : obj json)
    (k : string) (s : jsstring) :
  s <> [] ->
  (forall d, flag (obj_set k (JStr s) params) k d = true)
  /\ (k = "onlyKeepPerfectMatch"%string \/ k = "truncateSmallMatches"%string ->
      obj_get k params = None ->
      search tfidf_measure convertEmojiToKeywords isPointInside
        isPointInCircle JSON_parse st query (obj_set k (JStr s) params)
      = search tfidf_measure convertEmojiToKeywords isPointInside
          isPointInCircle JSON_parse st query params).
Proof.
  intros N.
  assert (F : forall d, flag (obj_set k (JStr s) params) k d = true).
  { intros d. unfold flag. rewrite obj_get_set_same. cbn.
    destruct s; [contradiction|reflexivity]. }
  split; [exact F|]. intros K G.
  assert (Y : forall p, (forall k', k' <> k -> obj_get k' p = obj_get k' params) ->
                        obj_get k p = Some (JStr s) ->
     search tfidf_measure convertEmojiToKeywords isPointInside
       isPointInCircle JSON_parse st query p
     = search tfidf_measure convertEmojiToKeywords isPointInside
         isPointInCircle JSON_parse st query params).
  { intros p O Hk.
    assert (T : truthy (JStr s) = true) by (destruct s; [contradiction|reflexivity]).
    assert (X : forall q q',
       (forall k', k' <> k -> obj_get k' q = obj_get k' q') ->
       obj_get k q = Some (JStr s) -> obj_get k q' = None ->
       Ajv.searchValidate q = Ajv.searchValidate q' /\ defaults q = defaults q').
    { intros q q' H Hq Hq'. split.
      - unfold Ajv.searchValidate, Ajv.property.
        rewrite !H by (destruct K as [-> | ->]; discriminate). reflexivity.
      - unfold defaults, flag.
        destruct K as [-> | ->];
          rewrite ?Hq, ?Hq', ?T; rewrite !H by discriminate; reflexivity. }
    unfold search, parse_geofence.
    rewrite O by (destruct K as [-> | ->]; discriminate).
    destruct (obj_get "geofence" params) as [v|].
    - destruct (JSON_parse v) as [g|]; [|reflexivity].
      destruct (X (obj_set "geofence" g p) (obj_set "geofence" g params)) as [V D].
      + intros k' Nk. destruct (String.eqb_spec "geofence" k') as [<-|Ng].
        * now rewrite !obj_get_set_same.
        * rewrite !obj_get_set_other by exact Ng. now apply O.
      + rewrite obj_get_set_other by (destruct K as [-> | ->]; discriminate).
        exact Hk.
      + rewrite obj_get_set_other by (destruct K as [-> | ->]; discriminate).
        exact G.
      + now rewrite V, D.
    - destruct (X p params O Hk G) as [V D]. now rewrite V, D. }
  apply Y.
  - intros k' Nk. apply obj_get_set_other. congruence.
  - apply obj_get_set_same.
Qed.
End Flags.

Lemma text_flag_is_on_witness :
  let text_false := [0x66%N; 0x61%N; 0x6C%N; 0x73%N; 0x65%N] in
  text_false <> []
  /\ flag [("enableFuzzySearch"%string, JStr text_false)] "enableFuzzySearch" false
     = true
  /\ Samples.get (memory Samples.two_documents) Samples.grinning
       [("onlyKeepPerfectMatch"%string, JStr text_false)]
     = Samples.get (memory Samples.two_documents) Samples.grinning [].
Proof.
  cbv zeta.
  assert (N : [0x66%N; 0x61%N; 0x6C%N; 0x73%N; 0x65%N] <> []) by discriminate.
  split; [exact N|]. split.
  - exact (proj1 (text_flag_is_on Samples.measure Samples.keywords
                    Samples.outside Samples.outside_circle Samples.parse
                    (memory Samples.two_documents) Samples.grinning []
                    "enableFuzzySearch" _ N) false).
  - apply (proj2 (text_flag_is_on Samples.measure Samples.keywords
                    Samples.outside Samples.outside_circle Samples.parse
                    (memory Samples.two_documents) Samples.grinning []
                    "onlyKeepPerfectMatch" _ N)); [now left|reflexivity].
Defined.
